(** * Davidson subspace eigensolvers of pyscf: [future/tddft/davidson.py]

    A shallow embedding of [dgeev] (generalized problem [A c = e B c]),
    [eig] (standard problem [A X = X w]), their local orthogonalizer [qr]
    and the default selector [pickeig], followed by the properties of the
    specification that were checked against them.

    Conventions of the embedding.
    - numpy [float64] scalars are an abstract type [F] with the operations
      of the class [Scalar]; nothing is assumed about them unless a theorem
      says so.  IEEE binary64 ([Flt]), the rationals ([Rat]) and the real
      numbers ([Real]) are instances.
    - a 1-D array is a [list F]; element-wise operations follow numpy's
      shape rules for 1-D operands and raise [ValueError] otherwise.
    - Python exceptions are the [Raise] results of the error monad [result].
    - arrays are of a real dtype: [.conj()] is the identity and is omitted.
    - [log.debug] calls only print; the three messages that precede a
      [break] are kept as the [exit] tag of the loop. *)

From Stdlib Require Import List ZArith Lia Bool Arith PeanoNat.
From Stdlib Require Import Sorted Permutation.
From Stdlib Require Import Ring_theory Ring.
From Stdlib Require Floats QArith Qabs Reals.
Import ListNotations.

Set Implicit Arguments.

(** ** Exceptions and the error monad *)

Inductive exn : Type :=
| IndexError          (* sequence index out of range *)
| ValueError          (* shape mismatch, empty argmax/max *)
| UnboundLocalError   (* a local read before assignment *)
| ZeroDivisionError
| LinAlgError         (* raised by the dense eigensolver *)
| AssertionError
| Raised (tag : nat). (* raised by a caller-supplied function *)

Inductive result (A : Type) : Type :=
| Ok (a : A)
| Raise (e : exn).
Arguments Ok {A} a.
Arguments Raise {A} e.

Definition bind {A B} (m : result A) (k : A -> result B) : result B :=
  match m with
  | Ok a => k a
  | Raise e => Raise e
  end.

Declare Scope py_scope.
Delimit Scope py_scope with py.
Notation "x <- m ;; k" := (bind m (fun x => k))
  (at level 61, m at next level, right associativity) : py_scope.
Notation "' pat <- m ;; k" := (bind m (fun x => match x with pat => k end))
  (at level 61, pat pattern, m at next level, right associativity) : py_scope.
Open Scope py_scope.

(** [for a in l: s = f(s, a)], stopping at the first exception. *)
Fixpoint foldM {A St} (f : St -> A -> result St) (l : list A) (s : St) : result St :=
  match l with
  | [] => Ok s
  | a :: l' => s' <- f s a ;; foldM f l' s'
  end.

(** [[f(a) for a in l]] *)
Definition mapM {A B} (f : A -> result B) (l : list A) : result (list B) :=
  foldM (fun acc a => b <- f a ;; Ok (acc ++ [b])) l [].

(** [l[i]] for a non-negative index. *)
Definition getitem {A} (l : list A) (i : nat) : result A :=
  match nth_error l i with
  | Some a => Ok a
  | None => Raise IndexError
  end.

(** ** Scalars *)

Class Scalar (F : Type) : Type := {
  zero : F;
  one : F;
  add : F -> F -> F;
  sub : F -> F -> F;
  mul : F -> F -> F;
  div : F -> F -> F;
  sqrt : F -> F;
  absv : F -> F;
  ltb : F -> F -> bool;   (* a < b *)
  leb : F -> F -> bool;   (* a <= b *)
  eqb : F -> F -> bool;   (* a == b *)
  c1em7 : F;              (* the literal 1e-7 *)
  c1em2 : F               (* the literal 1e-2 *)
}.

(** Why the loop of a solver stopped: the three [break]s and the end of
    [range(max_cycle)]. *)
Inductive exit : Type :=
| ConvergedDe     (* 'converge ... max|de|' after the eigenvalue test *)
| ConvergedRes    (* 'converge ... |r|' after the residual test *)
| LinearDep       (* 'Linear dependency in trial subspace' *)
| CyclesDone.     (* range(max_cycle) ran out *)

Inductive control (St : Type) : Type :=
| Continue (s : St)
| Break (why : exit) (s : St).
Arguments Continue {St} s.
Arguments Break {St} why s.

(** What a run of the [for icyc in range(max_cycle)] loop produced.
    [cycles] counts the loop bodies that were entered and [visited] lists
    the state at the end of each body that completed; both are ghost
    observations, [final] is what the code after the loop sees. *)
Record outcome (St : Type) : Type := {
  cycles : nat;
  visited : list St;
  final : result (exit * St)
}.

Fixpoint for_range {St} (body : nat -> St -> result (control St))
         (n icyc : nat) (s : St) : outcome St :=
  match n with
  | 0 => {| cycles := 0; visited := []; final := Ok (CyclesDone, s) |}
  | S n' =>
      match body icyc s with
      | Raise ex => {| cycles := 1; visited := []; final := Raise ex |}
      | Ok (Break why s') =>
          {| cycles := 1; visited := [s']; final := Ok (why, s') |}
      | Ok (Continue s') =>
          let o := for_range body n' (S icyc) s' in
          {| cycles := S (cycles o); visited := s' :: visited o;
             final := final o |}
      end
  end.

(** The state in which a cycle ends. *)
Definition landing {St} (c : control St) : St :=
  match c with
  | Continue s => s
  | Break _ s => s
  end.

(** How many cycles a run entered and how its loop ended. *)
Definition how_ended {St} (r : result (outcome St)) : option (nat * result exit) :=
  match r with
  | Ok o => Some (cycles o,
                  match final o with
                  | Ok (why, _) => Ok why
                  | Raise ex => Raise ex
                  end)
  | Raise _ => None
  end.

(** The value of a [return]: [e[0], x0[0]] or [e, x0]. *)
Inductive retval (F : Type) : Type :=
| RetOne (e : F) (x : list F)
| RetMany (e : list F) (x : list (list F)).

(** The initial guess: a 1-D array, or a sequence of them. *)
Inductive guess (F : Type) : Type :=
| OneVector (x : list F)
| Vectors (l : list (list F)).

Section Primitives.
Context {F : Type} `{Scalar F}.

Local Abbreviation vec := (list F).
Local Abbreviation matrix := (list (list F)).
Local Abbreviation complex := (F * F)%type.

Definition re (z : complex) : F := fst z.
Definition im (z : complex) : F := snd z.

(** *** Element-wise operations on 1-D arrays *)

Definition vdiv (x : vec) (s : F) : vec := map (fun a => div a s) x.   (* x / s *)
Definition vmul_r (x : vec) (s : F) : vec := map (fun a => mul a s) x. (* x * s *)
Definition vmul_l (s : F) (x : vec) : vec := map (fun a => mul s a) x. (* s * x *)

Fixpoint zipw (f : F -> F -> F) (x y : vec) : vec :=
  match x, y with
  | a :: x', b :: y' => f a b :: zipw f x' y'
  | _, _ => []
  end.

(** [x op y]: equal shapes, or one operand of size 1 is broadcast. *)
Definition broadcast (f : F -> F -> F) (x y : vec) : result vec :=
  if length x =? length y then Ok (zipw f x y)
  else match x, y with
       | _, [b] => Ok (map (fun a => f a b) x)
       | [a], _ => Ok (map (fun b => f a b) y)
       | _, _ => Raise ValueError
       end.

(** [x op= y]: the result keeps the shape of [x]. *)
Definition inplace (f : F -> F -> F) (x y : vec) : result vec :=
  if length x =? length y then Ok (zipw f x y)
  else match y with
       | [b] => Ok (map (fun a => f a b) x)
       | _ => Raise ValueError
       end.

(** The sum of products accumulated from the left. *)
Definition dotsum (x y : vec) : F :=
  fold_left (fun acc p => add acc (mul (fst p) (snd p))) (combine x y) zero.

(** [numpy.dot] on two 1-D arrays: the shapes must agree. *)
Definition npdot (x y : vec) : result F :=
  if length x =? length y then Ok (dotsum x y) else Raise ValueError.

(** Modelled from the spec: [numpy_helper.norm] is not under src/; the
    spec lists it with the vector primitives (norm, dot, axpy), and it is
    the Euclidean norm of a 1-D array. *)
Definition norm (x : vec) : F := sqrt (dotsum x x).

Definition zeros (n : nat) : vec := repeat zero n.

(** *** Matrices ([heff], [seff]) *)

(** [numpy.empty((n,n))]: the contents are arbitrary; every entry of the
    active block is written before it is read. *)
Definition empty_matrix (n : nat) : matrix := repeat (repeat zero n) n.

Fixpoint set_nth {A} (l : list A) (i : nat) (a : A) : list A :=
  match l, i with
  | [], _ => []
  | _ :: l', 0 => a :: l'
  | b :: l', S i' => b :: set_nth l' i' a
  end.

(** [m[i,j]] *)
Definition mget (m : matrix) (i j : nat) : result F :=
  row <- getitem m i ;; getitem row j.

(** [m[i,j] = a]; an index outside the array raises [IndexError]. *)
Definition mset (m : matrix) (i j : nat) (a : F) : result matrix :=
  row <- getitem m i ;;
  _ <- getitem row j ;;
  Ok (set_nth m i (set_nth row j a)).

(** [m[:n,:n]] *)
Definition leading (n : nat) (m : matrix) : matrix :=
  map (firstn n) (firstn n m).

(** *** The orthogonalizer [qr] (lines 72-84 and 269-281, identical) *)

(** [for j in range(len(qs)): xi -= qs[j] * numpy.dot(qs[j], xi)] *)
Definition qr_project (qs : list vec) (xi : vec) : result vec :=
  foldM (fun xi qj => d <- npdot qj xi ;; inplace sub xi (vmul_r qj d)) qs xi.

(** One turn of [for i in range(1, len(xs))]. *)
Definition qr_step (qs : list vec) (x : vec) : result (list vec) :=
  xi <- qr_project qs x ;;
  let nrm := norm xi in
  if ltb c1em7 nrm then Ok (qs ++ [vdiv xi nrm]) else Ok qs.

Definition qr (xs : list vec) : result (list vec) :=
  x0 <- getitem xs 0 ;;
  foldM qr_step (tl xs) [vdiv x0 (norm x0)].

(** *** Gram-Schmidt as the specification words it *)

(** The candidate minus its projection onto each accepted vector, the
    coefficients being those of the candidate itself (classical
    Gram-Schmidt). *)
Definition residual (accepted : list vec) (x : vec) : vec :=
  fold_left (fun r q => zipw sub r (vmul_r q (dotsum q x))) accepted x.

(** One pass over the candidates: a candidate is accepted, renormalized,
    when the norm of its residual exceeds 1e-7, and dropped otherwise. *)
Fixpoint gram_schmidt (accepted candidates : list vec) : list vec :=
  match candidates with
  | [] => accepted
  | x :: rest =>
      let r := residual accepted x in
      if ltb c1em7 (norm r) then gram_schmidt (accepted ++ [vdiv r (norm r)]) rest
      else gram_schmidt accepted rest
  end.

(** Every vector has norm 1 and any two at different positions are
    orthogonal. *)
Definition orthonormal (qs : list vec) : Prop :=
  Forall (fun q => norm q = one /\ dotsum q q = one) qs /\
  ForallOrdPairs (fun p q => dotsum p q = zero /\ dotsum q p = zero) qs.

Definition nonzero (x : vec) : Prop := exists a, In a x /\ a <> zero.

(** The scalars are an ordered field with exact square roots, as far as
    the orthogonalizer needs it. *)
Record exact_arithmetic : Prop := {
  ex_ring : ring_theory zero one add mul sub (fun a => sub zero a) (@eq F);
  ex_div : forall a b, div a b = mul a (div one b);
  ex_inv : forall a, a <> zero -> mul (div one a) a = one;
  ex_sqrt : forall a, leb zero a = true -> mul (sqrt a) (sqrt a) = a;
  ex_sqrt_one : sqrt one = one;
  ex_square : forall a, leb zero (mul a a) = true;
  ex_sum : forall a b, leb zero a = true -> leb zero b = true ->
                       leb zero (add a b) = true;
  ex_zero : leb zero zero = true;
  ex_sum_zero : forall a b, leb zero a = true -> leb zero b = true ->
                            add a b = zero -> a = zero /\ b = zero;
  ex_square_zero : forall a, mul a a = zero -> a = zero;
  ex_threshold : ltb c1em7 zero = false
}.

(** [A] maps the vectors of dimension [n] to vectors of dimension [n] and
    commutes, exactly, with their scalings and sums: a linear operator in
    exact arithmetic. *)
Definition linear_on (n : nat) (A : vec -> vec) : Prop :=
  (forall x, length x = n -> length (A x) = n) /\
  (forall x c, length x = n -> A (vmul_r x c) = vmul_r (A x) c) /\
  (forall x c, length x = n -> A (vmul_l c x) = vmul_l c (A x)) /\
  (forall x y, length x = n -> length y = n ->
               A (zipw add x y) = zipw add (A x) (A y)).

(** *** The default selector [pickeig] (lines 253-255) *)

(** [numpy.where(cond)[0]]: the positions at which [cond] holds. *)
Fixpoint where_from {A} (p : A -> bool) (l : list A) (i : nat) : list nat :=
  match l with
  | [] => []
  | a :: l' => if p a then i :: where_from p l' (S i) else where_from p l' (S i)
  end.

(** [keys.argsort()]: the positions of [keys] in ascending order of key,
    by insertion from the right (equal keys keep their order). *)
Fixpoint insert_key (k : F * nat) (l : list (F * nat)) : list (F * nat) :=
  match l with
  | [] => [k]
  | h :: t => if leb (fst k) (fst h) then k :: h :: t else h :: insert_key k t
  end.

Definition sort_keys (l : list (F * nat)) : list (F * nat) :=
  fold_right insert_key [] l.

Definition argsort (keys : list F) : list nat :=
  map snd (sort_keys (combine keys (seq 0 (length keys)))).

Definition czero : complex := (zero, zero).

Definition pickeig (w : list complex) (v : list (list complex)) (nroots : nat)
  : list nat :=
  let realidx := where_from (fun z => eqb (im z) zero) w 0 in
  let keys := map (fun i => re (nth i w czero)) realidx in
  map (fun j => nth j realidx 0) (firstn nroots (argsort keys)).

(** [l] is in ascending order of [<=]; every item is below all the later
    ones. *)
Definition ascending (l : list F) : Prop :=
  StronglySorted (fun a b => leb a b = true) l.

(** The default of [eig]'s keyword argument [pick]. *)
Definition pick_default (w : list complex) (v : list (list complex))
           (nroots : nat) : result (list nat) :=
  Ok (pickeig w v nroots).

(** *** Steps shared verbatim by the two solvers *)

(** [numpy.argmax(a)]: the first position of the maximum; a NaN wins and
    stops the scan.  Empty input raises [ValueError]. *)
Fixpoint argmax_from (l : list F) (i : nat) (best : F) (ibest : nat) : nat :=
  match l with
  | [] => ibest
  | a :: l' =>
      if leb a best then argmax_from l' (S i) best ibest
      else if eqb a a then argmax_from l' (S i) a i
      else i
  end.

Definition argmax (l : list F) : result nat :=
  match l with
  | [] => Raise ValueError
  | a :: l' => Ok (if eqb a a then argmax_from l' 1 a 0 else 0)
  end.

(** The builtin [max] of a list: the first maximal item under [>]. *)
Definition pymax (l : list F) : result F :=
  match l with
  | [] => Raise ValueError
  | a :: l' => Ok (fold_left (fun m b => if ltb m b then b else m) l' a)
  end.

(** [ide = numpy.argmax(abs(de)); abs(de[ide]) < tol] (lines 191-192). *)
Definition de_converged (tol : F) (de : vec) : result bool :=
  let ade := map absv de in
  ide <- argmax ade ;;
  d <- getitem de ide ;;
  Ok (ltb (absv d) tol).

(** Lines 213-219: precondition the residuals above [toloose], normalize
    them, drop the others.  The array that [precond] returns is taken to
    be a new one, as that of the module's own test is: [xt[k] *= ...] and
    [xi -= ...] (lines 216 and 223) update it in place, so a preconditioner
    that hands back one of its arguments has that argument, [x0[k]]
    included, overwritten; vectors are values here and that sharing is not
    followed. *)
Definition precondition (precond : vec -> F -> vec -> result vec)
           (toloose : F) (e : vec) (x0 xt : list vec) (dx_norm : vec)
  : result (list vec) :=
  foldM (fun acc k =>
           nk <- getitem dx_norm k ;;
           if ltb toloose nk then
             rk <- getitem xt k ;;
             e0 <- getitem e 0 ;;
             xk <- getitem x0 k ;;
             p <- precond rk e0 xk ;;
             Ok (acc ++ [vmul_r p (div one (norm p))])
           else Ok acc)
        (seq 0 (length e)) [].

(** Lines 220-223: [for i in range(space): for xi in xt:
    xi -= xs[i] * numpy.dot(xi, xs[i])]. *)
Definition project_out (xs : list vec) (space : nat) (xt : list vec)
  : result (list vec) :=
  foldM (fun xt i =>
           foldM (fun acc xi =>
                    xsi <- getitem xs i ;;
                    d <- npdot xi xsi ;;
                    xi' <- inplace sub xi (vmul_r xsi d) ;;
                    Ok (acc ++ [xi']))
                 xt [])
        (seq 0 space) xt.

(** Lines 224-232: keep, normalized, the vectors whose norm exceeds
    [toloose]. *)
Definition prune (toloose : F) (xt : list vec) : list vec :=
  flat_map (fun xi => let nrm := norm xi in
                      if ltb toloose nrm then [vmul_r xi (div one nrm)] else [])
           xt.

(** Lines 248-251 and 410-413. *)
Definition return_value (nroots : nat) (e : option vec) (x0 : list vec)
  : result (retval F) :=
  match e with
  | None => Raise UnboundLocalError
  | Some ev =>
      if nroots =? 1 then
        e0 <- getitem ev 0 ;; x <- getitem x0 0 ;; Ok (RetOne e0 x)
      else Ok (RetMany ev x0)
  end.

(** [a <- ra; b <- rb]: the operands of a call, evaluated left to right. *)
Definition operands {A B} (ra : result A) (rb : result B) : result (A * B) :=
  a <- ra ;; b <- rb ;; Ok (a, b).

(** [m[p,q] = dot(u, a); m[q,p] = m[p,q].conj()], the pattern of lines
    132-155. *)
Definition entry (dot : vec -> vec -> result F) (m : matrix) (p q : nat)
           (ua : result (vec * vec)) : result matrix :=
  '(u, a) <- ua ;;
  d <- dot u a ;;
  m <- mset m p q d ;;
  c <- mget m p q ;;
  mset m q p c.

(** [x0 = [x0]] for a 1-D array (lines 88-89). *)
Definition as_list (g : guess F) : list vec :=
  match g with
  | OneVector x => [x]
  | Vectors l => l
  end.

(** [max_memory*1e6/x0[0].nbytes > need] for [float64] items; the
    quotient is compared exactly. *)
Definition fits_in_core (max_memory : Z) (size : nat) (need : nat) : result bool :=
  if size =? 0 then Raise ZeroDivisionError
  else Ok (Z.of_nat need * (8 * Z.of_nat size) <? max_memory * 1000000)%Z.

End Primitives.

(** ** The generalized solver [dgeev] (lines 16-251) *)

Module Dgeev.
Section Solver.
Context {F : Type} `{Scalar F}.
Local Abbreviation vec := (list F).
Local Abbreviation matrix := (list (list F)).

(** The locals that live across cycles. *)
Record state : Type := {
  fresh_start : bool;
  xs : list vec;
  ax : list vec;
  bx : list vec;
  space : nat;
  xt : list vec;
  x0 : list vec;
  e : option vec;       (* [None]: not assigned yet *)
  heff : matrix;
  seff : matrix
}.

(** The same locals with another value of [e]. *)
Definition with_e (ev : option vec) (st : state) : state :=
  {| fresh_start := fresh_start st; xs := xs st; ax := ax st; bx := bx st;
     space := space st; xt := xt st; x0 := x0 st; e := ev;
     heff := heff st; seff := seff st |}.

(** What [callback(locals())] shows the caller at the end of a cycle. *)
Record locals : Type := {
  l_type : Z;
  l_tol : F;
  l_max_cycle : nat;
  l_max_space : nat;
  l_lindep : F;
  l_max_memory : Z;
  l_nroots : nat;
  l_lessio : bool;
  l_incore : bool;
  l_toloose : F;
  l_icyc : nat;
  l_w : vec;
  l_v : matrix;
  l_de : vec;
  l_dx_norm : vec;
  l_state : state
}.

(** The collaborators.  [abop1] is [abop] applied to a single 1-D array
    (line 246); [eigh] is [scipy.linalg.eigh(a, b)], which returns the
    eigenvalues and the matrix whose columns are the eigenvectors. *)
Variable abop : list vec -> result (list vec * list vec).
Variable abop1 : vec -> result (vec * vec).
Variable precond : vec -> F -> vec -> result vec.
Variable dot : vec -> vec -> result F.
Variable eigh : matrix -> matrix -> result (vec * matrix).

(** Lines 99-116. *)
Definition begin_cycle (nroots : nat) (st : state) : result state :=
  if fresh_start st then
    qs <- qr (x0 st) ;;
    Ok {| fresh_start := false; xs := []; ax := []; bx := []; space := 0;
          xt := qs;
          x0 := [];               (* None; assigned again at line 164 *)
          e := Some (zeros nroots);
          heff := heff st; seff := seff st |}
  else if 1 <? length (xt st) then
    qs <- qr (xt st) ;;
    Ok {| fresh_start := false; xs := xs st; ax := ax st; bx := bx st;
          space := space st;
          xt := firstn 40 qs;
          x0 := x0 st; e := e st; heff := heff st; seff := seff st |}
  else Ok st.

(** Lines 118-120. *)
Definition apply_operator (type : Z) (xt : list vec)
  : result (list vec * list vec) :=
  '(axt, bxt) <- abop xt ;;
  if (1 <? type)%Z then
    '(axt', _) <- abop bxt ;; Ok (axt', bxt)
  else Ok (axt, bxt).

(** Lines 121-124. *)
Definition append_trials (st : state) (axt bxt : list vec)
  : result (list vec * list vec * list vec) :=
  foldM (fun '(xs, ax, bx) k =>
           xk <- getitem (xt st) k ;;
           ak <- getitem axt k ;;
           bk <- getitem bxt k ;;
           Ok (xs ++ [xk], ax ++ [ak], bx ++ [bk]))
        (seq 0 (length (xt st))) (xs st, ax st, bx st).

(** Lines 128-155: the new rows and columns of [heff] and [seff]. *)
Definition extend (type : Z) (xt axt bxt ax bx : list vec)
           (head rnow space : nat) (heff seff : matrix)
  : result (matrix * matrix) :=
  let left := if (type =? 1)%Z then xt else bxt in
  foldM (fun hs i =>
           if (head <=? i) && (i <? head + rnow) then
             foldM (fun '(h, s) k =>
                      h <- entry dot h (head + k) i
                             (operands (getitem left k) (getitem axt (i - head))) ;;
                      s <- entry dot s (head + k) i
                             (operands (getitem xt k) (getitem bxt (i - head))) ;;
                      Ok (h, s))
                   (seq 0 (i - head + 1)) hs
           else
             foldM (fun '(h, s) k =>
                      h <- entry dot h (head + k) i
                             (operands (getitem left k) (getitem ax i)) ;;
                      s <- entry dot s (head + k) i
                             (operands (getitem xt k) (getitem bx i)) ;;
                      Ok (h, s))
                   (seq 0 rnow) hs)
        (seq 0 space) (heff, seff).

(** Lines 158-161. *)
Definition deltas (nroots space : nat) (e : option vec) (w : vec) : result vec :=
  if space <? nroots then Ok (firstn nroots w)
  else
    eprev <- match e with Some ev => Ok ev | None => Raise UnboundLocalError end ;;
    if negb (length eprev =? nroots) then Ok (firstn nroots w)
    else broadcast sub (firstn nroots w) eprev.

(** Lines 168-173: the Ritz vectors alone. *)
Definition ritz_vectors (xs : list vec) (v : matrix) (space ne : nat)
  : result (list vec) :=
  x0 <- foldM (fun x0 k =>
                 xl <- getitem xs (space - 1) ;;
                 c <- mget v (space - 1) k ;;
                 Ok (x0 ++ [vmul_r xl c]))
              (seq 0 ne) [] ;;
  foldM (fun x0 i =>
           xsi <- getitem xs i ;;
           foldM (fun x0 k =>
                    xk <- getitem x0 k ;;
                    c <- mget v i k ;;
                    xk' <- inplace add xk (vmul_l c xsi) ;;
                    Ok (set_nth x0 k xk'))
                 (seq 0 ne) x0)
        (rev (seq 0 (space - 1))) x0.

(** Lines 178-189: the Ritz vectors and their images, assembled from the
    stored images. *)
Definition ritz_assembled (xs ax bx : list vec) (v : matrix) (space ne : nat)
  : result (list vec * list vec * list vec) :=
  r <- foldM (fun '(x0, ax0, bx0) k =>
                xl <- getitem xs (space - 1) ;;
                c <- mget v (space - 1) k ;;
                al <- getitem ax (space - 1) ;;
                bl <- getitem bx (space - 1) ;;
                Ok (x0 ++ [vmul_r xl c], ax0 ++ [vmul_r al c], bx0 ++ [vmul_r bl c]))
             (seq 0 ne) ([], [], []) ;;
  foldM (fun r i =>
           xsi <- getitem xs i ;;
           axi <- getitem ax i ;;
           bxi <- getitem bx i ;;
           foldM (fun '(x0, ax0, bx0) k =>
                    xk <- getitem x0 k ;;
                    c <- mget v i k ;;
                    xk' <- inplace add xk (vmul_l c xsi) ;;
                    ak <- getitem ax0 k ;;
                    ak' <- inplace add ak (vmul_l c axi) ;;
                    bk <- getitem bx0 k ;;
                    bk' <- inplace add bk (vmul_l c bxi) ;;
                    Ok (set_nth x0 k xk', set_nth ax0 k ak', set_nth bx0 k bk'))
                 (seq 0 ne) r)
        (rev (seq 0 (space - 1))) r.

(** Lines 164-189. *)
Definition ritz (type : Z) (lessio incore : bool) (xs ax bx : list vec)
           (v : matrix) (space ne : nat)
  : result (list vec * list vec * list vec) :=
  if lessio && negb incore then
    x0 <- ritz_vectors xs v space ne ;;
    '(ax0, bx0) <- abop x0 ;;
    if (1 <? type)%Z then
      '(ax0', _) <- abop bx0 ;; Ok (x0, ax0', bx0)
    else Ok (x0, ax0, bx0)
  else ritz_assembled xs ax bx v space ne.

(** Lines 197-205: the residuals and their norms. *)
Definition residuals (type : Z) (e : vec) (x0 ax0 bx0 : list vec)
  : result (list vec * vec) :=
  foldM (fun '(xt, dx_norm) '(k, ek) =>
           ak <- getitem ax0 k ;;
           yk <- (if (type =? 1)%Z then getitem bx0 k else getitem x0 k) ;;
           dxtmp <- broadcast sub ak (vmul_l ek yk) ;;
           Ok (xt ++ [dxtmp], dx_norm ++ [norm dxtmp]))
        (combine (seq 0 (length e)) e) ([], []).

(** One turn of [for icyc in range(max_cycle)] (lines 99-242).  [notify]
    is the call of the callback, given the temporaries of the cycle. *)
Definition cycle (type : Z) (tol toloose : F) (max_space nroots : nat)
           (lessio incore : bool)
           (notify : nat -> vec -> matrix -> vec -> vec -> state -> result unit)
           (icyc : nat) (st : state) : result (control state) :=
  st <- begin_cycle nroots st ;;
  '(axt, bxt) <- apply_operator type (xt st) ;;
  '(xs', ax', bx') <- append_trials st axt bxt ;;
  let rnow := length (xt st) in
  let head := space st in
  let space' := space st + rnow in
  '(heff', seff') <- extend type (xt st) axt bxt ax' bx' head rnow space'
                            (heff st) (seff st) ;;
  '(w, v) <- eigh (leading space' heff') (leading space' seff') ;;
  de <- deltas nroots space' (e st) w ;;
  let e' := firstn nroots w in
  '(x0', ax0, bx0) <- ritz type lessio incore xs' ax' bx' v space' (length e') ;;
  let st1 := {| fresh_start := fresh_start st; xs := xs'; ax := ax'; bx := bx';
                space := space'; xt := xt st; x0 := x0'; e := Some e';
                heff := heff'; seff := seff' |} in
  conv <- de_converged tol de ;;
  if conv then Ok (Break ConvergedDe st1)
  else
    '(res, dx_norm) <- residuals type e' x0' ax0 bx0 ;;
    let with_xt l := {| fresh_start := fresh_start st1; xs := xs'; ax := ax';
                        bx := bx'; space := space'; xt := l; x0 := x0';
                        e := Some e'; heff := heff'; seff := seff' |} in
    m <- pymax dx_norm ;;
    if ltb m toloose then Ok (Break ConvergedRes (with_xt res))
    else
      xt1 <- precondition precond toloose e' x0' res dx_norm ;;
      xt2 <- project_out xs' space' xt1 ;;
      let xt3 := prune toloose xt2 in
      if length xt3 =? 0 then Ok (Break LinearDep (with_xt xt3))
      else
        let st2 := {| fresh_start :=
                        fresh_start st1 || (max_space <? space' + length xt3);
                      xs := xs'; ax := ax'; bx := bx'; space := space';
                      xt := xt3; x0 := x0'; e := Some e';
                      heff := heff'; seff := seff' |} in
        _ <- notify icyc w v de dx_norm st2 ;;
        Ok (Continue st2).

(** Lines 86-98: what precedes the loop, then the loop. *)
Definition run (x0 : guess F) (type : Z) (tol : F) (max_cycle : Z)
           (max_space : nat) (lindep : F) (max_memory : Z)
           (callback : option (locals -> result unit))
           (nroots : nat) (lessio : bool) : result (outcome state) :=
  let toloose := mul (sqrt tol) c1em2 in
  let x0 := as_list x0 in
  first <- getitem x0 0 ;;
  let max_cycle := Z.to_nat (Z.min max_cycle (Z.of_nat (length first))) in
  let max_space := max_space + nroots * 2 in
  incore <- fits_in_core max_memory (length first) (max_space * 3 + nroots * 3) ;;
  let notify icyc w v de dx_norm st :=
    match callback with
    | None => Ok tt
    | Some f =>
        f {| l_type := type; l_tol := tol; l_max_cycle := max_cycle;
             l_max_space := max_space; l_lindep := lindep;
             l_max_memory := max_memory; l_nroots := nroots;
             l_lessio := lessio; l_incore := incore; l_toloose := toloose;
             l_icyc := icyc; l_w := w; l_v := v; l_de := de;
             l_dx_norm := dx_norm; l_state := st |}
    end in
  Ok (for_range (cycle type tol toloose max_space nroots lessio incore notify)
                max_cycle 0
                {| fresh_start := true; xs := []; ax := []; bx := []; space := 0;
                   xt := []; x0 := x0; e := None;
                   heff := empty_matrix max_space;
                   seff := empty_matrix max_space |}).

(** Lines 244-251: what follows the loop. *)
Definition finish (type : Z) (nroots : nat) (st : state) : result (retval F) :=
  x0 <- (if (type =? 3)%Z then
           foldM (fun x0 k =>
                    xk <- getitem x0 k ;;
                    '(_, b) <- abop1 xk ;;
                    Ok (set_nth x0 k b))
                 (seq 0 nroots) (x0 st)
         else Ok (x0 st)) ;;
  return_value nroots (e st) x0.

Definition dgeev (x0 : guess F) (type : Z) (tol : F) (max_cycle : Z)
           (max_space : nat) (lindep : F) (max_memory : Z)
           (callback : option (locals -> result unit))
           (nroots : nat) (lessio : bool) : result (retval F) :=
  o <- run x0 type tol max_cycle max_space lindep max_memory callback
           nroots lessio ;;
  '(_, st) <- final o ;;
  finish type nroots st.

End Solver.
End Dgeev.

(** ** The standard solver [eig] (lines 257-413) *)

Module Eig.
Section Solver.
Context {F : Type} `{Scalar F}.
Local Abbreviation vec := (list F).
Local Abbreviation matrix := (list (list F)).
Local Abbreviation complex := (F * F)%type.

Record state : Type := {
  fresh_start : bool;
  xs : list vec;
  ax : list vec;
  space : nat;
  xt : list vec;
  x0 : list vec;
  e : option vec;       (* [None]: not assigned yet *)
  heff : matrix
}.

Definition with_e (ev : option vec) (st : state) : state :=
  {| fresh_start := fresh_start st; xs := xs st; ax := ax st;
     space := space st; xt := xt st; x0 := x0 st; e := ev; heff := heff st |}.

Record locals : Type := {
  l_tol : F;
  l_max_cycle : nat;
  l_max_space : nat;
  l_lindep : F;
  l_max_memory : Z;
  l_nroots : nat;
  l_lessio : bool;
  l_incore : bool;
  l_toloose : F;
  l_icyc : nat;
  l_w : list complex;
  l_v : matrix;
  l_idx : list nat;
  l_de : vec;
  l_dx_norm : vec;
  l_state : state
}.

(** The collaborators.  [eigs] is [scipy.linalg.eig(a)]: complex
    eigenvalues and the matrix whose columns are the eigenvectors. *)
Variable aop : list vec -> result (list vec).
Variable precond : vec -> F -> vec -> result vec.
Variable dot : vec -> vec -> result F.
Variable pick : list complex -> list (list complex) -> nat -> result (list nat).
Variable eigs : matrix -> result (list complex * list (list complex)).

(** Lines 295-310. *)
Definition begin_cycle (nroots : nat) (st : state) : result state :=
  if fresh_start st then
    qs <- qr (x0 st) ;;
    Ok {| fresh_start := false; xs := []; ax := []; space := 0;
          xt := qs;
          x0 := [];               (* None; assigned again at line 339 *)
          e := Some (zeros nroots);
          heff := heff st |}
  else if 1 <? length (xt st) then
    qs <- qr (xt st) ;;
    Ok {| fresh_start := false; xs := xs st; ax := ax st; space := space st;
          xt := firstn 40 qs;
          x0 := x0 st; e := e st; heff := heff st |}
  else Ok st.

(** Lines 313-315. *)
Definition append_trials (st : state) (axt : list vec)
  : result (list vec * list vec) :=
  foldM (fun '(xs, ax) k =>
           xk <- getitem (xt st) k ;;
           ak <- getitem axt k ;;
           Ok (xs ++ [xk], ax ++ [ak]))
        (seq 0 (length (xt st))) (xs st, ax st).

(** [m[p,q] = dot(u, a)] *)
Definition assign (m : matrix) (p q : nat) (ua : result (vec * vec))
  : result matrix :=
  '(u, a) <- ua ;; d <- dot u a ;; mset m p q d.

(** Lines 319-327: the new rows and columns of [heff]. *)
Definition extend (xt axt xs ax : list vec) (head rnow : nat) (heff : matrix)
  : result matrix :=
  h <- foldM (fun h i =>
                foldM (fun h k =>
                         assign h (head + k) (head + i)
                                (operands (getitem xt k) (getitem axt i)))
                      (seq 0 rnow) h)
             (seq 0 rnow) heff ;;
  foldM (fun h i =>
           axi <- getitem ax i ;;
           xi <- getitem xs i ;;
           foldM (fun h k =>
                    h <- assign h (head + k) i (operands (getitem xt k) (Ok axi)) ;;
                    assign h i (head + k) (operands (Ok xi) (getitem axt k)))
                 (seq 0 rnow) h)
        (seq 0 head) h.

(** Lines 332-335, with [wr = w[idx].real]. *)
Definition deltas (nroots : nat) (idx : list nat) (e : option vec) (wr : vec)
  : result vec :=
  if length idx <? nroots then Ok wr
  else
    eprev <- match e with Some ev => Ok ev | None => Raise UnboundLocalError end ;;
    if negb (length eprev =? nroots) then Ok wr
    else broadcast sub wr eprev.

(** [v[:,idx].real] *)
Definition select_columns (v : list (list complex)) (idx : list nat)
  : result matrix :=
  mapM (fun row => cols <- mapM (getitem row) idx ;; Ok (map re cols)) v.

(** Lines 342-347: the Ritz vectors alone. *)
Definition ritz_vectors (xs : list vec) (v : matrix) (space ne : nat)
  : result (list vec) :=
  x0 <- foldM (fun x0 k =>
                 xl <- getitem xs (space - 1) ;;
                 c <- mget v (space - 1) k ;;
                 Ok (x0 ++ [vmul_r xl c]))
              (seq 0 ne) [] ;;
  foldM (fun x0 i =>
           xsi <- getitem xs i ;;
           foldM (fun x0 k =>
                    xk <- getitem x0 k ;;
                    c <- mget v i k ;;
                    xk' <- inplace add xk (vmul_l c xsi) ;;
                    Ok (set_nth x0 k xk'))
                 (seq 0 ne) x0)
        (rev (seq 0 (space - 1))) x0.

(** Lines 350-358: the Ritz vectors and their images, assembled from the
    stored images. *)
Definition ritz_assembled (xs ax : list vec) (v : matrix) (space ne : nat)
  : result (list vec * list vec) :=
  r <- foldM (fun '(x0, ax0) k =>
                xl <- getitem xs (space - 1) ;;
                c <- mget v (space - 1) k ;;
                al <- getitem ax (space - 1) ;;
                Ok (x0 ++ [vmul_r xl c], ax0 ++ [vmul_r al c]))
             (seq 0 ne) ([], []) ;;
  foldM (fun r i =>
           xsi <- getitem xs i ;;
           axi <- getitem ax i ;;
           foldM (fun '(x0, ax0) k =>
                    xk <- getitem x0 k ;;
                    c <- mget v i k ;;
                    xk' <- inplace add xk (vmul_l c xsi) ;;
                    ak <- getitem ax0 k ;;
                    ak' <- inplace add ak (vmul_l c axi) ;;
                    Ok (set_nth x0 k xk', set_nth ax0 k ak'))
                 (seq 0 ne) r)
        (rev (seq 0 (space - 1))) r.

(** Lines 339-358. *)
Definition ritz (lessio incore : bool) (xs ax : list vec)
           (v : matrix) (space ne : nat) : result (list vec * list vec) :=
  if lessio && negb incore then
    x0 <- ritz_vectors xs v space ne ;;
    ax0 <- aop x0 ;;
    Ok (x0, ax0)
  else ritz_assembled xs ax v space ne.

(** Lines 366-371. *)
Definition residuals (e : vec) (x0 ax0 : list vec) : result (list vec * vec) :=
  foldM (fun '(xt, dx_norm) '(k, ek) =>
           ak <- getitem ax0 k ;;
           xk <- getitem x0 k ;;
           dxtmp <- broadcast sub ak (vmul_l ek xk) ;;
           Ok (xt ++ [dxtmp], dx_norm ++ [norm dxtmp]))
        (combine (seq 0 (length e)) e) ([], []).

(** Lines 386-389: as lines 220-223, with [xs[i]] read once per [i]. *)
Definition project_out (xs : list vec) (space : nat) (xt : list vec)
  : result (list vec) :=
  foldM (fun xt i =>
           xsi <- getitem xs i ;;
           foldM (fun acc xi =>
                    d <- npdot xi xsi ;;
                    xi' <- inplace sub xi (vmul_r xsi d) ;;
                    Ok (acc ++ [xi']))
                 xt [])
        (seq 0 space) xt.

(** One turn of [for icyc in range(max_cycle)] (lines 295-408). *)
Definition cycle (tol toloose : F) (max_space nroots : nat)
           (lessio incore : bool)
           (notify : nat -> list complex -> matrix -> list nat -> vec -> vec ->
                     state -> result unit)
           (icyc : nat) (st : state) : result (control state) :=
  st <- begin_cycle nroots st ;;
  axt <- aop (xt st) ;;
  '(xs', ax') <- append_trials st axt ;;
  let rnow := length (xt st) in
  let head := space st in
  let space' := space st + rnow in
  heff' <- extend (xt st) axt xs' ax' head rnow (heff st) ;;
  '(w, vc) <- eigs (leading space' heff') ;;
  idx <- pick w vc nroots ;;
  wsel <- mapM (getitem w) idx ;;
  let wr := map re wsel in
  de <- deltas nroots idx (e st) wr ;;
  let e' := wr in
  v <- select_columns vc idx ;;
  '(x0', ax0) <- ritz lessio incore xs' ax' v space' (length e') ;;
  let with_xt fs l := {| fresh_start := fs; xs := xs'; ax := ax';
                         space := space'; xt := l; x0 := x0'; e := Some e';
                         heff := heff' |} in
  conv <- de_converged tol de ;;
  if conv then Ok (Break ConvergedDe (with_xt (fresh_start st) (xt st)))
  else
    '(res, dx_norm) <- residuals e' x0' ax0 ;;
    m <- pymax dx_norm ;;
    if ltb m toloose then Ok (Break ConvergedRes (with_xt (fresh_start st) res))
    else
      xt1 <- precondition precond toloose e' x0' res dx_norm ;;
      xt2 <- project_out xs' space' xt1 ;;
      let xt3 := prune toloose xt2 in
      if length xt3 =? 0 then Ok (Break LinearDep (with_xt (fresh_start st) xt3))
      else
        let st2 := with_xt (fresh_start st || (max_space <? space' + length xt3))
                           xt3 in
        _ <- notify icyc w v idx de dx_norm st2 ;;
        Ok (Continue st2).

(** Lines 263-294: what precedes the loop, then the loop. *)
Definition run (x0 : guess F) (tol : F) (max_cycle : Z)
           (max_space : nat) (lindep : F) (max_memory : Z)
           (callback : option (locals -> result unit))
           (nroots : nat) (lessio left : bool) : result (outcome state) :=
  if left then Raise AssertionError
  else
  let toloose := mul (sqrt tol) c1em2 in
  let x0 := as_list x0 in
  first <- getitem x0 0 ;;
  let max_cycle := Z.to_nat (Z.min max_cycle (Z.of_nat (length first))) in
  let max_space := max_space + nroots * 2 in
  incore <- fits_in_core max_memory (length first) (max_space * 2 + nroots * 2) ;;
  let notify icyc w v idx de dx_norm st :=
    match callback with
    | None => Ok tt
    | Some f =>
        f {| l_tol := tol; l_max_cycle := max_cycle;
             l_max_space := max_space; l_lindep := lindep;
             l_max_memory := max_memory; l_nroots := nroots;
             l_lessio := lessio; l_incore := incore; l_toloose := toloose;
             l_icyc := icyc; l_w := w; l_v := v; l_idx := idx; l_de := de;
             l_dx_norm := dx_norm; l_state := st |}
    end in
  Ok (for_range (cycle tol toloose max_space nroots lessio incore notify)
                max_cycle 0
                {| fresh_start := true; xs := []; ax := []; space := 0;
                   xt := []; x0 := x0; e := None;
                   heff := empty_matrix max_space |}).

(** Lines 410-413. *)
Definition finish (nroots : nat) (st : state) : result (retval F) :=
  return_value nroots (e st) (x0 st).

Definition eig (x0 : guess F) (tol : F) (max_cycle : Z)
           (max_space : nat) (lindep : F) (max_memory : Z)
           (callback : option (locals -> result unit))
           (nroots : nat) (lessio left : bool) : result (retval F) :=
  o <- run x0 tol max_cycle max_space lindep max_memory callback
           nroots lessio left ;;
  '(_, st) <- final o ;;
  finish nroots st.

End Solver.
End Eig.

(** ** Stored images and recomputed images *)

Section Images.
Context {F : Type} `{Scalar F}.
Local Abbreviation vec := (list F).

(** [numpy.dot(x, a.T)]: the operator of a dense matrix [a], given by its
    rows. *)
Definition dense (a : list vec) (x : vec) : vec :=
  map (fun row => dotsum row x) a.

(** The operator whose images [dgeev] keeps in [ax] (lines 118-120). *)
Definition image (A B : vec -> vec) (type : Z) : vec -> vec :=
  if (1 <? type)%Z then fun x => A (B x) else A.

(** The collaborators apply exactly linear operators [A] and [B] on the
    vectors of dimension [n], and the preconditioner keeps the dimension. *)
Definition exact_operators (n : nat) (A B : vec -> vec)
           (abop : list vec -> result (list vec * list vec))
           (aop : list vec -> result (list vec))
           (precond : vec -> F -> vec -> result vec) : Prop :=
  linear_on n A /\ linear_on n B /\
  (forall l, Forall (fun x => length x = n) l -> abop l = Ok (map A l, map B l)) /\
  (forall l, Forall (fun x => length x = n) l -> aop l = Ok (map A l)) /\
  (forall r e x p, length r = n -> length x = n -> precond r e x = Ok p ->
                   length p = n).

(** The stores of [dgeev] hold the images of the basis. *)
Definition dgeev_stores (n : nat) (A B : vec -> vec) (type : Z)
           (st : Dgeev.state) : Prop :=
  Forall (fun x => length x = n) (Dgeev.xs st) /\
  Dgeev.ax st = map (image A B type) (Dgeev.xs st) /\
  Dgeev.bx st = map B (Dgeev.xs st) /\
  Forall (fun x => length x = n) (Dgeev.xt st) /\
  Forall (fun x => length x = n) (Dgeev.x0 st).

(** The stores of [eig] hold the images of the basis. *)
Definition eig_stores (n : nat) (A : vec -> vec) (st : Eig.state) : Prop :=
  Forall (fun x => length x = n) (Eig.xs st) /\
  Eig.ax st = map A (Eig.xs st) /\
  Forall (fun x => length x = n) (Eig.xt st) /\
  Forall (fun x => length x = n) (Eig.x0 st).

End Images.

(** ** Instances of the scalars *)

(** IEEE binary64, the arithmetic of numpy's [float64]. *)
Module Flt.
Import Floats.
#[local] Set Warnings "-inexact-float".

#[export] Instance scalar : Scalar float :=
  Build_Scalar
    0%float 1%float
    PrimFloat.add PrimFloat.sub PrimFloat.mul PrimFloat.div
    PrimFloat.sqrt PrimFloat.abs
    PrimFloat.ltb PrimFloat.leb PrimFloat.eqb
    1e-7%float 1e-2%float.

(** The defaults of the keyword arguments. *)
Definition tol_default : float := 1e-14%float.
Definition lindep_default : float := 1e-14%float.

(** [numpy.dot(numpy.asarray(x), a.T)] for a dense matrix [a]: the operator
    of the module's own test. *)
Definition matvec (a : list (list float)) (x : list float) : list float :=
  map (fun row => dotsum row x) a.

Definition dense_abop (a b : list (list float)) (l : list (list float))
  : result (list (list float) * list (list float)) :=
  Ok (map (matvec a) l, map (matvec b) l).

Definition dense_abop1 (a b : list (list float)) (x : list float)
  : result (list float * list float) :=
  Ok (matvec a x, matvec b x).

Definition dense_aop (a : list (list float)) (l : list (list float))
  : result (list (list float)) :=
  Ok (map (matvec a) l).

(** The exchange matrix, applied by reversing the array, and the identity:
    operators that no rounding touches. *)
Definition exchange_abop (l : list (list float))
  : result (list (list float) * list (list float)) :=
  Ok (map (@rev float) l, map (fun x => x) l).

Definition exchange_abop1 (x : list float) : result (list float * list float) :=
  Ok (rev x, x).

Definition exchange_aop (l : list (list float)) : result (list (list float)) :=
  Ok (map (@rev float) l).

(** The matrices of the examples. *)
Definition eye2 : list (list float) := [[1; 0]; [0; 1]]%float.
Definition swap2 : list (list float) := [[0; 1]; [1; 0]]%float.
Definition diag12 : list (list float) := [[1; 0]; [0; 2]]%float.
Definition sym13 : list (list float) := [[1; 1]; [1; 3]]%float.
Definition tall32 : list (list float) := [[1; 0]; [0; 1]; [1; 1]]%float.

(** [r / (a.diagonal() - e0)], the preconditioner of the module's own test. *)
Definition diag_precond (d : list float) (r : list float) (e0 : float)
           (x : list float) : result (list float) :=
  broadcast PrimFloat.div r (map (fun a => PrimFloat.sub a e0) d).

Fixpoint diagonal (m : list (list float)) (i : nat) : list float :=
  match m with
  | [] => []
  | row :: m' => nth i row 0%float :: diagonal m' (S i)
  end.

Fixpoint scaled_identity (d : list float) (i n : nat) : list (list float) :=
  match d with
  | [] => []
  | a :: d' => (repeat 0%float i ++ a :: repeat 0%float (n - S i))
               :: scaled_identity d' (S i) n
  end.

(** The dense solvers on the problems that the examples below meet:
    [h] and [s] diagonal with the quotients [h_ii/s_ii] in ascending
    order, where the eigenvalues are these quotients and the eigenvectors
    the unit vectors scaled by [1/sqrt(s_ii)]. *)
Definition eigh_diagonal (h s : list (list float))
  : result (list float * list (list float)) :=
  let dh := diagonal h 0 in
  let ds := diagonal s 0 in
  Ok (zipw PrimFloat.div dh ds,
      scaled_identity (map (fun b => PrimFloat.div 1%float (PrimFloat.sqrt b)) ds)
                      0 (length ds)).

Definition eigs_diagonal (h : list (list float))
  : result (list (float * float) * list (list (float * float))) :=
  let dh := diagonal h 0 in
  Ok (map (fun a => (a, 0%float)) dh,
      map (map (fun a => (a, 0%float)))
          (scaled_identity (map (fun _ => 1%float) dh) 0 (length dh))).

End Flt.

(** Exact rationals: a computable instance with a total order.  The
    square root is the floor of the root on the denominator's grid (exact
    on the squares of such fractions). *)
Module Rat.
Import QArith Qabs.

Definition Qsqrt (q : Q) : Q :=
  Qred (Qmake (Z.sqrt (Qnum q * Zpos (Qden q))) (Qden q)).

#[export] Instance scalar : Scalar Q :=
  Build_Scalar
    (Qmake 0 1) (Qmake 1 1)
    (fun a b => Qred (Qplus a b)) (fun a b => Qred (Qminus a b))
    (fun a b => Qred (Qmult a b)) (fun a b => Qred (Qdiv a b))
    Qsqrt (fun a => Qred (Qabs a))
    (fun a b => negb (Qle_bool b a)) Qle_bool Qeq_bool
    (Qmake 1 10000000) (Qmake 1 100).

Definition tol_default : Q := Qmake 1 100000000000000.

Definition matvec (a : list (list Q)) (x : list Q) : list Q :=
  map (fun row => dotsum row x) a.

Definition dense_abop (a b : list (list Q)) (l : list (list Q))
  : result (list (list Q) * list (list Q)) :=
  Ok (map (matvec a) l, map (matvec b) l).

Definition dense_abop1 (a b : list (list Q)) (x : list Q)
  : result (list Q * list Q) :=
  Ok (matvec a x, matvec b x).

Definition dense_aop (a : list (list Q)) (l : list (list Q))
  : result (list (list Q)) :=
  Ok (map (matvec a) l).

Definition identity_precond (r : list Q) (e0 : Q) (x : list Q)
  : result (list Q) := Ok r.

(** The dense solvers for 1x1 problems. *)
Definition eigh_one (h s : list (list Q)) : result (list Q * list (list Q)) :=
  match h, s with
  | [[a]], [[b]] => Ok ([div a b], [[div one (sqrt b)]])
  | _, _ => Raise LinAlgError
  end.

Definition eigs_one (h : list (list Q))
  : result (list (Q * Q) * list (list (Q * Q))) :=
  match h with
  | [[a]] => Ok ([(a, zero)], [[(one, zero)]])
  | _ => Raise LinAlgError
  end.

End Rat.

(** The real numbers: exact arithmetic with an exact square root. *)
Module Real.
Import Reals.

#[export] Instance scalar : Scalar R :=
  Build_Scalar
    0%R 1%R Rplus Rminus Rmult Rdiv R_sqrt.sqrt Rabs
    (fun a b => if Rlt_dec a b then true else false)
    (fun a b => if Rle_dec a b then true else false)
    (fun a b => if Req_dec_T a b then true else false)
    (Rinv 10000000) (Rinv 100).

End Real.

(** ** Predicates on the states of the solvers *)

Section StatePredicates.
Context {F : Type} `{Scalar F}.
Local Abbreviation vec := (list F).
Local Abbreviation matrix := (list (list F)).

(** Each store of [dgeev] holds [space] vectors. *)
Definition dgeev_in_step (st : @Dgeev.state F) : Prop :=
  length (Dgeev.xs st) = Dgeev.space st /\
  length (Dgeev.ax st) = Dgeev.space st /\
  length (Dgeev.bx st) = Dgeev.space st.

(** Each store of [eig] holds [space] vectors. *)
Definition eig_in_step (st : @Eig.state F) : Prop :=
  length (Eig.xs st) = Eig.space st /\ length (Eig.ax st) = Eig.space st.

End StatePredicates.

(** ** Contracts of the collaborators *)

Section Contracts.
Context {F : Type} `{Scalar F}.
Local Abbreviation vec := (list F).
Local Abbreviation matrix := (list (list F)).
Local Abbreviation complex := (F * F)%type.

(** The exceptions that come from outside the module: what a
    caller-supplied function raises, and what the dense eigensolver
    raises. *)
Definition external (ex : exn) : Prop :=
  match ex with
  | Raised _ | LinAlgError => True
  | _ => False
  end.

(** [m] returns a value with [P], or raises an exception from outside. *)
Definition safe {A} (P : A -> Prop) (m : result A) : Prop :=
  match m with
  | Ok a => P a
  | Raise ex => external ex
  end.

(** A 2-D array of shape [(k,k)]. *)
Definition square {A} (k : nat) (m : list (list A)) : Prop :=
  length m = k /\ Forall (fun row => length row = k) m.

(** What [dgeev] expects of the functions it is given, on vectors of
    dimension [n]: each returns arrays of the expected shapes, or raises
    an exception of its own. *)
Definition dgeev_contract (n : nat)
           (abop : list vec -> result (list vec * list vec))
           (precond : vec -> F -> vec -> result vec)
           (dot : vec -> vec -> result F)
           (eigh : matrix -> matrix -> result (vec * matrix)) : Prop :=
  (forall l, Forall (fun x => length x = n) l ->
             safe (fun '(al, bl) =>
                     length al = length l /\ length bl = length l /\
                     Forall (fun x => length x = n) al /\
                     Forall (fun x => length x = n) bl)
                  (abop l)) /\
  (forall r e x, length r = n -> length x = n ->
                 safe (fun p => length p = n) (precond r e x)) /\
  (forall u a, length u = n -> length a = n -> safe (fun _ => True) (dot u a)) /\
  (forall k h s, 0 < k -> square k h -> square k s ->
                 safe (fun '(w, v) => length w = k /\ square k v) (eigh h s)).

(** The same for [eig]; from what the dense eigensolver returned, the
    selector returns between 1 and [nroots] positions of [w]. *)
Definition eig_contract (n nroots : nat)
           (aop : list vec -> result (list vec))
           (precond : vec -> F -> vec -> result vec)
           (dot : vec -> vec -> result F)
           (pick : list complex -> list (list complex) -> nat ->
                   result (list nat))
           (eigs : matrix -> result (list complex * list (list complex)))
  : Prop :=
  (forall l, Forall (fun x => length x = n) l ->
             safe (fun al => length al = length l /\
                             Forall (fun x => length x = n) al)
                  (aop l)) /\
  (forall r e x, length r = n -> length x = n ->
                 safe (fun p => length p = n) (precond r e x)) /\
  (forall u a, length u = n -> length a = n -> safe (fun _ => True) (dot u a)) /\
  (forall k h, 0 < k -> square k h ->
               safe (fun '(w, v) =>
                       length w = k /\ square k v /\
                       safe (fun idx => 1 <= length idx <= nroots /\
                                        Forall (fun i => i < k) idx)
                            (pick w v nroots))
                    (eigs h)).

(** A callback that raises nothing but its own exceptions. *)
Definition quiet {L} (callback : option (L -> result unit)) : Prop :=
  match callback with
  | None => True
  | Some f => forall l, safe (fun _ => True) (f l)
  end.

(** The locals of [dgeev] at the head of the loop, for vectors of
    dimension [n] and arrays [heff], [seff] of side [M]. *)
Definition dgeev_ready (n M : nat) (st : @Dgeev.state F) : Prop :=
  Forall (fun x => length x = n) (Dgeev.xs st) /\
  Forall (fun x => length x = n) (Dgeev.ax st) /\
  Forall (fun x => length x = n) (Dgeev.bx st) /\
  dgeev_in_step st /\
  square M (Dgeev.heff st) /\ square M (Dgeev.seff st) /\
  if Dgeev.fresh_start st
  then Dgeev.x0 st <> [] /\ Forall (fun x => length x = n) (Dgeev.x0 st) /\
       length (Dgeev.x0 st) <= M
  else Dgeev.xt st <> [] /\ Forall (fun x => length x = n) (Dgeev.xt st) /\
       Dgeev.space st + length (Dgeev.xt st) <= M /\
       exists ev, Dgeev.e st = Some ev.

(** The locals of [dgeev] after lines 99-116. *)
Definition dgeev_started (n M : nat) (st : @Dgeev.state F) : Prop :=
  Forall (fun x => length x = n) (Dgeev.xs st) /\
  Forall (fun x => length x = n) (Dgeev.ax st) /\
  Forall (fun x => length x = n) (Dgeev.bx st) /\
  dgeev_in_step st /\
  square M (Dgeev.heff st) /\ square M (Dgeev.seff st) /\
  Dgeev.xt st <> [] /\ Forall (fun x => length x = n) (Dgeev.xt st) /\
  Dgeev.space st + length (Dgeev.xt st) <= M /\
  (exists ev, Dgeev.e st = Some ev) /\
  Dgeev.fresh_start st = false.

(** The locals of [dgeev] that the [return] reads, after a cycle. *)
Definition dgeev_result (n : nat) (st : @Dgeev.state F) : Prop :=
  exists ev, Dgeev.e st = Some ev /\ ev <> [] /\
             length (Dgeev.x0 st) = length ev /\
             Forall (fun x => length x = n) (Dgeev.x0 st).

Definition eig_ready (n M : nat) (st : @Eig.state F) : Prop :=
  Forall (fun x => length x = n) (Eig.xs st) /\
  Forall (fun x => length x = n) (Eig.ax st) /\
  eig_in_step st /\
  square M (Eig.heff st) /\
  if Eig.fresh_start st
  then Eig.x0 st <> [] /\ Forall (fun x => length x = n) (Eig.x0 st) /\
       length (Eig.x0 st) <= M
  else Eig.xt st <> [] /\ Forall (fun x => length x = n) (Eig.xt st) /\
       Eig.space st + length (Eig.xt st) <= M /\
       exists ev, Eig.e st = Some ev.

(** The locals of [eig] after lines 295-310. *)
Definition eig_started (n M : nat) (st : @Eig.state F) : Prop :=
  Forall (fun x => length x = n) (Eig.xs st) /\
  Forall (fun x => length x = n) (Eig.ax st) /\
  eig_in_step st /\
  square M (Eig.heff st) /\
  Eig.xt st <> [] /\ Forall (fun x => length x = n) (Eig.xt st) /\
  Eig.space st + length (Eig.xt st) <= M /\
  (exists ev, Eig.e st = Some ev) /\
  Eig.fresh_start st = false.

Definition eig_result (n : nat) (st : @Eig.state F) : Prop :=
  exists ev, Eig.e st = Some ev /\ ev <> [] /\
             length (Eig.x0 st) = length ev /\
             Forall (fun x => length x = n) (Eig.x0 st).

(** The block [m[:k,:k]] is readable and equal to its transpose. *)
Definition mirrored (k : nat) (m : matrix) : Prop :=
  forall i j, i < k -> j < k ->
              exists a, mget m i j = Ok a /\ mget m j i = Ok a.

(** A square matrix equal to its transpose. *)
Definition symmetric (m : matrix) : Prop :=
  Forall (fun row => length row = length m) m /\
  forall i j, i < length m -> j < length m -> mget m i j = mget m j i.

(** The value returned has the shape that [nroots] asks for, with
    vectors of dimension [n]. *)
Definition well_shaped (n nroots : nat) (r : retval F) : Prop :=
  match r with
  | RetOne _ x => nroots = 1 /\ length x = n
  | RetMany es xs => nroots <> 1 /\ es <> [] /\ length es = length xs /\
                     Forall (fun x => length x = n) xs
  end.

End Contracts.

(** ** The residuals of the pairs returned *)

Section ResidualNorms.
Context {F : Type} `{Scalar F}.
Local Abbreviation vec := (list F).

(** The comparisons of the items of [l] with one another and with the
    threshold [t] agree with a total order: what is below an item below
    [t] is below [t], and what is not above an item below [t] is below
    [t].  Items that are numbers satisfy it; a NaN among them need not. *)
Definition ordered_below (t : F) (l : vec) : Prop :=
  forall a b, In a l -> In b l ->
    (ltb a b = true -> ltb b t = true -> ltb a t = true) /\
    (ltb a b = false -> ltb a t = true -> ltb b t = true).

(** [norm(A' x - e*y)] for each eigenvalue [e] and vector [x] of [ev] and
    [xs], with [A'] the operator whose images [dgeev] stores and [y] the
    image of [x] under [B] for [type == 1] and [x] otherwise. *)
Definition dgeev_residual_norms (A B : vec -> vec) (type : Z)
           (ev : vec) (xs : list vec) : vec :=
  map (fun p => norm (zipw sub (image A B type (snd p))
                           (vmul_l (fst p)
                                   (if (type =? 1)%Z then B (snd p)
                                    else snd p))))
      (combine ev xs).

(** [norm(A x - e*x)] for each eigenvalue [e] and vector [x]. *)
Definition eig_residual_norms (A : vec -> vec) (ev : vec) (xs : list vec)
  : vec :=
  map (fun p => norm (zipw sub (A (snd p)) (vmul_l (fst p) (snd p))))
      (combine ev xs).

End ResidualNorms.

(** ** Observations on a run *)

(** The loop entered one cycle, which raised [ex] before it completed. *)
Definition raised_in_first_cycle {St} (o : outcome St) (ex : exn) : Prop :=
  cycles o = 1 /\ visited o = [] /\ final o = Raise ex.

(** The cycle left the loop by the test on the eigenvalue deltas (the
    [break] of line 195 or 364). *)
Definition converged_by_deltas {St} (c : control St) : bool :=
  match c with
  | Break ConvergedDe _ => true
  | _ => false
  end.

(** ** A dense solver for small problems *)

Module FltSmall.
Import Floats.

(** [scipy.linalg.eigh(h, s)] for symmetric matrices of order 1 and 2 with
    [s] positive definite, in closed form.  The Cholesky factor [l] of [s]
    reduces the problem to the standard one of [c = l^-1 h l^-T], whose
    eigenvalues are [m - r] and [m + r] with [m] the mean of the diagonal
    and [r = sqrt(d^2 + b^2)]; the eigenvectors are carried back by
    [l^-T].  The eigenvalues come in ascending order and the columns of
    the second result are the eigenvectors, as scipy returns them; the
    last digits and the signs of the eigenvectors are those of these
    formulas, not those of LAPACK. *)
Definition eigh (h s : list (list float))
  : result (list float * list (list float)) :=
  match h, s with
  | [[a]], [[p]] => Ok ([a / p], [[1 / sqrt p]])
  | [[a; b]; [_; c]], [[p; q]; [_; r]] =>
      let l11 := sqrt p in
      let l21 := q / l11 in
      let l22 := sqrt (r - l21 * l21) in
      let y11 := a / l11 in
      let y12 := b / l11 in
      let y21 := (b - l21 * y11) / l22 in
      let y22 := (c - l21 * y12) / l22 in
      let c11 := y11 / l11 in
      let c21 := y21 / l11 in
      let c22 := (y22 - l21 * c21) / l22 in
      let m := (c11 + c22) / 2 in
      let d := (c11 - c22) / 2 in
      let rad := sqrt (d * d + c21 * c21) in
      let w1 := m - rad in
      let w2 := m + rad in
      let back u0 u1 := ((u0 - l21 * (u1 / l22)) / l11, u1 / l22) in
      let unit u0 u1 :=
        let nrm := sqrt (u0 * u0 + u1 * u1) in (u0 / nrm, u1 / nrm) in
      let '(e1, e2) :=
        if PrimFloat.eqb c21 0 then
          if PrimFloat.leb c11 c22 then ((1, 0), (0, 1)) else ((0, 1), (1, 0))
        else (unit c21 (w1 - c11), unit c21 (w2 - c11)) in
      let '(v10, v11) := back (fst e1) (snd e1) in
      let '(v20, v21) := back (fst e2) (snd e2) in
      Ok ([w1; w2], [[v10; v20]; [v11; v21]])
  | _, _ => Raise LinAlgError
  end%float.

End FltSmall.


(** * Properties of the embedding *)

(** ** The error monad and the loops *)

Lemma bind_ok {A B} (m : result A) (k : A -> result B) (b : B) :
  bind m k = Ok b -> exists a, m = Ok a /\ k a = Ok b.
Proof.
  destruct m as [a|ex]; simpl; intros E; [exists a; auto | discriminate].
Qed.

Lemma Ok_inj {A} (a b : A) : Ok a = Ok b -> a = b.
Proof. intros E; injection E; auto. Qed.

Lemma foldM_app {A St} (f : St -> A -> result St) (l1 l2 : list A) (s : St) :
  foldM f (l1 ++ l2) s = (s' <- foldM f l1 s ;; foldM f l2 s').
Proof.
  revert s; induction l1 as [|a l1 IH]; intros s; simpl; [reflexivity|].
  destruct (f s a); simpl; auto.
Qed.

Lemma foldM_invariant {A St} (P : St -> Prop) (f : St -> A -> result St) :
  (forall s a s', P s -> f s a = Ok s' -> P s') ->
  forall l s s', P s -> foldM f l s = Ok s' -> P s'.
Proof.
  intros Hf l; induction l as [|a l IH]; simpl; intros s s' Hs E.
  - inversion E; subst; assumption.
  - apply bind_ok in E as (s1 & E1 & E2). eauto.
Qed.

(** As [foldM_invariant], with the items known to come from the list. *)
Lemma foldM_invariant_in {A St} (P : St -> Prop) (f : St -> A -> result St)
      (l : list A) :
  (forall s a s', In a l -> P s -> f s a = Ok s' -> P s') ->
  forall s s', P s -> foldM f l s = Ok s' -> P s'.
Proof.
  induction l as [|a l IH]; simpl; intros Hf s s' Hs E.
  - inversion E; subst; assumption.
  - apply bind_ok in E as (s1 & E1 & E2).
    apply (IH (fun s0 b s0' Hb => Hf s0 b s0' (or_intror Hb)) s1 s'); eauto.
Qed.

Lemma foldM_ext {A St} (f g : St -> A -> result St) (l : list A) :
  (forall s a, f s a = g s a) -> forall s, foldM f l s = foldM g l s.
Proof.
  intros E; induction l as [|a l IH]; intros s; simpl; [reflexivity|].
  rewrite E. destruct (g s a); simpl; auto.
Qed.

Section LoopFacts.
Context {St : Type}.
Variable body : nat -> St -> result (control St).

Lemma cycles_le_range (n i : nat) (s : St) :
  cycles (for_range body n i s) <= n.
Proof.
  revert i s; induction n as [|n IH]; intros i s; simpl; [lia|].
  destruct (body i s) as [[s'|why s']|ex]; simpl; try lia.
  specialize (IH (S i) s'); lia.
Qed.

Lemma visited_invariant (P : St -> Prop) :
  (forall i s c, P s -> body i s = Ok c -> P (landing c)) ->
  forall n i s, P s -> Forall P (visited (for_range body n i s)).
Proof.
  intros Hb n; induction n as [|n IH]; intros i s Hs; simpl; [constructor|].
  destruct (body i s) as [[s'|why s']|ex] eqn:E; simpl.
  - constructor; [apply (Hb i s _ Hs E) | apply IH, (Hb i s _ Hs E)].
  - constructor; [apply (Hb i s _ Hs E) | constructor].
  - constructor.
Qed.

Lemma final_invariant (P : St -> Prop) :
  (forall i s c, P s -> body i s = Ok c -> P (landing c)) ->
  forall n i s why s', P s ->
    final (for_range body n i s) = Ok (why, s') -> P s'.
Proof.
  intros Hb n; induction n as [|n IH]; intros i s why s' Hs; simpl.
  - intros E; inversion E; subst; assumption.
  - destruct (body i s) as [[s1|why1 s1]|ex] eqn:E; simpl; intros E'.
    + eapply IH; [apply (Hb i s _ Hs E) | exact E'].
    + inversion E'; subst. apply (Hb i s _ Hs E).
    + discriminate.
Qed.

(** The state after the loop is the initial one, untouched, or the
    landing state of a cycle. *)
Lemma final_landing (P : St -> Prop) :
  (forall i s c, body i s = Ok c -> P (landing c)) ->
  forall n i s why s',
    final (for_range body n i s) = Ok (why, s') ->
    (why = CyclesDone /\ s' = s /\ cycles (for_range body n i s) = 0) \/ P s'.
Proof.
  intros Hb n; induction n as [|n IH]; intros i s why s'; simpl.
  - intros E; inversion E; subst; auto.
  - destruct (body i s) as [[s1|why1 s1]|ex] eqn:E; simpl; intros E'.
    + right. destruct (IH _ _ _ _ E') as [(_ & -> & _)|HP]; [|exact HP].
      apply (Hb i s _ E).
    + inversion E'; subst. right; apply (Hb i s _ E).
    + discriminate.
Qed.

End LoopFacts.

(** Two loops whose bodies agree whenever both complete, on the states of
    an invariant, end in the same state whenever both complete. *)
Lemma for_range_agree {St} (Inv : St -> Prop)
      (body1 body2 : nat -> St -> result (control St)) :
  (forall i s c1 c2, Inv s -> body1 i s = Ok c1 -> body2 i s = Ok c2 ->
                     c1 = c2 /\ Inv (landing c1)) ->
  forall n i s r1 r2, Inv s ->
    final (for_range body1 n i s) = Ok r1 ->
    final (for_range body2 n i s) = Ok r2 -> r1 = r2.
Proof.
  intros Hb n; induction n as [|n IH]; intros i s r1 r2 Hs; simpl.
  - congruence.
  - destruct (body1 i s) as [c1|ex1] eqn:E1; [|simpl; discriminate].
    destruct (body2 i s) as [c2|ex2] eqn:E2;
      [|destruct c1; simpl; intros; discriminate].
    destruct (Hb i s c1 c2 Hs E1 E2) as [<- Hl].
    destruct c1 as [s1|why s1]; simpl in *; [apply IH; exact Hl | congruence].
Qed.

(** ** The number of cycles *)

Section CycleCount.
Context {F : Type} `{Scalar F}.
Local Abbreviation vec := (list F).
Local Abbreviation matrix := (list (list F)).
Local Abbreviation complex := (F * F)%type.

Variable abop : list vec -> result (list vec * list vec).
Variable aop : list vec -> result (list vec).
Variable precond : vec -> F -> vec -> result vec.
Variable dot : vec -> vec -> result F.
Variable eigh : matrix -> matrix -> result (vec * matrix).
Variable eigs : matrix -> result (list complex * list (list complex)).
Variable pick : list complex -> list (list complex) -> nat -> result (list nat).

(** C10.  With [N] the size of the first guess vector and a non-negative
    [max_cycle], a run of [dgeev] or of [eig] enters the body of its loop
    at most [min(max_cycle, N)] times; the loop is a bounded iteration, so
    the run always ends. *)
Theorem cycles_at_most_min_max_cycle_size
        (x0 : guess F) (first : vec) (type : Z) (tol : F) (max_cycle : Z)
        (max_space : nat) (lindep : F) (max_memory : Z)
        (dcallback : option (Dgeev.locals -> result unit))
        (ecallback : option (Eig.locals -> result unit))
        (nroots : nat) (lessio left : bool) :
  nth_error (as_list x0) 0 = Some first ->
  (0 <= max_cycle)%Z ->
  (forall o,
      Dgeev.run abop precond dot eigh x0 type tol max_cycle max_space lindep
                max_memory dcallback nroots lessio = Ok o ->
      (Z.of_nat (cycles o) <= Z.min max_cycle (Z.of_nat (length first)))%Z) /\
  (forall o,
      Eig.run aop precond dot pick eigs x0 tol max_cycle max_space lindep
              max_memory ecallback nroots lessio left = Ok o ->
      (Z.of_nat (cycles o) <= Z.min max_cycle (Z.of_nat (length first)))%Z).
Proof.
  intros Hfirst Hpos; split; intros o.
  - unfold Dgeev.run, getitem. rewrite Hfirst; simpl.
    destruct (fits_in_core _ _ _) as [incore|ex]; simpl; [|discriminate].
    intros E; inversion E; subst; clear E.
    match goal with
    | |- (Z.of_nat (cycles (for_range ?b ?n ?i ?s)) <= _)%Z =>
        pose proof (cycles_le_range b n i s)
    end.
    lia.
  - unfold Eig.run, getitem. destruct left; [discriminate|].
    rewrite Hfirst; simpl.
    destruct (fits_in_core _ _ _) as [incore|ex]; simpl; [|discriminate].
    intros E; inversion E; subst; clear E.
    match goal with
    | |- (Z.of_nat (cycles (for_range ?b ?n ?i ?s)) <= _)%Z =>
        pose proof (cycles_le_range b n i s)
    end.
    lia.
Qed.

End CycleCount.

(** ** What the callback can change *)

(** The goal is [m1 = Ok c1 -> m2 = Ok c2 -> _] where [m1] and [m2] start
    with the same computation: name its result in both. *)
Ltac peel :=
  match goal with
  | |- bind ?m _ = Ok _ -> _ =>
      destruct m as [?|?] eqn:?; cbn [bind]; [|discriminate]
  | |- match ?p with _ => _ end = Ok _ -> _ =>
      destruct p eqn:?; cbn [bind]
  | |- (if ?b then _ else _) = Ok _ -> _ =>
      destruct b eqn:?; cbn [bind]
  end.

Section Callback.
Context {F : Type} `{Scalar F}.
Local Abbreviation vec := (list F).
Local Abbreviation matrix := (list (list F)).
Local Abbreviation complex := (F * F)%type.

Variable abop : list vec -> result (list vec * list vec).
Variable abop1 : vec -> result (vec * vec).
Variable aop : list vec -> result (list vec).
Variable precond : vec -> F -> vec -> result vec.
Variable dot : vec -> vec -> result F.
Variable eigh : matrix -> matrix -> result (vec * matrix).
Variable eigs : matrix -> result (list complex * list (list complex)).
Variable pick : list complex -> list (list complex) -> nat -> result (list nat).

(** The callback is called last in a cycle and its value is dropped: two
    cycles that differ in the callback alone land in the same state
    whenever both complete. *)
Lemma dgeev_cycle_callback type tol toloose max_space nroots lessio incore
      notify1 notify2 icyc st c1 c2 :
  Dgeev.cycle abop precond dot eigh type tol toloose max_space nroots lessio
              incore notify1 icyc st = Ok c1 ->
  Dgeev.cycle abop precond dot eigh type tol toloose max_space nroots lessio
              incore notify2 icyc st = Ok c2 ->
  c1 = c2.
Proof.
  unfold Dgeev.cycle. cbv zeta.
  repeat peel; try congruence.
  intros E1; peel; congruence.
Qed.

Lemma eig_cycle_callback tol toloose max_space nroots lessio incore
      notify1 notify2 icyc st c1 c2 :
  Eig.cycle aop precond dot pick eigs tol toloose max_space nroots lessio
            incore notify1 icyc st = Ok c1 ->
  Eig.cycle aop precond dot pick eigs tol toloose max_space nroots lessio
            incore notify2 icyc st = Ok c2 ->
  c1 = c2.
Proof.
  unfold Eig.cycle. cbv zeta.
  repeat peel; try congruence.
  intros E1; peel; congruence.
Qed.

(** C9.  [lindep] reaches nothing but the locals shown to the callback:
    two calls of [dgeev], or of [eig], that differ in [lindep] alone
    return the same eigenvalues and eigenvectors whenever both return. *)
Theorem lindep_has_no_effect
        (x0 : guess F) (type : Z) (tol : F) (max_cycle : Z) (max_space : nat)
        (lindep1 lindep2 : F) (max_memory : Z)
        (dcallback : option (Dgeev.locals -> result unit))
        (ecallback : option (Eig.locals -> result unit))
        (nroots : nat) (lessio left : bool) :
  (forall r1 r2,
      Dgeev.dgeev abop abop1 precond dot eigh x0 type tol max_cycle max_space
                  lindep1 max_memory dcallback nroots lessio = Ok r1 ->
      Dgeev.dgeev abop abop1 precond dot eigh x0 type tol max_cycle max_space
                  lindep2 max_memory dcallback nroots lessio = Ok r2 ->
      r1 = r2) /\
  (forall r1 r2,
      Eig.eig aop precond dot pick eigs x0 tol max_cycle max_space
              lindep1 max_memory ecallback nroots lessio left = Ok r1 ->
      Eig.eig aop precond dot pick eigs x0 tol max_cycle max_space
              lindep2 max_memory ecallback nroots lessio left = Ok r2 ->
      r1 = r2).
Proof.
  split; intros r1 r2.
  - unfold Dgeev.dgeev, Dgeev.run.
    destruct (getitem (as_list x0) 0) as [first|ex]; cbn [bind]; [|discriminate].
    destruct (fits_in_core _ _ _) as [incore|ex]; cbn [bind]; [|discriminate].
    cbv zeta.
    match goal with
    | |- bind (final ?o1) _ = _ -> bind (final ?o2) _ = _ -> _ =>
        destruct (final o1) as [p1|ex1] eqn:E1; cbn [bind]; [|discriminate];
        destruct (final o2) as [p2|ex2] eqn:E2; cbn [bind]; [|discriminate]
    end.
    assert (p1 = p2) as <-.
    { eapply (for_range_agree (fun _ => True)); [|exact I|exact E1|exact E2].
      intros i s c1 c2 _ H1 H2; split; [|exact I].
      exact (dgeev_cycle_callback _ _ _ _ _ _ _ _ _ _ _ H1 H2). }
    destruct p1; congruence.
  - unfold Eig.eig, Eig.run. destruct left; [discriminate|].
    destruct (getitem (as_list x0) 0) as [first|ex]; cbn [bind]; [|discriminate].
    destruct (fits_in_core _ _ _) as [incore|ex]; cbn [bind]; [|discriminate].
    cbv zeta.
    match goal with
    | |- bind (final ?o1) _ = _ -> bind (final ?o2) _ = _ -> _ =>
        destruct (final o1) as [p1|ex1] eqn:E1; cbn [bind]; [|discriminate];
        destruct (final o2) as [p2|ex2] eqn:E2; cbn [bind]; [|discriminate]
    end.
    assert (p1 = p2) as <-.
    { eapply (for_range_agree (fun _ => True)); [|exact I|exact E1|exact E2].
      intros i s c1 c2 _ H1 H2; split; [|exact I].
      exact (eig_cycle_callback _ _ _ _ _ _ _ _ _ _ H1 H2). }
    destruct p1; congruence.
Qed.

End Callback.

(** ** The size of the subspace *)

Lemma set_nth_length {A} (l : list A) (i : nat) (a : A) :
  length (set_nth l i a) = length l.
Proof.
  revert i; induction l as [|b l IH]; intros [|i]; simpl; auto.
Qed.

Lemma getitem_ok {A} (l : list A) (i : nat) (a : A) :
  getitem l i = Ok a -> nth_error l i = Some a /\ i < length l.
Proof.
  unfold getitem. destruct (nth_error l i) as [b|] eqn:E; [|discriminate].
  intros E'; inversion E'; subst. split; [reflexivity|].
  apply nth_error_Some; congruence.
Qed.

(** The goal is [m = Ok c -> _]: name the result of the first
    computation of [m]. *)
Ltac peel1 :=
  match goal with
  | |- bind ?m _ = Ok _ -> _ =>
      let E := fresh "E" in
      destruct m as [?|?] eqn:E; cbn [bind]; [|discriminate]
  | |- match ?p with _ => _ end = Ok _ -> _ =>
      first [ is_var p; destruct p
            | let E := fresh "E" in destruct p eqn:E ]; cbn [bind]
  | |- (if ?b then _ else _) = Ok _ -> _ =>
      let E := fresh "E" in destruct b eqn:E; cbn [bind]
  end.

Section SubspaceSize.
Context {F : Type} `{Scalar F}.
Local Abbreviation vec := (list F).
Local Abbreviation matrix := (list (list F)).
Local Abbreviation complex := (F * F)%type.

Variable abop : list vec -> result (list vec * list vec).
Variable aop : list vec -> result (list vec).
Variable precond : vec -> F -> vec -> result vec.
Variable dot : vec -> vec -> result F.
Variable eigh : matrix -> matrix -> result (vec * matrix).
Variable eigs : matrix -> result (list complex * list (list complex)).
Variable pick : list complex -> list (list complex) -> nat -> result (list nat).










End SubspaceSize.

(** ** The selector [pickeig] *)

Section Selector.
Context {F : Type} `{Scalar F}.
Local Abbreviation complex := (F * F)%type.

(** The keys that are compared: [leb] is total and transitive on them. *)
Variable D : F -> Prop.
Hypothesis leb_total : forall a b, D a -> D b -> leb a b = true \/ leb b a = true.
Hypothesis leb_trans :
  forall a b c, D a -> D b -> D c ->
                leb a b = true -> leb b c = true -> leb a c = true.

Local Abbreviation le2 := (fun a b : F * nat => leb (fst a) (fst b) = true).

Lemma insert_key_perm (k : F * nat) (l : list (F * nat)) :
  Permutation (insert_key k l) (k :: l).
Proof.
  induction l as [|h t IH]; simpl; [reflexivity|].
  destruct (leb (fst k) (fst h)); [reflexivity|].
  rewrite IH. apply perm_swap.
Qed.

Lemma sort_keys_perm (l : list (F * nat)) : Permutation (sort_keys l) l.
Proof.
  induction l as [|k l IH]; simpl; [reflexivity|].
  rewrite insert_key_perm. constructor; exact IH.
Qed.

Lemma insert_key_sorted (k : F * nat) (l : list (F * nat)) :
  D (fst k) -> Forall (fun x => D (fst x)) l ->
  StronglySorted le2 l -> StronglySorted le2 (insert_key k l).
Proof.
  intros Dk Dl Sl; induction Sl as [|h t St IH Hh]; simpl.
  - constructor; constructor.
  - inversion Dl as [|? ? Dh Dt]; subst.
    destruct (leb (fst k) (fst h)) eqn:E.
    + constructor; [constructor; assumption|].
      constructor; [exact E|].
      rewrite Forall_forall in Hh, Dt |- *. intros x Hx.
      apply (leb_trans Dk Dh (Dt x Hx) E (Hh x Hx)).
    + constructor; [apply IH; exact Dt|].
      eapply Permutation_Forall; [symmetry; apply insert_key_perm|].
      constructor; [|exact Hh].
      destruct (leb_total Dk Dh) as [E'|E']; [congruence|exact E'].
Qed.

Lemma sort_keys_sorted (l : list (F * nat)) :
  Forall (fun x => D (fst x)) l -> StronglySorted le2 (sort_keys l).
Proof.
  induction l as [|k l IH]; simpl; intros Dl; [constructor|].
  inversion Dl as [|? ? Dk Dt]; subst.
  apply insert_key_sorted; auto.
  eapply Permutation_Forall; [symmetry; apply sort_keys_perm|exact Dt].
Qed.

Lemma StronglySorted_map_fst (l : list (F * nat)) :
  StronglySorted le2 l -> ascending (map fst l).
Proof.
  unfold ascending. induction 1 as [|h t St IH Hh]; simpl; constructor; auto.
  rewrite Forall_forall in *. intros x Hx.
  apply in_map_iff in Hx as (y & <- & Hy). auto.
Qed.

Lemma ascending_app_inv (l1 l2 : list F) :
  ascending (l1 ++ l2) ->
  ascending l1 /\ forall a b, In a l1 -> In b l2 -> leb a b = true.
Proof.
  unfold ascending. induction l1 as [|x l1 IH]; simpl; intros S.
  - split; [constructor|intros a b []].
  - inversion S as [|? ? S' Hx]; subst. destruct (IH S') as [S1 C].
    split.
    + constructor; [exact S1|]. apply Forall_app in Hx. tauto.
    + intros a b [<-|Ha] Hb; [|auto].
      rewrite Forall_forall in Hx. apply Hx, in_or_app; auto.
Qed.

Lemma in_firstn {A} (n : nat) (l : list A) (a : A) :
  In a (firstn n l) -> In a l.
Proof.
  intros Hin. rewrite <- (firstn_skipn n l). apply in_or_app; auto.
Qed.

Lemma where_from_in {A} (p : A -> bool) (l : list A) (s i : nat) :
  In i (where_from p l s) ->
  s <= i /\ exists a, nth_error l (i - s) = Some a /\ p a = true.
Proof.
  revert s i; induction l as [|a l IH]; simpl; intros s i; [intros []|].
  assert (In i (where_from p l (S s)) ->
          s <= i /\ exists b, nth_error (a :: l) (i - s) = Some b /\ p b = true)
    as Hrest.
  { intros Hj. destruct (IH _ _ Hj) as (Hle & b & Hb & Hp).
    split; [lia|]. exists b. split; [|exact Hp].
    replace (i - s) with (S (i - S s)) by lia. exact Hb. }
  destruct (p a) eqn:E; [|apply Hrest].
  intros [<-|Hi]; [|apply Hrest; exact Hi].
  split; [lia|]. exists a. rewrite Nat.sub_diag. auto.
Qed.

Lemma where_from_filter {A} (p : A -> bool) (d : A) (l : list A) (s : nat) :
  map (fun i => nth (i - s) l d) (where_from p l s) = filter p l.
Proof.
  revert s; induction l as [|a l IH]; intros s; [reflexivity|].
  assert (map (fun i => nth (i - s) (a :: l) d) (where_from p l (S s))
          = filter p l) as Hrest.
  { rewrite <- (IH (S s)). apply map_ext_in. intros j Hj.
    apply where_from_in in Hj as (Hle & _).
    replace (j - s) with (S (j - S s)) by lia. reflexivity. }
  cbn [where_from filter].
  destruct (p a); cbn [map]; rewrite Hrest; [|reflexivity].
  rewrite Nat.sub_diag. reflexivity.
Qed.

Lemma in_combine_seq {A} (keys : list A) (s : nat) (k : A) (j : nat) :
  In (k, j) (combine keys (seq s (length keys))) ->
  s <= j /\ nth_error keys (j - s) = Some k.
Proof.
  revert s; induction keys as [|a keys IH]; simpl; intros s; [intros []|].
  intros [E|Hin].
  - inversion E; subst. rewrite Nat.sub_diag. split; [lia|reflexivity].
  - destruct (IH _ Hin) as [Hle Hn]. split; [lia|].
    replace (j - s) with (S (j - S s)) by lia. exact Hn.
Qed.

Lemma map_fst_combine_seq {A} (keys : list A) (s : nat) :
  map fst (combine keys (seq s (length keys))) = keys.
Proof.
  revert s; induction keys as [|a keys IH]; simpl; intros s; [reflexivity|].
  rewrite IH. reflexivity.
Qed.

Lemma pickeig_selection
        (w : list complex) (v : list (list complex)) (nroots : nat) :
  let real := filter (fun z => eqb (im z) zero) w in
  let idx := pickeig w v nroots in
  let sel := map (fun i => re (nth i w czero)) idx in
  Forall D (map re real) ->
  length idx <= nroots /\
  length idx = Nat.min nroots (length real) /\
  Forall (fun i => exists z, nth_error w i = Some z /\ eqb (im z) zero = true)
         idx /\
  ascending sel /\
  exists rest,
    Permutation (sel ++ rest) (map re real) /\
    forall a b, In a sel -> In b rest -> leb a b = true.
Proof.
  intros real idx sel HD.
  set (p := fun z : complex => eqb (im z) zero) in *.
  set (realidx := where_from p w 0).
  set (keys := map (fun i => re (nth i w czero)) realidx).
  set (pairs := combine keys (seq 0 (length keys))).
  set (sorted := sort_keys pairs).
  assert (Hkeys : keys = map re real).
  { unfold keys, real, realidx.
    rewrite <- (where_from_filter p czero w 0), map_map.
    apply map_ext. intros i. rewrite Nat.sub_0_r. reflexivity. }
  assert (Hperm : Permutation sorted pairs) by apply sort_keys_perm.
  assert (Hpair : forall k j, In (k, j) sorted ->
                              j < length realidx /\
                              re (nth (nth j realidx 0) w czero) = k).
  { intros k j Hin. apply (Permutation_in _ Hperm) in Hin.
    apply in_combine_seq in Hin as [_ Hn]. rewrite Nat.sub_0_r in Hn.
    assert (j < length keys) as Hlt by (apply nth_error_Some; congruence).
    unfold keys in Hlt, Hn. rewrite length_map in Hlt. split; [exact Hlt|].
    rewrite nth_error_map in Hn.
    rewrite (nth_error_nth' realidx 0 Hlt) in Hn. simpl in Hn. congruence. }
  assert (Hidx : idx = map (fun j => nth j realidx 0)
                           (firstn nroots (map snd sorted))) by reflexivity.
  assert (Hsel : sel = firstn nroots (map fst sorted)).
  { unfold sel. rewrite Hidx, map_map, !firstn_map, map_map.
    apply map_ext_in. intros [k j] Hin. apply in_firstn in Hin. simpl.
    apply (Hpair k j Hin). }
  assert (Hsorted : ascending (map fst sorted)).
  { apply StronglySorted_map_fst. apply sort_keys_sorted.
    unfold pairs. rewrite Forall_forall. intros [k j] Hin. simpl.
    apply in_combine_l in Hin. rewrite Hkeys in Hin.
    rewrite Forall_forall in HD. auto. }
  assert (Hlen : length sorted = length real).
  { rewrite (Permutation_length Hperm). unfold pairs.
    rewrite length_combine, length_seq, Nat.min_id, Hkeys, length_map.
    reflexivity. }
  rewrite <- (firstn_skipn nroots (map fst sorted)) in Hsorted.
  rewrite <- Hsel in Hsorted.
  destruct (ascending_app_inv _ _ Hsorted) as [Hasc Hcross].
  repeat split.
  - rewrite Hidx, length_map. apply firstn_le_length.
  - rewrite Hidx, length_map, length_firstn, length_map, Hlen. reflexivity.
  - rewrite Hidx. rewrite Forall_forall. intros i Hi.
    apply in_map_iff in Hi as (j & <- & Hj).
    apply in_firstn in Hj. apply in_map_iff in Hj as ([k j'] & Ej & Hin).
    simpl in Ej; subst j'. destruct (Hpair k j Hin) as [Hlt _].
    pose proof (nth_In realidx 0 Hlt) as Hmem.
    apply where_from_in in Hmem as (_ & a & Ha & Hp).
    rewrite Nat.sub_0_r in Ha. exists a; auto.
  - exact Hasc.
  - exists (skipn nroots (map fst sorted)). split; [|exact Hcross].
    rewrite Hsel, firstn_skipn, <- Hkeys.
    rewrite <- (map_fst_combine_seq keys 0). fold pairs.
    apply Permutation_map. exact Hperm.
Qed.

(** C8.  For eigenvalues [w] whose real parts, where the imaginary part is
    zero, are totally ordered by [<=], [pickeig] returns at most [nroots]
    positions of [w], each of an eigenvalue whose imaginary part equals
    zero; the real parts selected are in ascending order and are the
    lowest: together with some [rest], none of which lies below a selected
    one, they make up the real parts of all such eigenvalues. *)
Theorem pickeig_lowest_real_eigenvalues
        (w : list complex) (v : list (list complex)) (nroots : nat) :
  let real := filter (fun z => eqb (im z) zero) w in
  let idx := pickeig w v nroots in
  let sel := map (fun i => re (nth i w czero)) idx in
  Forall D (map re real) ->
  length idx <= nroots /\
  length idx = Nat.min nroots (length real) /\
  Forall (fun i => exists z, nth_error w i = Some z /\ eqb (im z) zero = true)
         idx /\
  ascending sel /\
  exists rest,
    Permutation (sel ++ rest) (map re real) /\
    forall a b, In a sel -> In b rest -> leb a b = true.
Proof.
  exact (pickeig_selection w v nroots).
Qed.

End Selector.

(** ** The shape of the value returned *)

Lemma foldM_measure {A St} (m : St -> nat) (f : St -> A -> result St) :
  (forall s a s', f s a = Ok s' -> m s' = S (m s)) ->
  forall l s s', foldM f l s = Ok s' -> m s' = m s + length l.
Proof.
  intros Hf l; induction l as [|a l IH]; simpl; intros s s' E.
  - inversion E; subst; lia.
  - apply bind_ok in E as (s1 & E1 & E2).
    rewrite (IH _ _ E2), (Hf _ _ _ E1). lia.
Qed.

Lemma mapM_ok {A B} (f : A -> result B) (l : list A) (r : list B) :
  mapM f l = Ok r -> Forall2 (fun a b => f a = Ok b) l r.
Proof.
  unfold mapM.
  assert (forall acc r0,
             foldM (fun acc a => b <- f a ;; Ok (acc ++ [b])) l acc = Ok r0 ->
             exists bs, r0 = acc ++ bs /\ Forall2 (fun a b => f a = Ok b) l bs)
    as G.
  { induction l as [|a l IH]; simpl; intros acc r0 E.
    - inversion E; subst. exists []. rewrite app_nil_r. split; [auto|constructor].
    - apply bind_ok in E as (acc1 & E1 & E2).
      apply bind_ok in E1 as (b & Eb & E3). inversion E3; subst.
      destruct (IH _ _ E2) as (bs & -> & Hbs).
      exists (b :: bs). rewrite <- app_assoc. split; [reflexivity|].
      constructor; assumption. }
  intros E. destruct (G _ _ E) as (bs & -> & Hbs). exact Hbs.
Qed.

Lemma mapM_getitem {A} (d : A) (w : list A) (idx : list nat) (r : list A) :
  mapM (getitem w) idx = Ok r -> r = map (fun i => nth i w d) idx.
Proof.
  intros E. apply mapM_ok in E. induction E as [|i a idx r Ha _ IH]; simpl.
  - reflexivity.
  - apply getitem_ok in Ha as [Ha _]. rewrite (nth_error_nth _ _ d Ha), IH.
    reflexivity.
Qed.

Section ReturnShape.
Context {F : Type} `{Scalar F}.
Local Abbreviation vec := (list F).
Local Abbreviation matrix := (list (list F)).
Local Abbreviation complex := (F * F)%type.

Variable abop : list vec -> result (list vec * list vec).
Variable abop1 : vec -> result (vec * vec).
Variable aop : list vec -> result (list vec).
Variable precond : vec -> F -> vec -> result vec.
Variable dot : vec -> vec -> result F.
Variable eigh : matrix -> matrix -> result (vec * matrix).
Variable eigs : matrix -> result (list complex * list (list complex)).

Lemma dgeev_ritz_vectors_length (xs : list vec) (v : matrix) space ne x0 :
  Dgeev.ritz_vectors xs v space ne = Ok x0 -> length x0 = ne.
Proof.
  unfold Dgeev.ritz_vectors. peel1. intros E2.
  assert (length a = ne) as La.
  { apply (foldM_measure (@length vec)) in E; [rewrite length_seq in E; exact E|].
    intros s k s'. repeat peel1. intros E'; inversion E'; subst.
    rewrite length_app; simpl; lia. }
  revert E2. apply (foldM_invariant (fun x : list vec => length x = ne)); [|exact La].
  intros s i s' Hs. peel1.
  apply (foldM_invariant (fun x : list vec => length x = ne)); [|exact Hs].
  intros s0 k s0' Hs0. repeat peel1. intros E'; inversion E'; subst.
  rewrite set_nth_length; exact Hs0.
Qed.

Lemma dgeev_ritz_assembled_length (xs ax bx : list vec) (v : matrix)
      space ne x0 ax0 bx0 :
  Dgeev.ritz_assembled xs ax bx v space ne = Ok (x0, ax0, bx0) ->
  length x0 = ne.
Proof.
  unfold Dgeev.ritz_assembled. peel1. intros E2.
  set (m := fun r : list vec * list vec * list vec => length (fst (fst r))).
  assert (m a = ne) as La.
  { apply (foldM_measure m) in E; [rewrite length_seq in E; exact E|].
    intros [[s1 s2] s3] k s'. repeat peel1. intros E'; inversion E'; subst.
    unfold m; simpl. rewrite length_app; simpl; lia. }
  change (m (x0, ax0, bx0) = ne).
  revert E2. apply (foldM_invariant (fun r => m r = ne)); [|exact La].
  intros s i s' Hs. repeat peel1.
  apply (foldM_invariant (fun r => m r = ne)); [|exact Hs].
  intros [[s1 s2] s3] k s0' Hs0. repeat peel1. intros E'; inversion E'; subst.
  unfold m in *; simpl in *. rewrite set_nth_length; exact Hs0.
Qed.

Lemma dgeev_ritz_length type lessio incore (xs ax bx : list vec) (v : matrix)
      space ne x0 ax0 bx0 :
  Dgeev.ritz abop type lessio incore xs ax bx v space ne = Ok (x0, ax0, bx0) ->
  length x0 = ne.
Proof.
  unfold Dgeev.ritz. destruct (lessio && negb incore).
  - repeat peel1; intros E'; inversion E'; subst;
      eapply dgeev_ritz_vectors_length; eassumption.
  - apply dgeev_ritz_assembled_length.
Qed.

Lemma eig_ritz_length lessio incore (xs ax : list vec) (v : matrix)
      space ne x0 ax0 :
  Eig.ritz aop lessio incore xs ax v space ne = Ok (x0, ax0) -> length x0 = ne.
Proof.
  unfold Eig.ritz. destruct (lessio && negb incore).
  - repeat peel1. intros E'; inversion E'; subst.
    eapply dgeev_ritz_vectors_length. exact E.
  - unfold Eig.ritz_assembled. peel1. intros E2.
    set (m := fun r : list vec * list vec => length (fst r)).
    assert (m a = ne) as La.
    { apply (foldM_measure m) in E; [rewrite length_seq in E; exact E|].
      intros [s1 s2] k s'. repeat peel1. intros E'; inversion E'; subst.
      unfold m; simpl. rewrite length_app; simpl; lia. }
    change (m (x0, ax0) = ne).
    revert E2. apply (foldM_invariant (fun r => m r = ne)); [|exact La].
    intros s i s' Hs. repeat peel1.
    apply (foldM_invariant (fun r => m r = ne)); [|exact Hs].
    intros [s1 s2] k s0' Hs0. repeat peel1. intros E'; inversion E'; subst.
    unfold m in *; simpl in *. rewrite set_nth_length; exact Hs0.
Qed.

Lemma broadcast_nonempty (f : F -> F -> F) (x y r : vec) :
  broadcast f x y = Ok r -> r <> [] -> x <> [].
Proof.
  unfold broadcast. destruct (length x =? length y).
  - intros E; inversion E; subst. destruct x; [simpl; congruence|discriminate].
  - destruct x as [|a x]; [|discriminate].
    destruct y as [|b [|c y]]; intros E; inversion E; subst; simpl; congruence.
Qed.

Lemma de_converged_nonempty (tol : F) (de : vec) (b : bool) :
  de_converged tol de = Ok b -> de <> [].
Proof.
  destruct de; [discriminate|discriminate].
Qed.

Lemma ascending_firstn (n : nat) (l : vec) : ascending l -> ascending (firstn n l).
Proof.
  intros Hl. rewrite <- (firstn_skipn n l) in Hl.
  apply ascending_app_inv in Hl. tauto.
Qed.

(** The state in which a cycle of [dgeev] ends holds the lowest [nroots]
    eigenvalues of a solve, at least one, and as many Ritz vectors. *)
Lemma dgeev_cycle_landing type tol toloose max_space nroots lessio incore notify
      icyc (st : Dgeev.state) c :
  Dgeev.cycle abop precond dot eigh type tol toloose max_space nroots lessio
              incore notify icyc st = Ok c ->
  exists h s w v,
    eigh h s = Ok (w, v) /\
    Dgeev.e (landing c) = Some (firstn nroots w) /\
    length (Dgeev.x0 (landing c)) = length (firstn nroots w) /\
    firstn nroots w <> [].
Proof.
  unfold Dgeev.cycle. cbv zeta.
  repeat peel1; intros E'; inversion E'; subst; simpl;
    match goal with
    | Eh : eigh ?h ?s = Ok (?w, ?v),
      Er : Dgeev.ritz _ _ _ _ _ _ _ _ _ _ = Ok _,
      Ed : Dgeev.deltas _ _ _ _ = Ok ?de,
      Ec : de_converged _ ?de = Ok _ |- _ =>
        exists h, s, w, v;
        split; [exact Eh|];
        split; [reflexivity|];
        split; [eapply dgeev_ritz_length; exact Er|];
        apply de_converged_nonempty in Ec;
        revert Ed; unfold Dgeev.deltas; repeat peel1;
        (let Hd := fresh "Hd" in
         intros Hd; try (inversion Hd; subst; exact Ec));
        eapply broadcast_nonempty; eassumption
    end.
Qed.

Lemma eig_cycle_landing pick tol toloose max_space nroots lessio incore notify
      icyc (st : Eig.state) c :
  Eig.cycle aop precond dot pick eigs tol toloose max_space nroots lessio
            incore notify icyc st = Ok c ->
  exists h w vc idx,
    eigs h = Ok (w, vc) /\ pick w vc nroots = Ok idx /\
    let ev := map (fun i => re (nth i w czero)) idx in
    Eig.e (landing c) = Some ev /\
    length (Eig.x0 (landing c)) = length ev /\
    ev <> [].
Proof.
  unfold Eig.cycle. cbv zeta.
  repeat peel1; intros E'; inversion E'; subst; simpl;
    match goal with
    | Eh : eigs ?h = Ok (?w, ?v),
      Ep : pick _ _ _ = Ok ?idx,
      Em : mapM (getitem _) _ = Ok _,
      Er : Eig.ritz _ _ _ _ _ _ _ _ = Ok _,
      Ed : Eig.deltas _ _ _ _ = Ok ?de,
      Ec : de_converged _ ?de = Ok _ |- _ =>
        exists h, w, v, idx;
        apply (mapM_getitem czero) in Em; subst;
        rewrite map_map in *;
        split; [exact Eh|];
        split; [exact Ep|];
        split; [reflexivity|];
        split; [eapply eig_ritz_length; exact Er|];
        apply de_converged_nonempty in Ec;
        revert Ed; unfold Eig.deltas; repeat peel1;
        (let Hd := fresh "Hd" in
         intros Hd; try (inversion Hd; subst; exact Ec));
        eapply broadcast_nonempty; eassumption
    end.
Qed.

(** After the loop: the conversion of the vectors for [type == 3] keeps
    their number. *)
Lemma dgeev_finish_shape type nroots (st : Dgeev.state) (ev : vec) r :
  Dgeev.e st = Some ev -> length (Dgeev.x0 st) = length ev ->
  Dgeev.finish abop1 type nroots st = Ok r ->
  (nroots = 1 -> exists e1 x1, r = RetOne e1 x1) /\
  (nroots <> 1 -> exists xs, r = RetMany ev xs /\ length ev = length xs).
Proof.
  intros He Hl. unfold Dgeev.finish. peel1.
  assert (length a = length ev) as La.
  { destruct (type =? 3)%Z; [|inversion E; subst; exact Hl].
    revert E. apply (foldM_invariant (fun x : list vec => length x = length ev));
      [|exact Hl].
    intros s k s' Hs. repeat peel1. intros E'; inversion E'; subst.
    rewrite set_nth_length. exact Hs. }
  rewrite He. unfold return_value.
  destruct (nroots =? 1) eqn:En.
  - repeat peel1. intros E'; inversion E'; subst.
    split; [eauto|]. apply Nat.eqb_eq in En. intros; congruence.
  - intros E'; inversion E'; subst. apply Nat.eqb_neq in En.
    split; [intros; congruence|]. eauto.
Qed.

(** A loop left by the break of lines 233-235 (399-401), all trial vectors
    dropped, is followed by a normal return, the conversion of line 246
    for [type == 3] apart. *)
Lemma exhaustion_returns
      (x0 : guess F) (type : Z) (tol : F) (max_cycle : Z) (max_space : nat)
      (lindep : F) (max_memory : Z)
      (dcallback : option (Dgeev.locals -> result unit))
      (ecallback : option (Eig.locals -> result unit))
      (nroots : nat) (lessio left : bool) :
  (forall o st,
      Dgeev.run abop precond dot eigh x0 type tol max_cycle max_space lindep
                max_memory dcallback nroots lessio = Ok o ->
      final o = Ok (LinearDep, st) -> type <> 3%Z ->
      exists r, Dgeev.finish abop1 type nroots st = Ok r) /\
  (forall pick o st,
      Eig.run aop precond dot pick eigs x0 tol max_cycle max_space lindep
              max_memory ecallback nroots lessio left = Ok o ->
      final o = Ok (LinearDep, st) ->
      exists r, Eig.finish nroots st = Ok r).
Proof.
  assert (forall (ev : vec) (xs : list vec),
             ev <> [] -> length xs = length ev ->
             exists r, return_value nroots (Some ev) xs = Ok r) as Hret.
  { intros [|e1 ev] [|x1 xs] Hn Hl; try congruence; try discriminate.
    unfold return_value. destruct (nroots =? 1); cbn; eauto. }
  split.
  - intros o st. unfold Dgeev.run. repeat peel1. cbv zeta.
    intros Erun; apply Ok_inj in Erun; subst o. intros Hfin Ht.
    match type of Hfin with
    | final (for_range ?body _ _ _) = Ok _ =>
        apply (@final_landing _ body
                 (fun st => exists h s w v,
                      eigh h s = Ok (w, v) /\
                      Dgeev.e st = Some (firstn nroots w) /\
                      length (Dgeev.x0 st) = length (firstn nroots w) /\
                      firstn nroots w <> [])) in Hfin
    end.
    2:{ intros ? ? ? Ec; cbv beta. eapply dgeev_cycle_landing. exact Ec. }
    destruct Hfin as [(Hw & _)|(h & s' & w & v & Eh & Ee & Hl & Hn)];
      [discriminate|].
    unfold Dgeev.finish. apply Z.eqb_neq in Ht. rewrite Ht, Ee. cbn [bind].
    apply Hret; assumption.
  - intros pick o st. unfold Eig.run. destruct left; [discriminate|].
    repeat peel1. cbv zeta.
    intros Erun; apply Ok_inj in Erun; subst o. intros Hfin.
    match type of Hfin with
    | final (for_range ?body _ _ _) = Ok _ =>
        apply (@final_landing _ body
                 (fun st => exists h w vc idx,
                      eigs h = Ok (w, vc) /\ pick w vc nroots = Ok idx /\
                      let ev := map (fun i => re (nth i w czero)) idx in
                      Eig.e st = Some ev /\
                      length (Eig.x0 st) = length ev /\ ev <> [])) in Hfin
    end.
    2:{ intros ? ? ? Ec; cbv beta. eapply eig_cycle_landing. exact Ec. }
    destruct Hfin as [(Hw & _)|(h & w & vc & idx & Eh & Ep & Ee & Hl & Hn)];
      [discriminate|].
    unfold Eig.finish. rewrite Ee. apply Hret; assumption.
Qed.

End ReturnShape.

(** ** Guess and operator of different dimensions *)

Section Mismatch.
Context {F : Type} `{Scalar F}.
Local Abbreviation vec := (list F).
Local Abbreviation matrix := (list (list F)).
Local Abbreviation complex := (F * F)%type.

Variable abop : list vec -> result (list vec * list vec).
Variable aop : list vec -> result (list vec).
Variable precond : vec -> F -> vec -> result vec.
Variable eigh : matrix -> matrix -> result (vec * matrix).
Variable eigs : matrix -> result (list complex * list (list complex)).
Variable pick : list complex -> list (list complex) -> nat -> result (list nat).

(** [qr] keeps the first vector, divided by its norm, at the front. *)
Lemma qr_head (xs qs : list vec) :
  qr xs = Ok qs ->
  exists x rest qs', xs = x :: rest /\ qs = vdiv x (norm x) :: qs'.
Proof.
  unfold qr. peel1. apply getitem_ok in E as [E _].
  destruct xs as [|x rest]; [discriminate|]. simpl in E; inversion E; subst.
  intros E2.
  assert (exists qs', qs = vdiv a (norm a) :: qs') as [qs' ->].
  { revert E2.
    apply (@foldM_invariant _ _ (fun acc => exists t, acc = vdiv a (norm a) :: t));
      [|eexists; reflexivity].
    intros s y s' [t ->]. unfold qr_step. repeat peel1;
      intros E'; inversion E'; subst; eexists; reflexivity. }
  exists a, rest, qs'. auto.
Qed.

Lemma npdot_mismatch (x y : vec) :
  length y <> length x -> npdot x y = Raise ValueError.
Proof.
  intros Hne. unfold npdot.
  destruct (length x =? length y) eqn:E; [|reflexivity].
  apply Nat.eqb_eq in E. congruence.
Qed.

Lemma dgeev_extend_mismatch type (q : vec) (qs axt bxt ax bx : list vec)
      (heff seff : matrix) hs :
  Forall (fun a => length a <> length q) axt ->
  Forall (fun b => length b <> length q) bxt ->
  Dgeev.extend npdot type (q :: qs) axt bxt ax bx 0 (length (q :: qs))
               (0 + length (q :: qs)) heff seff = Ok hs -> False.
Proof.
  intros Ha Hb. unfold Dgeev.extend.
  cbn [length Nat.add seq foldM Nat.leb Nat.ltb andb Nat.sub].
  intros E. apply bind_ok in E as (hs1 & E & _).
  apply bind_ok in E as (hs2 & E & _).
  apply bind_ok in E as (h1 & E1 & E2).
  apply bind_ok in E2 as (s1 & E2 & _).
  assert (entry npdot seff 0 0 (operands (getitem (q :: qs) 0) (getitem bxt 0))
          = Ok s1 -> False) as Hs.
  { unfold entry, operands, getitem at 1. cbn [nth_error bind].
    destruct bxt as [|b bxt']; [discriminate|].
    inversion Hb; subst. cbn [getitem nth_error bind].
    rewrite npdot_mismatch by assumption. discriminate. }
  destruct (type =? 1)%Z; [|exact (Hs E2)].
  revert E1. unfold entry, operands, getitem at 1. cbn [nth_error bind].
  destruct axt as [|a axt']; [discriminate|].
  inversion Ha; subst. cbn [getitem nth_error bind].
  rewrite npdot_mismatch by assumption. discriminate.
Qed.

Lemma eig_extend_mismatch (q : vec) (qs axt xs ax : list vec) (heff : matrix) h :
  Forall (fun a => length a <> length q) axt ->
  Eig.extend npdot (q :: qs) axt xs ax 0 (length (q :: qs)) heff = Ok h -> False.
Proof.
  intros Ha. unfold Eig.extend.
  cbn [length Nat.add seq foldM].
  intros E. apply bind_ok in E as (h1 & E & _).
  apply bind_ok in E as (h2 & E & _).
  apply bind_ok in E as (h3 & E & _).
  revert E. unfold Eig.assign, operands, getitem at 1. cbn [nth_error bind].
  destruct axt as [|a axt']; [discriminate|].
  inversion Ha; subst. cbn [getitem nth_error bind].
  rewrite npdot_mismatch by assumption. discriminate.
Qed.

Section Images.
Variable first : vec.
Hypothesis abop_images :
  forall l axt bxt, abop l = Ok (axt, bxt) ->
                    Forall (fun a => length a <> length first) axt /\
                    Forall (fun b => length b <> length first) bxt.
Hypothesis aop_images :
  forall l axt, aop l = Ok axt -> Forall (fun a => length a <> length first) axt.

Lemma dgeev_first_cycle_mismatch type tol toloose max_space nroots lessio incore
      notify icyc (st : Dgeev.state) :
  Dgeev.fresh_start st = true -> nth_error (Dgeev.x0 st) 0 = Some first ->
  exists ex,
    Dgeev.cycle abop precond npdot eigh type tol toloose max_space nroots lessio
                incore notify icyc st = Raise ex.
Proof.
  intros Hf Hx.
  destruct (Dgeev.cycle _ _ _ _ _ _ _ _ _ _ _ _ _ _) as [c|ex] eqn:E;
    [exfalso|eauto].
  revert E. unfold Dgeev.cycle, Dgeev.begin_cycle. rewrite Hf. cbv zeta.
  peel1. apply bind_ok in E as (qs & E & E'). inversion E'; subst a; clear E'.
  cbn [Dgeev.xt Dgeev.space Dgeev.heff Dgeev.seff].
  apply qr_head in E as (x & rest & qs' & Ex & ->).
  rewrite Ex in Hx. simpl in Hx. inversion Hx; subst x.
  do 2 peel1.
  assert (Forall (fun a => length a <> length first) l /\
          Forall (fun b => length b <> length first) l0) as [Ha Hb].
  { revert E. unfold Dgeev.apply_operator. do 2 peel1.
    destruct (abop_images E) as [Ha Hb].
    destruct (1 <? type)%Z.
    - do 2 peel1. intros E'; inversion E'; subst.
      destruct (abop_images E0) as [Ha' _]. auto.
    - intros E'; inversion E'; subst. auto. }
  do 4 peel1. exfalso.
  eapply dgeev_extend_mismatch; [| |exact E1];
    unfold vdiv; rewrite length_map; assumption.
Qed.

Lemma eig_first_cycle_mismatch tol toloose max_space nroots lessio incore
      notify icyc (st : Eig.state) :
  Eig.fresh_start st = true -> nth_error (Eig.x0 st) 0 = Some first ->
  exists ex,
    Eig.cycle aop precond npdot pick eigs tol toloose max_space nroots lessio
              incore notify icyc st = Raise ex.
Proof.
  intros Hf Hx.
  destruct (Eig.cycle _ _ _ _ _ _ _ _ _ _ _ _ _ _) as [c|ex] eqn:E;
    [exfalso|eauto].
  revert E. unfold Eig.cycle, Eig.begin_cycle. rewrite Hf. cbv zeta.
  peel1. apply bind_ok in E as (qs & E & E'). inversion E'; subst a; clear E'.
  cbn [Eig.xt Eig.space Eig.heff].
  apply qr_head in E as (x & rest & qs' & Ex & ->).
  rewrite Ex in Hx. simpl in Hx. inversion Hx; subst x.
  peel1. pose proof (aop_images E) as Ha.
  do 3 peel1. exfalso.
  eapply eig_extend_mismatch; [|exact E1].
  unfold vdiv; rewrite length_map; assumption.
Qed.

End Images.

End Mismatch.

(** ** The orthogonalizer in exact arithmetic *)

Lemma ForallOrdPairs_snoc {A} (R : A -> A -> Prop) (l : list A) (a : A) :
  ForallOrdPairs R (l ++ [a]) <->
  ForallOrdPairs R l /\ Forall (fun x => R x a) l.
Proof.
  induction l as [|b l IH]; simpl.
  - split; [intros _; split; constructor|intros _; repeat constructor].
  - split.
    + intros Hp. inversion Hp as [|? ? Hb Hl]; subst.
      apply IH in Hl as [Hl Ha]. apply Forall_app in Hb as [Hb1 Hb2].
      inversion Hb2; subst. split; constructor; assumption.
    + intros [Hp Ha]. inversion Hp as [|? ? Hb Hl]; subst.
      inversion Ha; subst. constructor.
      * apply Forall_app; split; [assumption|repeat constructor; assumption].
      * apply IH; split; assumption.
Qed.

Section Orthogonalizer.
Context {F : Type} `{Scalar F}.
Local Abbreviation vec := (list F).

Hypothesis exact : exact_arithmetic.

Add Ring scalar_ring : (ex_ring exact).

Lemma dotsum_from (acc : F) (x y : vec) :
  fold_left (fun acc p => add acc (mul (fst p) (snd p))) (combine x y) acc
  = add acc (dotsum x y).
Proof.
  unfold dotsum. revert y acc; induction x as [|a x IH]; intros [|b y] acc; simpl;
    try ring.
  rewrite IH, (IH y (add zero (mul a b))). ring.
Qed.

Lemma dotsum_cons (a b : F) (x y : vec) :
  dotsum (a :: x) (b :: y) = add (mul a b) (dotsum x y).
Proof.
  unfold dotsum at 1. simpl. rewrite dotsum_from. ring.
Qed.

Lemma dotsum_nil_l (y : vec) : dotsum [] y = zero.
Proof. reflexivity. Qed.

Lemma dotsum_nil_r (x : vec) : dotsum x [] = zero.
Proof. destruct x; reflexivity. Qed.

Lemma dotsum_comm (x y : vec) : dotsum x y = dotsum y x.
Proof.
  revert y; induction x as [|a x IH]; intros [|b y];
    rewrite ?dotsum_nil_l, ?dotsum_nil_r, ?dotsum_cons; try reflexivity.
  rewrite IH. ring.
Qed.

Lemma dotsum_sub_l (x y z : vec) :
  length x = length y ->
  dotsum (zipw sub x y) z = sub (dotsum x z) (dotsum y z).
Proof.
  revert y z; induction x as [|a x IH]; intros [|b y] [|c z] L;
    simpl in *; try discriminate;
    rewrite ?dotsum_nil_l, ?dotsum_nil_r, ?dotsum_cons; try ring.
  rewrite IH by lia. ring.
Qed.

Lemma dotsum_vmul_r (q z : vec) (d : F) :
  dotsum (vmul_r q d) z = mul (dotsum q z) d.
Proof.
  unfold vmul_r. revert z; induction q as [|a q IH]; intros [|c z]; simpl;
    rewrite ?dotsum_nil_l, ?dotsum_nil_r, ?dotsum_cons; try ring.
  rewrite IH. ring.
Qed.

Lemma dotsum_vdiv (x z : vec) (s : F) :
  dotsum (vdiv x s) z = div (dotsum x z) s.
Proof.
  unfold vdiv. revert z; induction x as [|a x IH]; intros [|c z]; simpl;
    rewrite ?dotsum_nil_l, ?dotsum_nil_r, ?dotsum_cons;
    rewrite ?(ex_div exact zero s); try ring.
  rewrite IH, (ex_div exact a s), (ex_div exact (dotsum x z) s),
    (ex_div exact (add (mul a c) (dotsum x z)) s). ring.
Qed.

Lemma dotsum_self_nonneg (x : vec) : leb zero (dotsum x x) = true.
Proof.
  induction x as [|a x IH]; [apply (ex_zero exact)|].
  rewrite dotsum_cons. apply (ex_sum exact); [apply (ex_square exact)|exact IH].
Qed.

Lemma dotsum_self_zero (x : vec) :
  dotsum x x = zero -> Forall (fun a => a = zero) x.
Proof.
  induction x as [|a x IH]; [constructor|].
  rewrite dotsum_cons. intros E.
  apply (ex_sum_zero exact) in E as [Ea Ex];
    [|apply (ex_square exact)|apply dotsum_self_nonneg].
  constructor; [apply (ex_square_zero exact), Ea|apply IH, Ex].
Qed.

Lemma norm_square (x : vec) : mul (norm x) (norm x) = dotsum x x.
Proof. apply (ex_sqrt exact), dotsum_self_nonneg. Qed.

Lemma norm_nonzero (x : vec) : nonzero x -> norm x <> zero.
Proof.
  intros (a & Ha & Hne) E. apply Hne.
  assert (dotsum x x = zero) as E0 by (rewrite <- norm_square, E; ring).
  apply dotsum_self_zero in E0. rewrite Forall_forall in E0. auto.
Qed.

Lemma kept_nonzero (nrm : F) : ltb c1em7 nrm = true -> nrm <> zero.
Proof.
  intros E ->. rewrite (ex_threshold exact) in E. discriminate.
Qed.

Lemma div_self_square (n : F) :
  n <> zero -> div (div (mul n n) n) n = one.
Proof.
  intros Hn. rewrite (ex_div exact (div (mul n n) n) n), (ex_div exact (mul n n) n).
  transitivity (mul (mul (div one n) n) (mul (div one n) n)); [ring|].
  rewrite (ex_inv exact Hn). ring.
Qed.

Lemma div_zero (n : F) : div zero n = zero.
Proof. rewrite (ex_div exact). ring. Qed.

Lemma normalized_unit (x : vec) :
  norm x <> zero ->
  norm (vdiv x (norm x)) = one /\
  dotsum (vdiv x (norm x)) (vdiv x (norm x)) = one.
Proof.
  intros Hn.
  assert (dotsum (vdiv x (norm x)) (vdiv x (norm x)) = one) as E.
  { rewrite dotsum_vdiv, dotsum_comm, dotsum_vdiv, <- norm_square.
    apply div_self_square, Hn. }
  split; [|exact E]. unfold norm at 1. rewrite E. apply (ex_sqrt_one exact).
Qed.

Lemma zipw_length (f : F -> F -> F) (x y : vec) :
  length x = length y -> length (zipw f x y) = length x.
Proof.
  revert y; induction x as [|a x IH]; intros [|b y] L; simpl in *;
    try discriminate; auto.
Qed.

Lemma inplace_same_length (f : F -> F -> F) (x y : vec) :
  length x = length y -> inplace f x y = Ok (zipw f x y).
Proof.
  intros L. unfold inplace. rewrite L, Nat.eqb_refl. reflexivity.
Qed.

Lemma npdot_same_length (x y : vec) :
  length x = length y -> npdot x y = Ok (dotsum x y).
Proof.
  intros L. unfold npdot. rewrite L, Nat.eqb_refl. reflexivity.
Qed.

Lemma orthonormal_snoc (qs : list vec) (q : vec) :
  orthonormal (qs ++ [q]) <->
  orthonormal qs /\ (norm q = one /\ dotsum q q = one) /\
  Forall (fun p => dotsum p q = zero /\ dotsum q p = zero) qs.
Proof.
  unfold orthonormal. rewrite Forall_app, ForallOrdPairs_snoc.
  split.
  - intros [[Hu Hq] [Hp Ho]]. inversion Hq; subst. tauto.
  - intros [[Hu Hp] [Hq Ho]]. repeat split; auto.
Qed.

(** Projecting with the running vector, as the code does, gives the
    classical residual when the accepted vectors are orthonormal. *)
Lemma project_residual (n : nat) (qs : list vec) (x : vec) :
  Forall (fun q => length q = n) qs -> length x = n -> orthonormal qs ->
  qr_project qs x = Ok (residual qs x) /\
  length (residual qs x) = n /\
  (forall q, In q qs -> dotsum (residual qs x) q = zero) /\
  (forall z, (forall q, In q qs -> dotsum q z = zero) ->
             dotsum (residual qs x) z = dotsum x z).
Proof.
  intros Hl Hx. induction qs as [|q p IH] using rev_ind; intros Ho.
  - repeat split; auto. intros q [].
  - apply Forall_app in Hl as [Hp Hq]. inversion Hq as [|? ? Lq _]; subst.
    apply orthonormal_snoc in Ho as (Ho & [_ Hu] & Hop).
    destruct (IH Hp Ho) as (E & L & O & C). clear IH.
    rewrite Forall_forall in Hop.
    set (r := residual p x) in *.
    assert (dotsum q r = dotsum q x) as Ed.
    { rewrite dotsum_comm, C, dotsum_comm; [reflexivity|].
      intros q' Hq'. apply (Hop q' Hq'). }
    assert (residual (p ++ [q]) x = zipw sub r (vmul_r q (dotsum q x))) as Er.
    { unfold residual. rewrite fold_left_app. reflexivity. }
    assert (length (vmul_r q (dotsum q x)) = length r) as Lv.
    { unfold vmul_r. rewrite length_map. congruence. }
    assert (forall z, dotsum (residual (p ++ [q]) x) z
                      = sub (dotsum r z) (mul (dotsum q z) (dotsum q x))) as Ez.
    { intros z. rewrite Er, dotsum_sub_l, dotsum_vmul_r by congruence.
      reflexivity. }
    split; [|split; [|split]].
    + unfold qr_project in *. rewrite foldM_app, E. cbn [bind foldM].
      rewrite npdot_same_length by congruence. cbn [bind].
      rewrite Ed, inplace_same_length by congruence. cbn [bind].
      rewrite Er. reflexivity.
    + rewrite Er, zipw_length; congruence.
    + intros z Hz. rewrite Ez. apply in_app_or in Hz as [Hz|[<-|[]]].
      * rewrite (O z Hz). destruct (Hop z Hz) as [_ ->]. ring.
      * rewrite C, Hu, (dotsum_comm x q); [ring|].
        intros q' Hq'. apply (Hop q' Hq').
    + intros z Hz. rewrite Ez, C, (Hz q); [ring| |].
      * apply in_or_app; right; left; reflexivity.
      * intros q' Hq'. apply Hz, in_or_app; auto.
Qed.

Lemma gram_schmidt_head (acc xs : list vec) (q : vec) (t : list vec) :
  acc = q :: t -> exists t', gram_schmidt acc xs = q :: t'.
Proof.
  revert acc t; induction xs as [|x xs IH]; intros acc t ->; simpl; [eauto|].
  destruct (ltb c1em7 _); eapply IH; reflexivity.
Qed.

Lemma qr_steps (n : nat) (xs acc : list vec) :
  Forall (fun q => length q = n) acc -> orthonormal acc ->
  Forall (fun x => length x = n) xs ->
  foldM qr_step xs acc = Ok (gram_schmidt acc xs) /\
  orthonormal (gram_schmidt acc xs).
Proof.
  revert acc; induction xs as [|x xs IH]; intros acc Hl Ho Hx; simpl.
  - auto.
  - inversion Hx as [|? ? Lx Hxs]; subst.
    destruct (@project_residual _ acc x Hl eq_refl Ho) as (E & L & O & _).
    unfold qr_step at 1. rewrite E. cbn [bind].
    set (r := residual acc x) in *.
    destruct (ltb c1em7 (norm r)) eqn:Ek; cbn [bind]; [|apply IH; assumption].
    apply IH; [| |assumption].
    + apply Forall_app; split; [assumption|].
      constructor; [|constructor]. unfold vdiv. rewrite length_map. exact L.
    + apply orthonormal_snoc. split; [exact Ho|].
      split; [apply normalized_unit, kept_nonzero, Ek|].
      apply Forall_forall. intros p Hp.
      assert (dotsum (vdiv r (norm r)) p = zero) as Ez.
      { rewrite dotsum_vdiv, (O p Hp). apply div_zero. }
      split; [rewrite dotsum_comm|]; exact Ez.
Qed.

(** C4.  In exact arithmetic, for a non-empty sequence of nonzero vectors
    of one dimension, [qr] performs one pass of sequential Gram-Schmidt:
    its result is that of [gram_schmidt], which accepts the first vector
    normalized, subtracts from each later candidate its projection onto
    the vectors accepted so far and keeps the residual, renormalized,
    exactly when its norm exceeds 1e-7.  Any two vectors at different
    positions of the output are orthogonal and each has norm 1. *)
Theorem qr_gram_schmidt (n : nat) (x : vec) (xs : list vec) :
  Forall (fun y => length y = n) (x :: xs) ->
  Forall nonzero (x :: xs) ->
  let qs := gram_schmidt [vdiv x (norm x)] xs in
  qr (x :: xs) = Ok qs /\
  (exists rest, qs = vdiv x (norm x) :: rest) /\
  orthonormal qs.
Proof.
  intros Hl Hn qs. inversion Hl as [|? ? Lx Hxs]; subst.
  inversion Hn as [|? ? Nx _]; subst.
  assert (orthonormal [vdiv x (norm x)]) as Ho.
  { split; [|repeat constructor].
    constructor; [|constructor]. apply normalized_unit, norm_nonzero, Nx. }
  destruct (@qr_steps (length x) xs [vdiv x (norm x)]) as [E O]; auto.
  { constructor; [|constructor]. unfold vdiv. apply length_map. }
  split; [exact E|]. split; [|exact O].
  eapply gram_schmidt_head; reflexivity.
Qed.

End Orthogonalizer.

(** ** In-core and disk-backed storage *)

Lemma getitem_map {A B} (f : A -> B) (l : list A) (i : nat) :
  getitem (map f l) i = (a <- getitem l i ;; Ok (f a)).
Proof.
  unfold getitem. rewrite nth_error_map.
  destruct (nth_error l i); reflexivity.
Qed.

Lemma map_set_nth {A B} (f : A -> B) (l : list A) (i : nat) (a : A) :
  map f (set_nth l i a) = set_nth (map f l) i (f a).
Proof.
  revert i; induction l as [|b l IH]; intros [|i]; simpl; auto.
  rewrite IH. reflexivity.
Qed.

Lemma Forall_set_nth {A} (P : A -> Prop) (l : list A) (i : nat) (a : A) :
  Forall P l -> P a -> Forall P (set_nth l i a).
Proof.
  intros Hl Ha. revert i; induction Hl as [|b l Hb Hl IH]; intros [|i]; simpl;
    constructor; auto.
Qed.

Lemma getitem_Forall {A} (P : A -> Prop) (l : list A) (i : nat) (a : A) :
  Forall P l -> getitem l i = Ok a -> P a.
Proof.
  intros Hl E. apply getitem_ok in E as [E _]. apply nth_error_In in E.
  rewrite Forall_forall in Hl. auto.
Qed.

(** The steps of a cycle keep the dimension [n] of the vectors. *)
Section Shapes.
Context {F : Type} `{Scalar F}.
Local Abbreviation vec := (list F).
Local Abbreviation matrix := (list (list F)).

Variable n : nat.
Local Abbreviation sized := (Forall (fun x : vec => length x = n)).

Lemma inplace_length (f : F -> F -> F) (x y z : vec) :
  inplace f x y = Ok z -> length z = length x.
Proof.
  unfold inplace. destruct (length x =? length y) eqn:E.
  - apply Nat.eqb_eq in E. intros E'; inversion E'; subst.
    apply zipw_length, E.
  - destruct y as [|b [|c y]]; try discriminate.
    intros E'; inversion E'; subst. apply length_map.
Qed.

Lemma broadcast_same_length (f : F -> F -> F) (x y : vec) :
  length x = length y -> broadcast f x y = Ok (zipw f x y).
Proof.
  intros L. unfold broadcast. rewrite L, Nat.eqb_refl. reflexivity.
Qed.

Lemma qr_project_length (qs : list vec) (x r : vec) :
  qr_project qs x = Ok r -> length r = length x.
Proof.
  unfold qr_project.
  apply (@foldM_invariant _ _ (fun r : vec => length r = length x)); [|reflexivity].
  intros s q s' Hs. repeat peel1. intros E'. apply inplace_length in E'. congruence.
Qed.

Lemma qr_sized (xs qs : list vec) : sized xs -> qr xs = Ok qs -> sized qs.
Proof.
  intros Hx. unfold qr. peel1. intros E2.
  assert (length a = n) as La by (eapply (getitem_Forall _ Hx); exact E).
  revert E2. apply foldM_invariant_in.
  - intros s x s' Hin Hs. unfold qr_step. repeat peel1;
      intros E'; inversion E'; subst; [|exact Hs].
    apply Forall_app; split; [exact Hs|]. constructor; [|constructor].
    unfold vdiv. rewrite length_map.
    match goal with
    | Ep : qr_project _ _ = Ok _ |- _ => rewrite (qr_project_length _ _ Ep)
    end.
    rewrite Forall_forall in Hx. apply Hx. destruct xs; [inversion Hin|].
    right; exact Hin.
  - constructor; [|constructor]. unfold vdiv. rewrite length_map. exact La.
Qed.

Lemma ritz_vectors_sized (xs : list vec) (v : matrix) space ne x0 :
  sized xs -> Dgeev.ritz_vectors xs v space ne = Ok x0 -> sized x0.
Proof.
  intros Hx. unfold Dgeev.ritz_vectors. peel1. intros E2.
  assert (sized a) as Ha.
  { revert E. apply foldM_invariant; [|constructor].
    intros s k s' Hs. repeat peel1. intros E'; inversion E'; subst.
    apply Forall_app; split; [exact Hs|]. constructor; [|constructor].
    unfold vmul_r. rewrite length_map. eapply (getitem_Forall _ Hx); eassumption. }
  revert E2. apply foldM_invariant; [|exact Ha].
  intros s i s' Hs. peel1. apply foldM_invariant; [|exact Hs].
  intros s0 k s0' Hs0. repeat peel1. intros E'; inversion E'; subst.
  apply Forall_set_nth; [exact Hs0|].
  match goal with
  | Ei : inplace _ _ _ = Ok _ |- _ => rewrite (inplace_length _ _ _ Ei)
  end.
  eapply (getitem_Forall _ Hs0); eassumption.
Qed.

Lemma precondition_sized (precond : vec -> F -> vec -> result vec)
      toloose (e : vec) (x0 xt : list vec) (dx_norm : vec) xt1 :
  (forall r e0 x p, length r = n -> length x = n ->
                    precond r e0 x = Ok p -> length p = n) ->
  sized x0 -> sized xt ->
  precondition precond toloose e x0 xt dx_norm = Ok xt1 -> sized xt1.
Proof.
  intros Hp Hx Ht. unfold precondition.
  apply foldM_invariant; [|constructor].
  intros s k s' Hs. repeat peel1; intros E'; inversion E'; subst; [|exact Hs].
  apply Forall_app; split; [exact Hs|]. constructor; [|constructor].
  unfold vmul_r. rewrite length_map.
  match goal with
  | Ep : precond _ _ _ = Ok _ |- _ => apply (Hp _ _ _ _) in Ep; [exact Ep| |]
  end.
  - eapply (getitem_Forall _ Ht); eassumption.
  - eapply (getitem_Forall _ Hx); eassumption.
Qed.

Lemma project_step_sized (xsi : result vec) (xt xt' : list vec) :
  sized xt ->
  foldM (fun acc xi =>
           x <- xsi ;; d <- npdot xi x ;;
           xi' <- inplace sub xi (vmul_r x d) ;; Ok (acc ++ [xi'])) xt [] = Ok xt' ->
  sized xt'.
Proof.
  intros Ht. apply foldM_invariant_in; [|constructor].
  intros s xi s' Hin Hs. repeat peel1. intros E'; inversion E'; subst.
  apply Forall_app; split; [exact Hs|]. constructor; [|constructor].
  match goal with
  | Ei : inplace _ _ _ = Ok _ |- _ => rewrite (inplace_length _ _ _ Ei)
  end.
  rewrite Forall_forall in Ht. auto.
Qed.

Lemma project_out_sized (xs : list vec) space (xt xt' : list vec) :
  sized xt -> project_out xs space xt = Ok xt' -> sized xt'.
Proof.
  intros Ht. unfold project_out. apply foldM_invariant; [|exact Ht].
  intros s i s' Hs. apply (project_step_sized (getitem xs i) Hs).
Qed.

Lemma eig_project_out_sized (xs : list vec) space (xt xt' : list vec) :
  sized xt -> Eig.project_out xs space xt = Ok xt' -> sized xt'.
Proof.
  intros Ht. unfold Eig.project_out. apply foldM_invariant; [|exact Ht].
  intros s i s' Hs. peel1. apply (project_step_sized (Ok a) Hs).
Qed.

Lemma prune_sized toloose (xt : list vec) : sized xt -> sized (prune toloose xt).
Proof.
  intros Ht. unfold prune. induction Ht as [|x l Hx Hl IH]; simpl; [constructor|].
  destruct (ltb toloose (norm x)); simpl; [|exact IH].
  constructor; [|exact IH]. unfold vmul_r. rewrite length_map. exact Hx.
Qed.

Lemma eig_ritz_vectors_sized (xs : list vec) (v : matrix) space ne x0 :
  sized xs -> Eig.ritz_vectors xs v space ne = Ok x0 -> sized x0.
Proof. exact (@ritz_vectors_sized xs v space ne x0). Qed.

Lemma dgeev_residuals_sized type (e : vec) (x0 ax0 bx0 res : list vec) dx_norm :
  sized x0 -> sized ax0 -> sized bx0 ->
  Dgeev.residuals type e x0 ax0 bx0 = Ok (res, dx_norm) -> sized res.
Proof.
  intros Hx Ha Hb. unfold Dgeev.residuals. intros E.
  change (sized (fst (res, dx_norm))). revert E.
  apply (@foldM_invariant _ _ (fun s : list vec * vec => sized (fst s)));
    [|constructor].
  intros [xt dxn] [k ek] s' Hs. do 2 peel1.
  assert (length a = n) as La by (eapply (getitem_Forall _ Ha); eassumption).
  assert (length a0 = n) as Ly
      by (destruct (type =? 1)%Z;
          [eapply (getitem_Forall _ Hb) | eapply (getitem_Forall _ Hx)]; eassumption).
  rewrite broadcast_same_length by (unfold vmul_l; rewrite length_map; congruence).
  cbn [bind]. intros E'; injection E' as <-. cbn [fst] in *.
  apply Forall_app; split; [exact Hs|]. constructor; [|constructor].
  rewrite zipw_length; [exact La|]. unfold vmul_l; rewrite length_map; congruence.
Qed.

Lemma eig_residuals_sized (e : vec) (x0 ax0 res : list vec) dx_norm :
  sized x0 -> sized ax0 ->
  Eig.residuals e x0 ax0 = Ok (res, dx_norm) -> sized res.
Proof.
  intros Hx Ha. unfold Eig.residuals. intros E.
  change (sized (fst (res, dx_norm))). revert E.
  apply (@foldM_invariant _ _ (fun s : list vec * vec => sized (fst s)));
    [|constructor].
  intros [xt dxn] [k ek] s' Hs. do 2 peel1.
  assert (length a = n) as La by (eapply (getitem_Forall _ Ha); eassumption).
  assert (length a0 = n) as Ly by (eapply (getitem_Forall _ Hx); eassumption).
  rewrite broadcast_same_length by (unfold vmul_l; rewrite length_map; congruence).
  cbn [bind]. intros E'; injection E' as <-. cbn [fst] in *.
  apply Forall_app; split; [exact Hs|]. constructor; [|constructor].
  rewrite zipw_length; [exact La|]. unfold vmul_l; rewrite length_map; congruence.
Qed.

Lemma firstn_sized (k : nat) (l : list vec) : sized l -> sized (firstn k l).
Proof.
  rewrite !Forall_forall. intros Hl x Hin. apply Hl. exact (in_firstn _ _ _ Hin).
Qed.

End Shapes.

(** Two folds over one list whose steps preserve a relation between their
    states: when the first completes, so does the second, in a related
    state. *)
Lemma foldM_simulation {A S T} (R : T -> S -> Prop)
      (f : T -> A -> result T) (g : S -> A -> result S) (l : list A) :
  (forall t s a t', R t s -> f t a = Ok t' -> exists s', g s a = Ok s' /\ R t' s') ->
  forall t s t', R t s -> foldM f l t = Ok t' ->
                 exists s', foldM g l s = Ok s' /\ R t' s'.
Proof.
  intros Hstep. induction l as [|a l IH]; intros t s t' Hr; simpl.
  - intros E; inversion E; subst. exists s; auto.
  - destruct (f t a) as [t1|ex] eqn:Ef; simpl; [|discriminate].
    destruct (Hstep _ _ _ _ Hr Ef) as (s1 & -> & Hr1). simpl.
    apply IH, Hr1.
Qed.

Lemma append_firstn {A} (l : list A) (k : nat) (a : A) :
  nth_error l k = Some a -> firstn k l ++ [a] = firstn (S k) l.
Proof.
  revert k; induction l as [|b l IH]; intros [|k]; simpl; try discriminate.
  - congruence.
  - intros E. rewrite (IH _ E). reflexivity.
Qed.

(** Name the results of the computations that two cycles share, up to
    the Ritz vectors. *)
Ltac to_ritz :=
  repeat lazymatch goal with
         | |- bind (Dgeev.ritz _ _ _ _ _ _ _ _ _ _) _ = Ok _ -> _ => fail
         | |- bind (Eig.ritz _ _ _ _ _ _ _ _) _ = Ok _ -> _ => fail
         | _ => peel
         end.

Section Storage.
Context {F : Type} `{Scalar F}.
Local Abbreviation vec := (list F).
Local Abbreviation matrix := (list (list F)).
Local Abbreviation complex := (F * F)%type.

Variable abop : list vec -> result (list vec * list vec).
Variable abop1 : vec -> result (vec * vec).
Variable aop : list vec -> result (list vec).
Variable precond : vec -> F -> vec -> result vec.
Variable dot : vec -> vec -> result F.
Variable eigh : matrix -> matrix -> result (vec * matrix).
Variable eigs : matrix -> result (list complex * list (list complex)).
Variable pick : list complex -> list (list complex) -> nat -> result (list nat).



Section Linear.
Variable n : nat.
Variables A B : vec -> vec.
Local Abbreviation sized := (Forall (fun x : vec => length x = n)).

Lemma linear_on_image type :
  linear_on n A -> linear_on n B -> linear_on n (image A B type).
Proof.
  intros (A1 & A2 & A3 & A4) (B1 & B2 & B3 & B4). unfold image.
  destruct (1 <? type)%Z; [|repeat split; assumption].
  repeat split.
  - intros x L. auto.
  - intros x c L. rewrite B2, A2; auto.
  - intros x c L. rewrite B3, A3; auto.
  - intros x y Lx Ly. rewrite B4, A4; auto.
Qed.

Lemma map_sized (M : vec -> vec) (l : list vec) :
  linear_on n M -> sized l -> sized (map M l).
Proof.
  intros (M1 & _) Hl. induction Hl; simpl; constructor; auto.
Qed.

Hypothesis exact : exact_operators n A B abop aop precond.

Lemma apply_operator_images type (xt : list vec) :
  sized xt ->
  Dgeev.apply_operator abop type xt = Ok (map (image A B type) xt, map B xt).
Proof.
  destruct exact as (HA & HB & Habop & _). intros Hx.
  unfold Dgeev.apply_operator, image. rewrite (Habop _ Hx). cbn [bind].
  destruct (1 <? type)%Z; [|reflexivity].
  rewrite (Habop _ (map_sized HB Hx)). cbn [bind]. rewrite map_map. reflexivity.
Qed.


(** Lines 121-124 append the trial vectors and their images. *)
Lemma dgeev_append_trials_ok (st : Dgeev.state) (axt bxt xs' ax' bx' : list vec) :
  Dgeev.append_trials st axt bxt = Ok (xs', ax', bx') ->
  xs' = Dgeev.xs st ++ Dgeev.xt st /\
  ax' = Dgeev.ax st ++ firstn (length (Dgeev.xt st)) axt /\
  bx' = Dgeev.bx st ++ firstn (length (Dgeev.xt st)) bxt.
Proof.
  unfold Dgeev.append_trials.
  rewrite <- (firstn_all (Dgeev.xt st)) at 2.
  generalize (length (Dgeev.xt st)) as m. intros m. revert xs' ax' bx'.
  induction m as [|m IH]; intros xs' ax' bx'.
  - simpl. intros E; inversion E; subst. rewrite !app_nil_r. auto.
  - rewrite seq_S, foldM_app. cbn [Nat.add].
    destruct (foldM _ (seq 0 m) _) as [[[xs1 ax1] bx1]|ex]; cbn [bind];
      [|discriminate].
    destruct (IH _ _ _ eq_refl) as (-> & -> & ->). cbn [foldM].
    peel1. intros E'; inversion E'; subst; clear E'.
    revert E. repeat peel1. intros E'; inversion E'; subst.
    repeat match goal with
           | Eg : getitem _ _ = Ok _ |- _ => apply getitem_ok in Eg as [Eg _]
           end.
    rewrite <- !app_assoc.
    repeat match goal with
           | Eg : nth_error _ _ = Some _ |- _ => rewrite (append_firstn _ _ Eg); clear Eg
           end.
    auto.
Qed.

Lemma eig_append_trials_ok (st : Eig.state) (axt xs' ax' : list vec) :
  Eig.append_trials st axt = Ok (xs', ax') ->
  xs' = Eig.xs st ++ Eig.xt st /\
  ax' = Eig.ax st ++ firstn (length (Eig.xt st)) axt.
Proof.
  unfold Eig.append_trials.
  rewrite <- (firstn_all (Eig.xt st)) at 2.
  generalize (length (Eig.xt st)) as m. intros m. revert xs' ax'.
  induction m as [|m IH]; intros xs' ax'.
  - simpl. intros E; inversion E; subst. rewrite !app_nil_r. auto.
  - rewrite seq_S, foldM_app. cbn [Nat.add].
    destruct (foldM _ (seq 0 m) _) as [[xs1 ax1]|ex]; cbn [bind];
      [|discriminate].
    destruct (IH _ _ eq_refl) as (-> & ->). cbn [foldM].
    peel1. intros E'; inversion E'; subst; clear E'.
    revert E. repeat peel1. intros E'; inversion E'; subst.
    repeat match goal with
           | Eg : getitem _ _ = Ok _ |- _ => apply getitem_ok in Eg as [Eg _]
           end.
    rewrite <- !app_assoc.
    repeat match goal with
           | Eg : nth_error _ _ = Some _ |- _ => rewrite (append_firstn _ _ Eg); clear Eg
           end.
    auto.
Qed.

Lemma firstn_length_map (M : vec -> vec) (l : list vec) :
  firstn (length l) (map M l) = map M l.
Proof. rewrite firstn_map, firstn_all. reflexivity. Qed.


(** Assembled from the stored images of the basis under linear [M] and
    [N], the images of the Ritz vectors are [M] and [N] of the Ritz
    vectors. *)
Lemma dgeev_ritz_assembled_images (M N : vec -> vec) (xs : list vec)
      (v : matrix) space ne x0 ax0 bx0 :
  linear_on n M -> linear_on n N -> sized xs ->
  Dgeev.ritz_assembled xs (map M xs) (map N xs) v space ne = Ok (x0, ax0, bx0) ->
  Dgeev.ritz_vectors xs v space ne = Ok x0 /\ ax0 = map M x0 /\ bx0 = map N x0.
Proof.
  intros HM HN Hx. unfold Dgeev.ritz_assembled, Dgeev.ritz_vectors.
  intros E. apply bind_ok in E as (r & E1 & E2).
  pose (R := fun (t : list vec * list vec * list vec) (s : list vec) =>
               t = (s, map M s, map N s) /\ sized s).
  destruct HM as (M1 & M2 & M3 & M4). destruct HN as (N1 & N2 & N3 & N4).
  match type of E1 with
  | foldM ?f0 ?l0 ?t0 = _ =>
      match goal with
      | |- bind (foldM ?g0 _ ?s0) _ = _ /\ _ =>
          destruct (@foldM_simulation _ _ _ R f0 g0 l0) with (t := t0) (s := s0) (t' := r)
            as (s1 & Es1 & R1); [| split; [reflexivity|constructor] | exact E1 |]
      end
  end.
  { intros t s k t' [-> Hs]. cbv beta iota. intros E.
    apply bind_ok in E as (xl & El & E). apply bind_ok in E as (c & Ec & E).
    rewrite El, Ec. cbn [bind]. revert E. rewrite !getitem_map, El. cbn [bind].
    intros E. apply Ok_inj in E. subst t'.
    assert (length xl = n) as La by (eapply (getitem_Forall _ Hx); exact El).
    eexists; split; [reflexivity|]. split.
    - rewrite !map_app. cbn [map]. rewrite M2, N2 by exact La. reflexivity.
    - apply Forall_app; split; [exact Hs|]. constructor; [|constructor].
      unfold vmul_r. rewrite length_map. exact La. }
  rewrite Es1. cbn [bind]. clear E1 Es1.
  match type of E2 with
  | foldM ?f0 ?l0 ?t0 = _ =>
      match goal with
      | |- foldM ?g0 _ ?s0 = _ /\ _ =>
          destruct (@foldM_simulation _ _ _ R f0 g0 l0) with (t := t0) (s := s0)
                                                             (t' := (x0, ax0, bx0))
            as (s2 & Es2 & R2); [| exact R1 | exact E2 |]
      end
  end.
  { intros t s i t' Rt E. apply bind_ok in E as (xsi & Ei & E3).
    rewrite Ei. cbn [bind]. revert E3. rewrite !getitem_map, Ei. cbn [bind].
    assert (length xsi = n) as La by (eapply (getitem_Forall _ Hx); exact Ei).
    intros E3.
    match type of E3 with
    | foldM ?f0 ?l0 _ = _ =>
        match goal with
        | |- exists s', foldM ?g0 _ _ = _ /\ _ =>
            apply (@foldM_simulation _ _ _ R f0 g0 l0) with (t := t); [| exact Rt | exact E3]
        end
    end.
    intros t0 s0 k t0' [-> Hs0]. cbv beta iota. intros E.
    apply bind_ok in E as (xk & Ek & E). apply bind_ok in E as (c & Ec & E).
    rewrite Ek, Ec. cbn [bind]. revert E.
    assert (length xk = n) as Lk by (eapply (getitem_Forall _ Hs0); exact Ek).
    assert (forall y : vec, length y = n -> length (vmul_l c y) = n) as Lv
        by (intros y Ly; unfold vmul_l; rewrite length_map; exact Ly).
    rewrite !getitem_map, Ek. cbn [bind].
    rewrite !inplace_same_length by (rewrite Lv; auto; rewrite M1 || rewrite N1; auto).
    cbn [bind]. intros E. apply Ok_inj in E. subst t0'.
    eexists; split; [reflexivity|]. split.
    - rewrite !map_set_nth, M4, N4, M3, N3; auto.
    - apply Forall_set_nth; [exact Hs0|]. rewrite zipw_length; rewrite ?Lv; auto. }
  destruct R2 as [R2 _]. injection R2 as -> -> ->. auto.
Qed.

(** Both strategies of lines 164-189 give the Ritz vectors and their
    images under the operators. *)
Lemma dgeev_ritz_images type lessio incore (xs : list vec) (v : matrix)
      space ne x0 ax0 bx0 :
  sized xs ->
  Dgeev.ritz abop type lessio incore xs (map (image A B type) xs) (map B xs)
             v space ne = Ok (x0, ax0, bx0) ->
  Dgeev.ritz_vectors xs v space ne = Ok x0 /\
  ax0 = map (image A B type) x0 /\ bx0 = map B x0.
Proof.
  intros Hx. unfold Dgeev.ritz. destruct (lessio && negb incore).
  - peel1. pose proof (ritz_vectors_sized _ _ _ Hx E) as Ha.
    destruct exact as (HA & HB & Habop & _).
    rewrite (Habop _ Ha). cbn [bind]. unfold image.
    destruct (1 <? type)%Z;
      [rewrite (Habop _ (map_sized HB Ha)); cbn [bind]; rewrite map_map|];
      intros E'; injection E' as <- <- <-; auto.
  - destruct exact as (HA & HB & _).
    apply dgeev_ritz_assembled_images; [apply linear_on_image| |]; assumption.
Qed.

Lemma dgeev_begin_cycle_stores type nroots (st st' : Dgeev.state) :
  dgeev_stores n A B type st -> Dgeev.begin_cycle nroots st = Ok st' ->
  dgeev_stores n A B type st'.
Proof.
  intros (Hxs & Hax & Hbx & Hxt & Hx0). unfold Dgeev.begin_cycle.
  repeat peel1; intros E'; apply Ok_inj in E'; subst st'; unfold dgeev_stores;
    cbn [Dgeev.xs Dgeev.ax Dgeev.bx Dgeev.xt Dgeev.x0 map].
  - repeat split; try constructor. eapply qr_sized; [exact Hx0|eassumption].
  - repeat split; try assumption. apply firstn_sized.
    eapply qr_sized; [exact Hxt|eassumption].
  - repeat split; assumption.
Qed.


(** Two cycles from one state whose stores hold the images of the basis
    land in the same state, whatever [_incore], [lessio] and the callback,
    and the stores still hold the images. *)
Lemma dgeev_cycle_storage type tol toloose max_space nroots lessio1 lessio2
      incore1 incore2 notify1 notify2 icyc st c1 c2 :
  dgeev_stores n A B type st ->
  Dgeev.cycle abop precond dot eigh type tol toloose max_space nroots lessio1
              incore1 notify1 icyc st = Ok c1 ->
  Dgeev.cycle abop precond dot eigh type tol toloose max_space nroots lessio2
              incore2 notify2 icyc st = Ok c2 ->
  c1 = c2 /\ dgeev_stores n A B type (landing c1).
Proof.
  intros Hst. pose proof exact as (HA & HB & _ & _ & Hprecond).
  pose proof (linear_on_image type HA HB) as HI.
  unfold Dgeev.cycle. cbv zeta. to_ritz.
  match goal with
  | Eb : Dgeev.begin_cycle _ _ = Ok ?s |- _ =>
      apply (dgeev_begin_cycle_stores _ Hst) in Eb;
      destruct Eb as (Hxs & Hax & Hbx & Hxt & _);
      assert (sized (Dgeev.xs s ++ Dgeev.xt s)) as Hxs' by (apply Forall_app; auto)
  end.
  match goal with
  | Ea : Dgeev.apply_operator _ _ _ = Ok _ |- _ =>
      rewrite (apply_operator_images type Hxt) in Ea; apply Ok_inj in Ea;
      injection Ea as <- <-
  end.
  match goal with
  | Ep : Dgeev.append_trials _ _ _ = Ok _ |- _ =>
      apply dgeev_append_trials_ok in Ep as (-> & -> & ->)
  end.
  rewrite Hax, Hbx, !firstn_length_map, <- !map_app.
  intros H1 H2.
  apply bind_ok in H1 as ([[x01 ax01] bx01] & R1 & K1).
  apply bind_ok in H2 as ([[x02 ax02] bx02] & R2 & K2).
  eapply dgeev_ritz_images in R1; [|exact Hxs']. destruct R1 as (V1 & -> & ->).
  eapply dgeev_ritz_images in R2; [|exact Hxs']. destruct R2 as (V2 & -> & ->).
  assert (x02 = x01) as -> by congruence. clear V2.
  apply ritz_vectors_sized with (n := n) in V1; [|exact Hxs'].
  pose proof (map_sized HI V1) as Va. pose proof (map_sized HB V1) as Vb.
  revert K1 K2. cbv beta iota. repeat peel;
    (intros E1; try peel; intros E2; apply Ok_inj in E1, E2; subst c1 c2;
     split; [reflexivity|]);
    repeat match goal with
           | E : Dgeev.residuals _ _ _ _ _ = Ok _ |- _ =>
               eapply dgeev_residuals_sized in E; [|eassumption..]
           | E : precondition _ _ _ _ _ _ = Ok _ |- _ =>
               eapply precondition_sized in E; [|eassumption..]
           | E : project_out _ _ _ = Ok _ |- _ =>
               eapply project_out_sized in E; [|eassumption]
           end;
    unfold dgeev_stores;
    cbn [landing Dgeev.xs Dgeev.ax Dgeev.bx Dgeev.xt Dgeev.x0];
    repeat split; try assumption; try reflexivity; apply prune_sized; assumption.
Qed.


(** The same for [eig] (lines 339-358). *)
Lemma eig_ritz_assembled_images (M : vec -> vec) (xs : list vec)
      (v : matrix) space ne x0 ax0 :
  linear_on n M -> sized xs ->
  Eig.ritz_assembled xs (map M xs) v space ne = Ok (x0, ax0) ->
  Eig.ritz_vectors xs v space ne = Ok x0 /\ ax0 = map M x0.
Proof.
  intros HM Hx. unfold Eig.ritz_assembled, Eig.ritz_vectors.
  intros E. apply bind_ok in E as (r & E1 & E2).
  pose (R := fun (t : list vec * list vec) (s : list vec) =>
               t = (s, map M s) /\ sized s).
  destruct HM as (M1 & M2 & M3 & M4).
  match type of E1 with
  | foldM ?f0 ?l0 ?t0 = _ =>
      match goal with
      | |- bind (foldM ?g0 _ ?s0) _ = _ /\ _ =>
          destruct (@foldM_simulation _ _ _ R f0 g0 l0) with (t := t0) (s := s0) (t' := r)
            as (s1 & Es1 & R1); [| split; [reflexivity|constructor] | exact E1 |]
      end
  end.
  { intros t s k t' [-> Hs]. cbv beta iota. intros E.
    apply bind_ok in E as (xl & El & E). apply bind_ok in E as (c & Ec & E).
    rewrite El, Ec. cbn [bind]. revert E. rewrite !getitem_map, El. cbn [bind].
    intros E. apply Ok_inj in E. subst t'.
    assert (length xl = n) as La by (eapply (getitem_Forall _ Hx); exact El).
    eexists; split; [reflexivity|]. split.
    - rewrite !map_app. cbn [map]. rewrite M2 by exact La. reflexivity.
    - apply Forall_app; split; [exact Hs|]. constructor; [|constructor].
      unfold vmul_r. rewrite length_map. exact La. }
  rewrite Es1. cbn [bind]. clear E1 Es1.
  match type of E2 with
  | foldM ?f0 ?l0 ?t0 = _ =>
      match goal with
      | |- foldM ?g0 _ ?s0 = _ /\ _ =>
          destruct (@foldM_simulation _ _ _ R f0 g0 l0) with (t := t0) (s := s0)
                                                             (t' := (x0, ax0))
            as (s2 & Es2 & R2); [| exact R1 | exact E2 |]
      end
  end.
  { intros t s i t' Rt E. apply bind_ok in E as (xsi & Ei & E3).
    rewrite Ei. cbn [bind]. revert E3. rewrite !getitem_map, Ei. cbn [bind].
    assert (length xsi = n) as La by (eapply (getitem_Forall _ Hx); exact Ei).
    intros E3.
    match type of E3 with
    | foldM ?f0 ?l0 _ = _ =>
        match goal with
        | |- exists s', foldM ?g0 _ _ = _ /\ _ =>
            apply (@foldM_simulation _ _ _ R f0 g0 l0) with (t := t); [| exact Rt | exact E3]
        end
    end.
    intros t0 s0 k t0' [-> Hs0]. cbv beta iota. intros E.
    apply bind_ok in E as (xk & Ek & E). apply bind_ok in E as (c & Ec & E).
    rewrite Ek, Ec. cbn [bind]. revert E.
    assert (length xk = n) as Lk by (eapply (getitem_Forall _ Hs0); exact Ek).
    assert (forall y : vec, length y = n -> length (vmul_l c y) = n) as Lv
        by (intros y Ly; unfold vmul_l; rewrite length_map; exact Ly).
    rewrite !getitem_map, Ek. cbn [bind].
    rewrite !inplace_same_length by (rewrite Lv; auto; rewrite M1; auto).
    cbn [bind]. intros E. apply Ok_inj in E. subst t0'.
    eexists; split; [reflexivity|]. split.
    - rewrite !map_set_nth, M4, M3; auto.
    - apply Forall_set_nth; [exact Hs0|]. rewrite zipw_length; rewrite ?Lv; auto. }
  destruct R2 as [R2 _]. injection R2 as -> ->. auto.
Qed.

Lemma eig_ritz_images lessio incore (xs : list vec) (v : matrix)
      space ne x0 ax0 :
  sized xs ->
  Eig.ritz aop lessio incore xs (map A xs) v space ne = Ok (x0, ax0) ->
  Eig.ritz_vectors xs v space ne = Ok x0 /\ ax0 = map A x0.
Proof.
  intros Hx. unfold Eig.ritz. destruct (lessio && negb incore).
  - peel1. pose proof (eig_ritz_vectors_sized _ _ _ Hx E) as Ha.
    destruct exact as (HA & HB & _ & Haop & _).
    rewrite (Haop _ Ha). cbn [bind].
    intros E'; injection E' as <- <-; auto.
  - destruct exact as (HA & _).
    apply eig_ritz_assembled_images; assumption.
Qed.

Lemma eig_begin_cycle_stores nroots (st st' : Eig.state) :
  eig_stores n A st -> Eig.begin_cycle nroots st = Ok st' ->
  eig_stores n A st'.
Proof.
  intros (Hxs & Hax & Hxt & Hx0). unfold Eig.begin_cycle.
  repeat peel1; intros E'; apply Ok_inj in E'; subst st'; unfold eig_stores;
    cbn [Eig.xs Eig.ax Eig.xt Eig.x0 map].
  - repeat split; try constructor. eapply qr_sized; [exact Hx0|eassumption].
  - repeat split; try assumption. apply firstn_sized.
    eapply qr_sized; [exact Hxt|eassumption].
  - repeat split; assumption.
Qed.

Lemma eig_cycle_storage tol toloose max_space nroots lessio1 lessio2
      incore1 incore2 notify1 notify2 icyc st c1 c2 :
  eig_stores n A st ->
  Eig.cycle aop precond dot pick eigs tol toloose max_space nroots lessio1
            incore1 notify1 icyc st = Ok c1 ->
  Eig.cycle aop precond dot pick eigs tol toloose max_space nroots lessio2
            incore2 notify2 icyc st = Ok c2 ->
  c1 = c2 /\ eig_stores n A (landing c1).
Proof.
  intros Hst. pose proof exact as (HA & HB & _ & Haop & Hprecond).
  unfold Eig.cycle. cbv zeta. to_ritz.
  match goal with
  | Eb : Eig.begin_cycle _ _ = Ok ?s |- _ =>
      apply (eig_begin_cycle_stores _ Hst) in Eb;
      destruct Eb as (Hxs & Hax & Hxt & _);
      assert (sized (Eig.xs s ++ Eig.xt s)) as Hxs' by (apply Forall_app; auto)
  end.
  match goal with
  | Ea : aop _ = Ok ?axt |- _ =>
      rewrite (Haop _ Hxt) in Ea; apply Ok_inj in Ea; subst axt
  end.
  match goal with
  | Ep : Eig.append_trials _ _ = Ok _ |- _ =>
      apply eig_append_trials_ok in Ep as (-> & ->)
  end.
  rewrite Hax, !firstn_length_map, <- !map_app.
  intros H1 H2.
  apply bind_ok in H1 as ([x01 ax01] & R1 & K1).
  apply bind_ok in H2 as ([x02 ax02] & R2 & K2).
  eapply eig_ritz_images in R1; [|exact Hxs']. destruct R1 as (V1 & ->).
  eapply eig_ritz_images in R2; [|exact Hxs']. destruct R2 as (V2 & ->).
  assert (x02 = x01) as -> by congruence. clear V2.
  apply eig_ritz_vectors_sized with (n := n) in V1; [|exact Hxs'].
  pose proof (map_sized HA V1) as Va.
  revert K1 K2. cbv beta iota. repeat peel;
    (intros E1; try peel; intros E2; apply Ok_inj in E1, E2; subst c1 c2;
     split; [reflexivity|]);
    repeat match goal with
           | E : Eig.residuals _ _ _ = Ok _ |- _ =>
               eapply eig_residuals_sized in E; [|eassumption..]
           | E : precondition _ _ _ _ _ _ = Ok _ |- _ =>
               eapply precondition_sized in E; [|eassumption..]
           | E : Eig.project_out _ _ _ = Ok _ |- _ =>
               eapply eig_project_out_sized in E; [|eassumption]
           end;
    unfold eig_stores;
    cbn [landing Eig.xs Eig.ax Eig.xt Eig.x0];
    repeat split; try assumption; try reflexivity; apply prune_sized; assumption.
Qed.

End Linear.


End Storage.

(** In exact arithmetic every dense matrix with [n] rows is such an
    operator on the vectors of dimension [n]. *)
Section DenseOperators.
Context {F : Type} `{Scalar F}.
Local Abbreviation vec := (list F).

Hypothesis exact : exact_arithmetic.

Add Ring dense_ring : (ex_ring exact).

Lemma dotsum_add_r (z x y : vec) :
  length x = length y ->
  dotsum z (zipw add x y) = add (dotsum z x) (dotsum z y).
Proof.
  revert x y; induction z as [|c z IH]; intros [|a x] [|b y] L;
    simpl in *; try discriminate;
    rewrite ?dotsum_nil_l, ?dotsum_nil_r, ?(dotsum_cons exact); try ring.
  rewrite IH by lia. ring.
Qed.

Lemma dotsum_scale_r (z x : vec) (c : F) :
  dotsum z (vmul_r x c) = mul (dotsum z x) c.
Proof.
  rewrite (dotsum_comm exact), (dotsum_vmul_r exact), (dotsum_comm exact).
  reflexivity.
Qed.

Lemma dense_linear (n : nat) (a : list vec) :
  length a = n -> linear_on n (dense a).
Proof.
  intros La. unfold dense. repeat split.
  - intros x _. rewrite length_map. exact La.
  - intros x c _. unfold vmul_r at 2. rewrite map_map.
    apply map_ext. intros row. apply dotsum_scale_r.
  - intros x c _. unfold vmul_l at 2. rewrite map_map.
    apply map_ext. intros row.
    replace (vmul_l c x) with (vmul_r x c)
      by (apply map_ext; intros; ring).
    rewrite dotsum_scale_r. ring.
  - intros x y Lx Ly. clear La.
    induction a as [|row a IH]; simpl; [reflexivity|].
    rewrite IH, dotsum_add_r by congruence. reflexivity.
Qed.

End DenseOperators.

(** ** Concrete runs in IEEE binary64 *)

Module FltRuns.
Import Floats Flt.

(** A call with the defaults [tol=1e-14, max_cycle=50, max_space=12,
    lindep=1e-14, max_memory=2000, dot=numpy.dot, callback=None], the dense
    operators [a] and [b] and the preconditioner [r/(a.diagonal() - e0)]. *)
Local Abbreviation dgeev_dense a b x0 type max_space nroots :=
  (Dgeev.dgeev (dense_abop a b) (dense_abop1 a b) (diag_precond (diagonal a 0))
               npdot eigh_diagonal x0 type tol_default 50%Z max_space
               lindep_default 2000%Z None nroots false).
Local Abbreviation dgeev_dense_run a b x0 type max_space nroots :=
  (Dgeev.run (dense_abop a b) (diag_precond (diagonal a 0))
             npdot eigh_diagonal x0 type tol_default 50%Z max_space
             lindep_default 2000%Z None nroots false).
Local Abbreviation eig_dense a x0 max_space nroots :=
  (Eig.eig (dense_aop a) (diag_precond (diagonal a 0)) npdot pick_default
           eigs_diagonal x0 tol_default 50%Z max_space lindep_default 2000%Z
           None nroots false false).
Local Abbreviation eig_dense_run a x0 max_space nroots :=
  (Eig.run (dense_aop a) (diag_precond (diagonal a 0)) npdot pick_default
           eigs_diagonal x0 tol_default 50%Z max_space lindep_default 2000%Z
           None nroots false false).

(** C1 fails as stated.  With [A = B = I], the single guess [(1,0)] and
    [nroots = 2], the first solve has one eigenvalue, the residual is zero
    and the call returns one eigenvalue and one vector, not two. *)
Lemma two_roots_asked_one_returned :
  dgeev_dense eye2 eye2 (OneVector [1; 0]%float) 1%Z 12 2
  = Ok (RetMany [1%float] [[1; 0]%float]) /\
  eig_dense eye2 (OneVector [1; 0]%float) 12 2
  = Ok (RetMany [1%float] [[1; 0]%float]).
Proof. split; vm_compute; reflexivity. Qed.


(** C3: the deltas of the first solve are not skipped.  For
    [A = [[0,1],[1,0]]], whose eigenvalues are -1 and 1, and the guess
    [(1,0)], the first solve gives the eigenvalue 0; its delta against the
    zero-initialized eigenvalues is 0, the test [abs(de[ide]) < tol] fires
    in the very first cycle and 0 is returned with the guess, which is no
    eigenpair: [A (1,0) = (0,1)].  With the guess [(1,-1)] the first solve
    gives about -1, the same test does not fire on the delta -1 and the
    loop is left by the test on the residuals. *)
Lemma delta_test_fires_on_first_solve :
  how_ended (dgeev_dense_run swap2 eye2 (OneVector [1; 0]%float) 1%Z 12 1)
  = Some (1, Ok ConvergedDe) /\
  dgeev_dense swap2 eye2 (OneVector [1; 0]%float) 1%Z 12 1
  = Ok (RetOne 0%float [1; 0]%float) /\
  how_ended (eig_dense_run swap2 (OneVector [1; 0]%float) 12 1)
  = Some (1, Ok ConvergedDe) /\
  eig_dense swap2 (OneVector [1; 0]%float) 12 1
  = Ok (RetOne 0%float [1; 0]%float) /\
  dense_aop swap2 [[1; 0]%float] = Ok [[0; 1]%float] /\
  how_ended (dgeev_dense_run swap2 eye2 (OneVector [1; -1]%float) 1%Z 12 1)
  = Some (1, Ok ConvergedRes) /\
  how_ended (eig_dense_run swap2 (OneVector [1; -1]%float) 12 1)
  = Some (1, Ok ConvergedRes) /\
  (exists e x,
      dgeev_dense swap2 eye2 (OneVector [1; -1]%float) 1%Z 12 1
      = Ok (RetOne e x) /\ ltb e (-0.5)%float = true) /\
  (exists e x,
      eig_dense swap2 (OneVector [1; -1]%float) 12 1 = Ok (RetOne e x) /\
      ltb e (-0.5)%float = true).
Proof.
  repeat match goal with
         | |- _ /\ _ => split
         | |- exists _, _ => eexists
         end; vm_compute; reflexivity.
Qed.

(** C5.  For [A = [[1,1],[1,3]]], [B = I], the guess [(1,0)] and
    [nroots = 2], the preconditioned residual [(0/0, 1/2)] is not a
    number, no trial vector survives and the loop stops on 'Linear
    dependency in trial subspace' with one Ritz vector.  With [type = 1]
    the call returns it; with [type = 3] the conversion after the loop
    reads [x0[1]] and raises [IndexError]. *)
Lemma exhaustion_with_type_3_raises :
  how_ended (dgeev_dense_run sym13 eye2 (OneVector [1; 0]%float) 3%Z 12 2)
  = Some (1, Ok LinearDep) /\
  dgeev_dense sym13 eye2 (OneVector [1; 0]%float) 3%Z 12 2 = Raise IndexError /\
  dgeev_dense sym13 eye2 (OneVector [1; 0]%float) 1%Z 12 2
  = Ok (RetMany [1%float] [[1; 0]%float]).
Proof. repeat split; vm_compute; reflexivity. Qed.

(** C7 fails as stated.  With the guess [(1,0)] and an operator that
    returns images of dimension 3, the error is raised inside the first
    cycle, after the operator was applied. *)
Lemma mismatch_is_found_inside_the_loop :
  how_ended (dgeev_dense_run tall32 tall32 (OneVector [1; 0]%float) 1%Z 12 1)
  = Some (1, Raise ValueError) /\
  how_ended (eig_dense_run tall32 (OneVector [1; 0]%float) 12 1)
  = Some (1, Raise ValueError).
Proof. split; vm_compute; reflexivity. Qed.

End FltRuns.

(** ** The theorems at concrete inputs *)

Module FltWitnesses.
Import Floats Flt.

Lemma cycles_at_most_witness :
  (forall o,
      Dgeev.run (dense_abop swap2 eye2) (diag_precond [0; 0]%float) npdot
                eigh_diagonal (OneVector [1; 0]%float) 1%Z tol_default 50%Z 12
                lindep_default 2000%Z None 1 false = Ok o ->
      (Z.of_nat (cycles o) <= Z.min 50 (Z.of_nat (length [1; 0]%float)))%Z) /\
  (forall o,
      Eig.run (dense_aop swap2) (diag_precond [0; 0]%float) npdot pick_default
              eigs_diagonal (OneVector [1; 0]%float) tol_default 50%Z 12
              lindep_default 2000%Z None 1 false false = Ok o ->
      (Z.of_nat (cycles o) <= Z.min 50 (Z.of_nat (length [1; 0]%float)))%Z).
Proof.
  apply (cycles_at_most_min_max_cycle_size
           (dense_abop swap2 eye2) (dense_aop swap2) (diag_precond [0; 0]%float)
           npdot eigh_diagonal eigs_diagonal pick_default
           (OneVector [1; 0]%float)).
  - reflexivity.
  - lia.
Defined.

Lemma lindep_witness :
  exists r1 r2,
    Dgeev.dgeev (dense_abop diag12 eye2) (dense_abop1 diag12 eye2)
                (diag_precond [1; 2]%float) npdot eigh_diagonal
                (OneVector [1; 0]%float) 1%Z tol_default 50%Z 12
                lindep_default 2000%Z None 1 false = Ok r1 /\
    Dgeev.dgeev (dense_abop diag12 eye2) (dense_abop1 diag12 eye2)
                (diag_precond [1; 2]%float) npdot eigh_diagonal
                (OneVector [1; 0]%float) 1%Z tol_default 50%Z 12
                0.5%float 2000%Z None 1 false = Ok r2 /\
    r1 = r2.
Proof.
  eexists; eexists.
  split; [vm_compute; reflexivity|].
  split; [vm_compute; reflexivity|].
  eapply (proj1 (lindep_has_no_effect
                   (dense_abop diag12 eye2) (dense_abop1 diag12 eye2)
                   (dense_aop diag12) (diag_precond [1; 2]%float) npdot
                   eigh_diagonal eigs_diagonal pick_default
                   (OneVector [1; 0]%float) 1%Z tol_default 50%Z 12
                   lindep_default 0.5%float 2000%Z None None 1 false false));
    vm_compute; reflexivity.
Defined.

Lemma pickeig_witness :
  let w := [(3, 0); (1, 0); (2, 1); (0.5, 0)]%float in
  let idx := pickeig w [] 2 in
  length idx <= 2 /\ ascending (map (fun i => re (nth i w czero)) idx).
Proof.
  intros w idx.
  destruct (@pickeig_lowest_real_eigenvalues _ _
              (fun a => In a [3; 1; 0.5]%float)) with (w := w) (v := @nil (list (float * float))) (nroots := 2)
    as (Hle & _ & _ & Hasc & _).
  - intros a b [<-|[<-|[<-|[]]]] [<-|[<-|[<-|[]]]]; vm_compute; auto.
  - intros a b c [<-|[<-|[<-|[]]]] [<-|[<-|[<-|[]]]] [<-|[<-|[<-|[]]]];
      vm_compute; intros; congruence.
  - vm_compute. repeat (apply Forall_cons; [auto 6|]). apply Forall_nil.
  - split; assumption.
Defined.

Lemma matvec_tall_length (x : list float) : length (matvec tall32 x) <> 2.
Proof. unfold matvec, tall32. rewrite length_map. simpl. lia. Qed.

Lemma exchange_exact :
  exact_operators 2 (@rev float) (fun x => x) exchange_abop exchange_aop
                  (diag_precond [0; 0]%float).
Proof.
  assert (forall x : list float, length x = 2 -> exists a b, x = [a; b]) as two.
  { intros [|a [|b [|c x]]]; try discriminate. eauto. }
  repeat split; try reflexivity.
  - intros x L. rewrite length_rev. exact L.
  - intros x c _. unfold vmul_r. rewrite map_rev. reflexivity.
  - intros x c _. unfold vmul_l. rewrite map_rev. reflexivity.
  - intros x y Lx Ly. destruct (two x Lx) as (a & b & ->).
    destruct (two y Ly) as (c & d & ->). reflexivity.
  - intros x L. exact L.
  - intros r e x p Lr _. destruct (two r Lr) as (a & b & ->).
    unfold diag_precond, broadcast. cbn [length map Nat.eqb zipw bind].
    intros E. apply Ok_inj in E. subst p. reflexivity.
Qed.


End FltWitnesses.

Module RealWitnesses.
Import Reals Lra Real.
Local Open Scope R_scope.

Lemma real_exact : exact_arithmetic (F := R).
Proof.
  constructor; simpl.
  - constructor; intros; simpl; ring.
  - intros a b. unfold Rdiv. ring.
  - intros a Ha. field. exact Ha.
  - intros a. destruct (Rle_dec 0 a) as [Ha|Ha]; [|discriminate].
    intros _. apply sqrt_sqrt, Ha.
  - apply sqrt_1.
  - intros a. destruct (Rle_dec 0 (a * a)) as [Ha|Ha]; [reflexivity|].
    exfalso. apply Ha. apply Rle_0_sqr.
  - intros a b.
    destruct (Rle_dec 0 a) as [Ha|Ha]; [|discriminate].
    destruct (Rle_dec 0 b) as [Hb|Hb]; [|discriminate].
    destruct (Rle_dec 0 (a + b)) as [Hab|Hab]; [reflexivity|].
    exfalso. apply Hab. lra.
  - destruct (Rle_dec 0 0) as [Ha|Ha]; [reflexivity|]. exfalso. apply Ha. lra.
  - intros a b.
    destruct (Rle_dec 0 a) as [Ha|Ha]; [|discriminate].
    destruct (Rle_dec 0 b) as [Hb|Hb]; [|discriminate].
    intros _ _ E. split; lra.
  - intros a E. apply Rmult_integral in E. tauto.
  - destruct (Rlt_dec (/ 10000000) 0) as [Ha|Ha]; [|reflexivity].
    exfalso. assert (0 < / 10000000) by (apply Rinv_0_lt_compat; lra). lra.
Qed.

Lemma qr_gram_schmidt_witness :
  let x := [3; 4] in
  let xs := [[1; 0]] in
  let qs := gram_schmidt [vdiv x (norm x)] xs in
  qr (x :: xs) = Ok qs /\
  (exists rest, qs = vdiv x (norm x) :: rest) /\
  orthonormal qs.
Proof.
  apply (@qr_gram_schmidt R Real.scalar real_exact 2).
  - repeat constructor.
  - constructor; [exists 3; split; [left; reflexivity|simpl; lra]|].
    constructor; [exists 1; split; [left; reflexivity|simpl; lra]|constructor].
Defined.

End RealWitnesses.

(** * Further properties of the solvers *)

(** ** The orthogonalizer on any input *)

Section QrOutcome.
Context {F : Type} `{Scalar F}.
Local Abbreviation vec := (list F).

Lemma qr_project_same_length (n : nat) (qs : list vec) (x : vec) :
  Forall (fun q => length q = n) qs -> length x = n ->
  exists r, qr_project qs x = Ok r /\ length r = n.
Proof.
  unfold qr_project. intros Hq. revert x.
  induction Hq as [|q qs Lq Hq IH]; intros x Lx; cbn [foldM].
  - exists x; auto.
  - rewrite npdot_same_length by congruence. cbn [bind].
    rewrite inplace_same_length
      by (unfold vmul_r; rewrite length_map; congruence).
    cbn [bind]. apply IH. rewrite zipw_length; [exact Lx|].
    unfold vmul_r; rewrite length_map; congruence.
Qed.

Lemma qr_project_other_length (q : vec) (qs : list vec) (x : vec) :
  length q <> length x -> qr_project (q :: qs) x = Raise ValueError.
Proof.
  intros L. unfold qr_project, npdot. cbn [foldM].
  apply Nat.eqb_neq in L. rewrite L. reflexivity.
Qed.

Lemma qr_fold_outcome (n : nat) (rest acc : list vec) :
  acc <> [] -> Forall (fun q => length q = n) acc ->
  if forallb (fun y => length y =? n) rest
  then exists qs, foldM qr_step rest acc = Ok qs /\
                  length acc <= length qs <= length acc + length rest /\
                  Forall (fun q => length q = n) qs
  else foldM qr_step rest acc = Raise ValueError.
Proof.
  revert acc; induction rest as [|y rest IH]; intros acc Hne Hacc; cbn [forallb foldM].
  - exists acc. split; [reflexivity|]. split; [lia|exact Hacc].
  - destruct (length y =? n) eqn:Ly; cbn [andb].
    + apply Nat.eqb_eq in Ly.
      destruct (qr_project_same_length y Hacc Ly) as (r & Er & Lr).
      assert (qr_step acc y
              = Ok (if ltb c1em7 (norm r) then acc ++ [vdiv r (norm r)] else acc))
        as Es.
      { unfold qr_step. rewrite Er. cbn [bind].
        destruct (ltb c1em7 (norm r)); reflexivity. }
      rewrite Es. cbn [bind]. clear Es.
      destruct (ltb c1em7 (norm r)).
      * assert (Forall (fun q => length q = n) (acc ++ [vdiv r (norm r)])) as Hacc'.
        { apply Forall_app; split; [exact Hacc|]. constructor; [|constructor].
          unfold vdiv. rewrite length_map. exact Lr. }
        assert (acc ++ [vdiv r (norm r)] <> []) as Hne'
            by (intros E; apply app_eq_nil in E as [_ E]; discriminate).
        specialize (IH _ Hne' Hacc'). rewrite length_app in IH. cbn [length] in *.
        destruct (forallb _ rest); [|exact IH].
        destruct IH as (qs & E & Hl & Hs). exists qs. repeat split; try assumption; lia.
      * specialize (IH _ Hne Hacc). cbn [length].
        destruct (forallb _ rest); [|exact IH].
        destruct IH as (qs & E & Hl & Hs). exists qs. repeat split; try assumption; lia.
    + apply Nat.eqb_neq in Ly. destruct acc as [|q acc]; [congruence|].
      assert (qr_step (q :: acc) y = Raise ValueError) as Es.
      { unfold qr_step. rewrite qr_project_other_length; [reflexivity|].
        inversion Hacc; subst. congruence. }
      rewrite Es. reflexivity.
Qed.

(** X1.  [qr] reads [xs[0]], so the empty sequence raises [IndexError].
    Otherwise the vectors are projected by [numpy.dot], which wants equal
    sizes: when every vector has the size of the first, [qr] returns
    between one vector and as many as it was given, all of that size,
    whatever the values (a zero vector or a NaN raises nothing); when one
    has another size, [qr] raises [ValueError]. *)
Theorem qr_outcome (xs : list vec) :
  match xs with
  | [] => qr xs = Raise IndexError
  | x :: rest =>
      if forallb (fun y => length y =? length x) rest
      then exists qs, qr xs = Ok qs /\ 1 <= length qs <= length xs /\
                      Forall (fun q => length q = length x) qs
      else qr xs = Raise ValueError
  end.
Proof.
  destruct xs as [|x rest]; [reflexivity|].
  unfold qr. cbn [getitem nth_error bind tl].
  assert ([vdiv x (norm x)] <> []) as Hne by discriminate.
  assert (Forall (fun q => length q = length x) [vdiv x (norm x)]) as Hs.
  { constructor; [|constructor]. unfold vdiv. apply length_map. }
  pose proof (qr_fold_outcome rest Hne Hs) as Hf. cbn [length] in *.
  destruct (forallb _ rest); [|exact Hf].
  destruct Hf as (qs & E & Hl & Hq). exists qs. repeat split; try assumption; lia.
Qed.

End QrOutcome.

(** ** The positions selected by [pickeig] *)

Section SelectorPositions.
Context {F : Type} `{Scalar F}.
Local Abbreviation complex := (F * F)%type.

Lemma where_from_NoDup {A} (p : A -> bool) (l : list A) (s : nat) :
  NoDup (where_from p l s).
Proof.
  revert s; induction l as [|a l IH]; intros s; cbn [where_from]; [constructor|].
  destruct (p a); [|apply IH].
  constructor; [|apply IH].
  intros Hin. apply where_from_in in Hin as [Hle _]. lia.
Qed.

Lemma map_snd_combine_seq {A} (keys : list A) (s : nat) :
  map snd (combine keys (seq s (length keys))) = seq s (length keys).
Proof.
  revert s; induction keys as [|k keys IH]; intros s; simpl; [reflexivity|].
  rewrite IH. reflexivity.
Qed.

Lemma argsort_perm (keys : list F) :
  Permutation (argsort keys) (seq 0 (length keys)).
Proof.
  unfold argsort. rewrite <- (map_snd_combine_seq keys 0) at 2.
  apply Permutation_map, sort_keys_perm.
Qed.

Lemma firstn_NoDup {A} (n : nat) (l : list A) : NoDup l -> NoDup (firstn n l).
Proof.
  intros Hl. rewrite <- (firstn_skipn n l) in Hl.
  exact (NoDup_app_remove_r _ _ Hl).
Qed.

Lemma pickeig_positions
      (w : list complex) (v : list (list complex)) (nroots : nat) :
  NoDup (pickeig w v nroots) /\
  Forall (fun i => i < length w) (pickeig w v nroots) /\
  length (pickeig w v nroots)
  = Nat.min nroots (length (filter (fun z => eqb (im z) zero) w)).
Proof.
  unfold pickeig.
  set (realidx := where_from (fun z => eqb (im z) zero) w 0).
  set (keys := map (fun i => re (nth i w czero)) realidx).
  assert (length keys = length realidx) as Lk by apply length_map.
  assert (forall j, In j (firstn nroots (argsort keys)) -> j < length realidx)
    as Hj.
  { intros j Hin. apply in_firstn in Hin.
    apply (Permutation_in _ (argsort_perm keys)) in Hin.
    apply in_seq in Hin. lia. }
  split; [|split].
  - apply NoDup_map_NoDup_ForallPairs.
    + intros i j Hi Hj' E.
      apply (proj1 (NoDup_nth realidx 0) (where_from_NoDup _ w 0)); auto.
    + apply firstn_NoDup.
      apply (Permutation_NoDup (Permutation_sym (argsort_perm keys))).
      apply seq_NoDup.
  - apply Forall_forall. intros i Hin. apply in_map_iff in Hin as (j & <- & Hin).
    pose proof (nth_In realidx 0 (Hj j Hin)) as Hr.
    apply where_from_in in Hr as (_ & a & Ha & _).
    rewrite Nat.sub_0_r in Ha. apply nth_error_Some. congruence.
  - rewrite length_map, length_firstn.
    rewrite (Permutation_length (argsort_perm keys)), length_seq, Lk.
    unfold realidx.
    rewrite <- (length_map (fun i => nth (i - 0) w czero)
                           (where_from (fun z => eqb (im z) zero) w 0)).
    rewrite where_from_filter. reflexivity.
Qed.

(** X2.  Whatever the eigenvalues, NaN included, [pickeig] returns
    [min(nroots, r)] positions, [r] being the number of eigenvalues whose
    imaginary part equals zero; the positions are positions of [w] and no
    position is returned twice. *)
Theorem pickeig_positions_distinct
        (w : list complex) (v : list (list complex)) (nroots : nat) :
  let idx := pickeig w v nroots in
  NoDup idx /\
  Forall (fun i => i < length w) idx /\
  length idx = Nat.min nroots (length (filter (fun z => eqb (im z) zero) w)).
Proof.
  cbv zeta. apply pickeig_positions.
Qed.

End SelectorPositions.

(** ** Calls that enter no cycle *)

Section NoCycle.
Context {F : Type} `{Scalar F}.
Local Abbreviation vec := (list F).
Local Abbreviation matrix := (list (list F)).
Local Abbreviation complex := (F * F)%type.

Variable abop : list vec -> result (list vec * list vec).
Variable abop1 : vec -> result (vec * vec).
Variable aop : list vec -> result (list vec).
Variable precond : vec -> F -> vec -> result vec.
Variable dot : vec -> vec -> result F.
Variable eigh : matrix -> matrix -> result (vec * matrix).
Variable eigs : matrix -> result (list complex * list (list complex)).
Variable pick : list complex -> list (list complex) -> nat -> result (list nat).

(** X3.  What a call raises when its loop has nothing to run.  [eig]
    asserts [not left] first.  Both solvers read [x0[0]]: an empty
    sequence of guesses raises [IndexError], and a first guess of size 0
    raises [ZeroDivisionError] where [max_memory*1e6] is divided by its
    [nbytes].  When [max_cycle <= 0] the loop is skipped and [e], assigned
    in the loop only, is unbound at the [return]: the call raises
    [UnboundLocalError] ([dgeev] with [type == 3] first converts the
    guesses and may raise there) and never returns a result. *)
Theorem calls_that_enter_no_cycle
        (x0 : guess F) (type : Z) (tol : F) (max_cycle : Z) (max_space : nat)
        (lindep : F) (max_memory : Z)
        (dcallback : option (Dgeev.locals -> result unit))
        (ecallback : option (Eig.locals -> result unit))
        (nroots : nat) (lessio : bool) :
  let dgeev_call :=
    Dgeev.dgeev abop abop1 precond dot eigh x0 type tol max_cycle max_space
                lindep max_memory dcallback nroots lessio in
  let eig_call left :=
    Eig.eig aop precond dot pick eigs x0 tol max_cycle max_space
            lindep max_memory ecallback nroots lessio left in
  eig_call true = Raise AssertionError /\
  (as_list x0 = [] ->
   dgeev_call = Raise IndexError /\ eig_call false = Raise IndexError) /\
  (forall rest, as_list x0 = [] :: rest ->
   dgeev_call = Raise ZeroDivisionError /\
   eig_call false = Raise ZeroDivisionError) /\
  (forall a first rest, as_list x0 = (a :: first) :: rest ->
   (max_cycle <= 0)%Z ->
   (type <> 3%Z -> dgeev_call = Raise UnboundLocalError) /\
   (forall r, dgeev_call <> Ok r) /\
   eig_call false = Raise UnboundLocalError).
Proof.
  cbv zeta. unfold Dgeev.dgeev, Eig.eig, Dgeev.run, Eig.run, fits_in_core.
  split; [reflexivity|]. split; [|split].
  - intros ->. split; reflexivity.
  - intros rest ->. split; reflexivity.
  - intros a first rest -> Hle.
    cbn [getitem nth_error bind length Nat.eqb].
    assert (Z.to_nat (Z.min max_cycle (Z.of_nat (S (length first)))) = 0) as ->
        by lia.
    cbn [for_range final bind]. unfold Dgeev.finish, Eig.finish.
    cbn [Dgeev.e Eig.e Dgeev.x0 return_value].
    split; [|split].
    + intros Ht. apply Z.eqb_neq in Ht. rewrite Ht. reflexivity.
    + intros r. destruct (type =? 3)%Z; [|discriminate].
      destruct (foldM _ _ _); discriminate.
    + reflexivity.
Qed.

End NoCycle.

(** ** An exception raised by the callback *)

Section CallbackRaises.
Context {F : Type} `{Scalar F}.
Local Abbreviation vec := (list F).
Local Abbreviation matrix := (list (list F)).
Local Abbreviation complex := (F * F)%type.

Variable abop : list vec -> result (list vec * list vec).
Variable abop1 : vec -> result (vec * vec).
Variable aop : list vec -> result (list vec).
Variable precond : vec -> F -> vec -> result vec.
Variable dot : vec -> vec -> result F.
Variable eigh : matrix -> matrix -> result (vec * matrix).
Variable eigs : matrix -> result (list complex * list (list complex)).
Variable pick : list complex -> list (list complex) -> nat -> result (list nat).

Lemma dgeev_cycle_callback_raises type tol toloose max_space nroots lessio
      incore notify1 notify2 icyc st s ex :
  (forall i w v de dx_norm st', notify2 i w v de dx_norm st' = Raise ex) ->
  Dgeev.cycle abop precond dot eigh type tol toloose max_space nroots lessio
              incore notify1 icyc st = Ok (Continue s) ->
  Dgeev.cycle abop precond dot eigh type tol toloose max_space nroots lessio
              incore notify2 icyc st = Raise ex.
Proof.
  intros Hn. unfold Dgeev.cycle. cbv zeta.
  repeat peel1; try discriminate.
  intros _. rewrite Hn. reflexivity.
Qed.

Lemma eig_cycle_callback_raises tol toloose max_space nroots lessio
      incore notify1 notify2 icyc st s ex :
  (forall i w v idx de dx_norm st', notify2 i w v idx de dx_norm st' = Raise ex) ->
  Eig.cycle aop precond dot pick eigs tol toloose max_space nroots lessio
            incore notify1 icyc st = Ok (Continue s) ->
  Eig.cycle aop precond dot pick eigs tol toloose max_space nroots lessio
            incore notify2 icyc st = Raise ex.
Proof.
  intros Hn. unfold Eig.cycle. cbv zeta.
  repeat peel1; try discriminate.
  intros _. rewrite Hn. reflexivity.
Qed.

Lemma second_cycle_first_continues {St} (body : nat -> St -> result (control St))
      (n i : nat) (s : St) :
  2 <= cycles (for_range body n i s) ->
  exists n' s', n = S n' /\ body i s = Ok (Continue s').
Proof.
  destruct n as [|n']; cbn [for_range cycles]; [lia|].
  destruct (body i s) as [[s'|why s']|ex]; cbn [cycles]; try lia.
  intros _. eauto.
Qed.

(** X4.  The callback is called at the end of every cycle that goes on,
    and nothing catches what it raises: when a call without callback
    enters a second cycle, the same call with a callback that raises [ex]
    raises [ex]. *)
Theorem callback_exception_reaches_caller
        (x0 : guess F) (type : Z) (tol : F) (max_cycle : Z) (max_space : nat)
        (lindep : F) (max_memory : Z)
        (df : Dgeev.locals -> result unit) (ef : Eig.locals -> result unit)
        (ex : exn) (nroots : nat) (lessio left : bool) :
  (forall l, df l = Raise ex) -> (forall l, ef l = Raise ex) ->
  (forall o,
      Dgeev.run abop precond dot eigh x0 type tol max_cycle max_space lindep
                max_memory None nroots lessio = Ok o ->
      2 <= cycles o ->
      Dgeev.dgeev abop abop1 precond dot eigh x0 type tol max_cycle max_space
                  lindep max_memory (Some df) nroots lessio = Raise ex) /\
  (forall o,
      Eig.run aop precond dot pick eigs x0 tol max_cycle max_space lindep
              max_memory None nroots lessio left = Ok o ->
      2 <= cycles o ->
      Eig.eig aop precond dot pick eigs x0 tol max_cycle max_space
              lindep max_memory (Some ef) nroots lessio left = Raise ex).
Proof.
  intros Hd He. split; intros o.
  - unfold Dgeev.dgeev, Dgeev.run.
    destruct (getitem (as_list x0) 0) as [first|e1]; cbn [bind]; [|discriminate].
    destruct (fits_in_core _ _ _) as [incore|e1]; cbn [bind]; [|discriminate].
    cbv zeta. intros E; apply Ok_inj in E; subst o. intros Hc.
    apply second_cycle_first_continues in Hc as (n' & s' & -> & Ec).
    cbn [for_range].
    erewrite dgeev_cycle_callback_raises; [reflexivity| |exact Ec].
    intros; cbv beta. apply Hd.
  - unfold Eig.eig, Eig.run. destruct left; [discriminate|].
    destruct (getitem (as_list x0) 0) as [first|e1]; cbn [bind]; [|discriminate].
    destruct (fits_in_core _ _ _) as [incore|e1]; cbn [bind]; [|discriminate].
    cbv zeta. intros E; apply Ok_inj in E; subst o. intros Hc.
    apply second_cycle_first_continues in Hc as (n' & s' & -> & Ec).
    cbn [for_range].
    erewrite eig_cycle_callback_raises; [reflexivity| |exact Ec].
    intros; cbv beta. apply He.
Qed.

End CallbackRaises.

(** ** The orthogonalizer on an orthonormal sequence *)

Section QrFixes.
Context {F : Type} `{Scalar F}.
Local Abbreviation vec := (list F).

Hypothesis exact : exact_arithmetic.
Hypothesis threshold_below_one : ltb c1em7 one = true.

Add Ring fixes_ring : (ex_ring exact).

Lemma one_nonzero : one <> zero.
Proof.
  intros E. pose proof (ex_threshold exact) as Ht. rewrite <- E in Ht. congruence.
Qed.

Lemma div_by_one (a : F) : div a one = a.
Proof.
  rewrite (ex_div exact).
  assert (div one one = one) as ->.
  { pose proof (ex_inv exact one_nonzero) as E.
    transitivity (mul (div one one) one); [ring|exact E]. }
  ring.
Qed.

Lemma vdiv_by_one (x : vec) : vdiv x one = x.
Proof.
  unfold vdiv. induction x as [|a x IH]; simpl; [reflexivity|].
  rewrite div_by_one, IH. reflexivity.
Qed.

Lemma sub_nothing (x q : vec) :
  length q = length x -> zipw sub x (vmul_r q zero) = x.
Proof.
  unfold vmul_r. revert q; induction x as [|a x IH]; intros [|b q] L;
    simpl in *; try discriminate; [reflexivity|].
  rewrite IH by lia. f_equal. ring.
Qed.

Lemma qr_project_orthogonal (qs : list vec) (x : vec) :
  Forall (fun q => length q = length x /\ dotsum q x = zero) qs ->
  qr_project qs x = Ok x.
Proof.
  unfold qr_project. induction 1 as [|q qs [Lq Hq] _ IH]; cbn [foldM];
    [reflexivity|].
  rewrite npdot_same_length by exact Lq. cbn [bind]. rewrite Hq.
  rewrite inplace_same_length
    by (unfold vmul_r; rewrite length_map; congruence).
  cbn [bind]. rewrite sub_nothing by exact Lq. exact IH.
Qed.

Lemma qr_fold_orthonormal (n : nat) (q0 : vec) (l : list vec) :
  Forall (fun q => length q = n) (q0 :: l) -> orthonormal (q0 :: l) ->
  foldM qr_step l [q0] = Ok (q0 :: l).
Proof.
  induction l as [|y l IH] using rev_ind; intros Hs Ho; [reflexivity|].
  rewrite app_comm_cons in Hs, Ho.
  apply Forall_app in Hs as [Hs Hy].
  apply orthonormal_snoc in Ho as (Ho & [Hn _] & Hd).
  rewrite foldM_app, (IH Hs Ho). cbn [bind foldM].
  assert (length y = n) as Ly by (inversion Hy; assumption).
  assert (qr_project (q0 :: l) y = Ok y) as Ep.
  { apply qr_project_orthogonal.
    rewrite Forall_forall in Hs, Hd. apply Forall_forall.
    intros q Hq. split; [|apply (Hd q Hq)].
    rewrite (Hs q Hq). congruence. }
  unfold qr_step. rewrite Ep. cbn [bind]. rewrite Hn, threshold_below_one.
  cbn [bind]. rewrite vdiv_by_one. reflexivity.
Qed.

(** X5.  In exact arithmetic, with [1e-7 < 1], [qr] returns an
    orthonormal sequence of vectors of one dimension as it is: nothing
    is dropped and nothing changes.  In particular [qr] applied to its
    own result returns it. *)
Theorem qr_keeps_orthonormal (n : nat) (qs : list vec) :
  qs <> [] -> Forall (fun q => length q = n) qs -> orthonormal qs ->
  qr qs = Ok qs.
Proof.
  intros Hne Hs Ho. destruct qs as [|q0 l]; [congruence|].
  unfold qr. cbn [getitem nth_error bind tl].
  assert (norm q0 = one) as ->.
  { destruct Ho as [Hu _]. inversion Hu; subst. tauto. }
  rewrite vdiv_by_one. eapply qr_fold_orthonormal; eassumption.
Qed.

End QrFixes.

(** ** The stores and the counter [space] *)

Section StoresInStep.
Context {F : Type} `{Scalar F}.
Local Abbreviation vec := (list F).
Local Abbreviation matrix := (list (list F)).
Local Abbreviation complex := (F * F)%type.

Variable abop : list vec -> result (list vec * list vec).
Variable aop : list vec -> result (list vec).
Variable precond : vec -> F -> vec -> result vec.
Variable dot : vec -> vec -> result F.
Variable eigh : matrix -> matrix -> result (vec * matrix).
Variable eigs : matrix -> result (list complex * list (list complex)).
Variable pick : list complex -> list (list complex) -> nat -> result (list nat).

Lemma dgeev_append_trials_lengths (st : Dgeev.state) (axt bxt xs' ax' bx' : list vec) :
  Dgeev.append_trials st axt bxt = Ok (xs', ax', bx') ->
  length xs' = length (Dgeev.xs st) + length (Dgeev.xt st) /\
  length ax' = length (Dgeev.ax st) + length (Dgeev.xt st) /\
  length bx' = length (Dgeev.bx st) + length (Dgeev.xt st).
Proof.
  unfold Dgeev.append_trials. intros E.
  match type of E with
  | foldM ?f _ _ = _ =>
      pose proof (@foldM_measure _ _ (fun t : list vec * list vec * list vec =>
                                        length (fst (fst t))) f) as M1;
      pose proof (@foldM_measure _ _ (fun t : list vec * list vec * list vec =>
                                        length (snd (fst t))) f) as M2;
      pose proof (@foldM_measure _ _ (fun t : list vec * list vec * list vec =>
                                        length (snd t)) f) as M3
  end.
  specialize (fun Hf => M1 Hf _ _ _ E).
  specialize (fun Hf => M2 Hf _ _ _ E).
  specialize (fun Hf => M3 Hf _ _ _ E).
  rewrite length_seq in M1, M2, M3. cbn [fst snd] in M1, M2, M3.
  split; [|split]; [apply M1|apply M2|apply M3];
    intros [[x a] b] k s'; repeat peel1; intros E'; apply Ok_inj in E'; subst s';
    cbn [fst snd]; rewrite length_app; cbn [length]; lia.
Qed.

Lemma eig_append_trials_lengths (st : Eig.state) (axt xs' ax' : list vec) :
  Eig.append_trials st axt = Ok (xs', ax') ->
  length xs' = length (Eig.xs st) + length (Eig.xt st) /\
  length ax' = length (Eig.ax st) + length (Eig.xt st).
Proof.
  unfold Eig.append_trials. intros E.
  match type of E with
  | foldM ?f _ _ = _ =>
      pose proof (@foldM_measure _ _ (fun t : list vec * list vec =>
                                        length (fst t)) f) as M1;
      pose proof (@foldM_measure _ _ (fun t : list vec * list vec =>
                                        length (snd t)) f) as M2
  end.
  specialize (fun Hf => M1 Hf _ _ _ E).
  specialize (fun Hf => M2 Hf _ _ _ E).
  rewrite length_seq in M1, M2. cbn [fst snd] in M1, M2.
  split; [apply M1|apply M2];
    intros [x a] k s'; repeat peel1; intros E'; apply Ok_inj in E'; subst s';
    cbn [fst snd]; rewrite length_app; cbn [length]; lia.
Qed.

Lemma dgeev_begin_cycle_in_step nroots (st st' : Dgeev.state) :
  dgeev_in_step st -> Dgeev.begin_cycle nroots st = Ok st' -> dgeev_in_step st'.
Proof.
  intros Hst. unfold Dgeev.begin_cycle.
  repeat peel1; intros E'; apply Ok_inj in E'; subst st'; try exact Hst;
    unfold dgeev_in_step; cbn [Dgeev.xs Dgeev.ax Dgeev.bx Dgeev.space length];
    auto.
Qed.

Lemma eig_begin_cycle_in_step nroots (st st' : Eig.state) :
  eig_in_step st -> Eig.begin_cycle nroots st = Ok st' -> eig_in_step st'.
Proof.
  intros Hst. unfold Eig.begin_cycle.
  repeat peel1; intros E'; apply Ok_inj in E'; subst st'; try exact Hst;
    unfold eig_in_step; cbn [Eig.xs Eig.ax Eig.space length]; auto.
Qed.

Lemma dgeev_cycle_in_step type tol toloose max_space nroots lessio incore notify
      icyc (st : Dgeev.state) c :
  dgeev_in_step st ->
  Dgeev.cycle abop precond dot eigh type tol toloose max_space nroots lessio
              incore notify icyc st = Ok c ->
  dgeev_in_step (landing c).
Proof.
  intros Hst. unfold Dgeev.cycle. cbv zeta. peel1.
  apply (dgeev_begin_cycle_in_step _ Hst) in E. destruct E as (X1 & X2 & X3).
  repeat peel1; intros E'; apply Ok_inj in E'; subst c;
    match goal with
    | Ea : Dgeev.append_trials _ _ _ = Ok _ |- _ =>
        apply dgeev_append_trials_lengths in Ea as (L1 & L2 & L3)
    end;
    unfold dgeev_in_step;
    cbn [landing Dgeev.xs Dgeev.ax Dgeev.bx Dgeev.space]; lia.
Qed.

Lemma eig_cycle_in_step tol toloose max_space nroots lessio incore notify
      icyc (st : Eig.state) c :
  eig_in_step st ->
  Eig.cycle aop precond dot pick eigs tol toloose max_space nroots lessio
            incore notify icyc st = Ok c ->
  eig_in_step (landing c).
Proof.
  intros Hst. unfold Eig.cycle. cbv zeta. peel1.
  apply (eig_begin_cycle_in_step _ Hst) in E. destruct E as (X1 & X2).
  repeat peel1; intros E'; apply Ok_inj in E'; subst c;
    match goal with
    | Ea : Eig.append_trials _ _ = Ok _ |- _ =>
        apply eig_append_trials_lengths in Ea as (L1 & L2)
    end;
    unfold eig_in_step; cbn [landing Eig.xs Eig.ax Eig.space]; lia.
Qed.

(** X6.  [space] counts the basis: at the end of every cycle that
    completes, and in the state the loop leaves, each of the stores [xs],
    [ax] and [bx] ([xs] and [ax] for [eig]) holds exactly [space]
    vectors. *)
Theorem stores_hold_space_vectors
        (x0 : guess F) (type : Z) (tol : F) (max_cycle : Z) (max_space : nat)
        (lindep : F) (max_memory : Z)
        (dcallback : option (Dgeev.locals -> result unit))
        (ecallback : option (Eig.locals -> result unit))
        (nroots : nat) (lessio left : bool) :
  (forall o,
      Dgeev.run abop precond dot eigh x0 type tol max_cycle max_space lindep
                max_memory dcallback nroots lessio = Ok o ->
      Forall dgeev_in_step (visited o) /\
      forall why st, final o = Ok (why, st) -> dgeev_in_step st) /\
  (forall o,
      Eig.run aop precond dot pick eigs x0 tol max_cycle max_space lindep
              max_memory ecallback nroots lessio left = Ok o ->
      Forall eig_in_step (visited o) /\
      forall why st, final o = Ok (why, st) -> eig_in_step st).
Proof.
  split; intros o.
  - unfold Dgeev.run. repeat peel1. cbv zeta.
    intros E'; apply Ok_inj in E'; subst o.
    assert (dgeev_in_step
              {| Dgeev.fresh_start := true; Dgeev.xs := []; Dgeev.ax := [];
                 Dgeev.bx := []; Dgeev.space := 0; Dgeev.xt := [];
                 Dgeev.x0 := as_list x0; Dgeev.e := None;
                 Dgeev.heff := empty_matrix (max_space + nroots * 2);
                 Dgeev.seff := empty_matrix (max_space + nroots * 2) |}) as H0
        by (repeat split).
    split.
    + apply visited_invariant; [|exact H0].
      intros i s c Hs Ec. eapply dgeev_cycle_in_step; eassumption.
    + intros why st. eapply final_invariant; [|exact H0].
      intros i s c Hs Ec. eapply dgeev_cycle_in_step; eassumption.
  - unfold Eig.run. destruct left; [discriminate|]. repeat peel1. cbv zeta.
    intros E'; apply Ok_inj in E'; subst o.
    assert (eig_in_step
              {| Eig.fresh_start := true; Eig.xs := []; Eig.ax := [];
                 Eig.space := 0; Eig.xt := [];
                 Eig.x0 := as_list x0; Eig.e := None;
                 Eig.heff := empty_matrix (max_space + nroots * 2) |}) as H0
        by (repeat split).
    split.
    + apply visited_invariant; [|exact H0].
      intros i s c Hs Ec. eapply eig_cycle_in_step; eassumption.
    + intros why st. eapply final_invariant; [|exact H0].
      intros i s c Hs Ec. eapply eig_cycle_in_step; eassumption.
Qed.

End StoresInStep.

(** ** Where exceptions come from *)

Lemma safe_bind {A B} (Q : A -> Prop) (P : B -> Prop) (m : result A)
      (k : A -> result B) :
  safe Q m -> (forall a, Q a -> safe P (k a)) -> safe P (bind m k).
Proof.
  destruct m as [a|ex]; cbn [safe bind]; auto.
Qed.

Lemma safe_weaken {A} (P Q : A -> Prop) (m : result A) :
  safe P m -> (forall a, P a -> Q a) -> safe Q m.
Proof.
  destruct m as [a|ex]; cbn [safe]; auto.
Qed.

Lemma safe_foldM {A St} (I : St -> Prop) (f : St -> A -> result St)
      (l : list A) (s : St) :
  I s -> (forall s a, In a l -> I s -> safe I (f s a)) -> safe I (foldM f l s).
Proof.
  revert s; induction l as [|a l IH]; intros s Hs Hf; cbn [foldM]; [exact Hs|].
  apply safe_bind with (Q := I); [apply Hf; [left; reflexivity|exact Hs]|].
  intros s' Hs'. apply IH; [exact Hs'|].
  intros s0 b Hb. apply Hf. right; exact Hb.
Qed.

(** The loop: an invariant [Inv] at the head of each cycle, and [Post]
    wherever a cycle lands. *)
Lemma for_range_safe {St} (Inv Post : St -> Prop)
      (body : nat -> St -> result (control St)) :
  (forall i s, Inv s ->
               safe (fun c => Post (landing c) /\
                              forall s', c = Continue s' -> Inv s')
                    (body i s)) ->
  forall n i s, Inv s ->
    safe (fun r => Post (snd r) \/ (n = 0 /\ snd r = s))
         (final (for_range body n i s)).
Proof.
  intros Hb n; induction n as [|n IH]; intros i s Hs; cbn [for_range final safe].
  - right; auto.
  - specialize (Hb i s Hs).
    destruct (body i s) as [[s'|why s']|ex]; cbn [safe final landing] in *.
    + destruct Hb as [Hp Hi]. specialize (IH (S i) s' (Hi _ eq_refl)).
      eapply safe_weaken; [exact IH|].
      intros r [Hr|[-> ->]]; left; assumption.
    + left. apply Hb.
    + exact Hb.
Qed.

Lemma total_foldM {A St} (I : St -> Prop) (f : St -> A -> result St)
      (l : list A) (s : St) :
  I s -> (forall s a, In a l -> I s -> exists s', f s a = Ok s' /\ I s') ->
  exists s', foldM f l s = Ok s' /\ I s'.
Proof.
  revert s; induction l as [|a l IH]; intros s Hs Hf; cbn [foldM]; [eauto|].
  destruct (Hf s a (or_introl eq_refl) Hs) as (s1 & -> & Hs1). cbn [bind].
  apply IH; [exact Hs1|]. intros s0 b Hb. apply Hf. right; exact Hb.
Qed.

Lemma getitem_in_range {A} (P : A -> Prop) (l : list A) (i : nat) :
  i < length l -> Forall P l -> exists a, getitem l i = Ok a /\ P a.
Proof.
  intros Hi Hl. unfold getitem.
  destruct (nth_error l i) as [a|] eqn:E.
  - exists a. split; [reflexivity|].
    rewrite Forall_forall in Hl. apply Hl. eapply nth_error_In; exact E.
  - apply nth_error_None in E. lia.
Qed.

Section Shapes2.
Context {F : Type} `{Scalar F}.
Local Abbreviation vec := (list F).
Local Abbreviation matrix := (list (list F)).

Lemma mget_square (k : nat) (m : matrix) (i j : nat) :
  square k m -> i < k -> j < k -> exists a, mget m i j = Ok a.
Proof.
  intros [Lm Hm] Hi Hj. unfold mget.
  assert (i < length m) as Hi' by lia.
  destruct (getitem_in_range Hi' Hm) as (row & -> & Lr). cbn [bind].
  assert (j < length row) as Hj' by lia.
  destruct (@getitem_in_range _ (fun _ => True) row j Hj') as (a & -> & _);
    [apply Forall_forall; auto|].
  eauto.
Qed.

Lemma mset_square (k : nat) (m : matrix) (i j : nat) (a : F) :
  square k m -> i < k -> j < k ->
  exists m', mset m i j a = Ok m' /\ square k m'.
Proof.
  intros [Lm Hm] Hi Hj. unfold mset.
  assert (i < length m) as Hi' by lia.
  destruct (getitem_in_range Hi' Hm) as (row & -> & Lr). cbn [bind].
  assert (j < length row) as Hj' by lia.
  destruct (@getitem_in_range _ (fun _ => True) row j Hj') as (b & -> & _);
    [apply Forall_forall; auto|].
  cbn [bind]. eexists; split; [reflexivity|]. split.
  - rewrite set_nth_length. exact Lm.
  - apply Forall_set_nth; [exact Hm|]. rewrite set_nth_length. exact Lr.
Qed.

Lemma leading_square (M k : nat) (m : matrix) :
  square M m -> k <= M -> square k (leading k m).
Proof.
  intros [Lm Hm] Hk. unfold leading. split.
  - rewrite length_map, length_firstn. lia.
  - apply Forall_map. apply Forall_forall. intros row Hin.
    apply in_firstn in Hin. rewrite Forall_forall in Hm.
    rewrite length_firstn, (Hm row Hin). lia.
Qed.

Lemma empty_matrix_square (M : nat) : square M (empty_matrix (F := F) M).
Proof.
  unfold empty_matrix. split; [apply repeat_length|].
  apply Forall_forall. intros row Hin. apply repeat_spec in Hin. subst.
  apply repeat_length.
Qed.

End Shapes2.

Section DgeevSafe.
Context {F : Type} `{Scalar F}.
Local Abbreviation vec := (list F).
Local Abbreviation matrix := (list (list F)).

Variables n M nroots : nat.
Local Abbreviation sized := (Forall (fun x : vec => length x = n)).

Lemma qr_same_dimension (xs : list vec) :
  xs <> [] -> sized xs ->
  exists qs, qr xs = Ok qs /\ qs <> [] /\ length qs <= length xs /\ sized qs.
Proof.
  intros Hne Hs. destruct xs as [|x rest]; [congruence|].
  inversion Hs as [|? ? Lx Hr]; subst.
  unfold qr. cbn [getitem nth_error bind tl].
  assert ([vdiv x (norm x)] <> []) as Hn1 by discriminate.
  assert (Forall (fun q => length q = length x) [vdiv x (norm x)]) as Hs1.
  { constructor; [|constructor]. unfold vdiv. apply length_map. }
  pose proof (qr_fold_outcome rest Hn1 Hs1) as Hf.
  assert (forallb (fun y => length y =? length x) rest = true) as Eb.
  { apply forallb_forall. intros y Hy. apply Nat.eqb_eq.
    rewrite Forall_forall in Hr. apply Hr, Hy. }
  rewrite Eb in Hf. destruct Hf as (qs & E & Hl & Hq).
  exists qs. cbn [length] in *. split; [exact E|]. split; [|split].
  - intros ->. cbn [length] in Hl. lia.
  - lia.
  - exact Hq.
Qed.

Variable abop : list vec -> result (list vec * list vec).
Variable precond : vec -> F -> vec -> result vec.
Variable dot : vec -> vec -> result F.
Variable eigh : matrix -> matrix -> result (vec * matrix).

Hypothesis contract : dgeev_contract n abop precond dot eigh.

Lemma firstn_nonempty {A} (k : nat) (l : list A) :
  0 < k -> l <> [] -> firstn k l <> [].
Proof.
  destruct k as [|k]; [lia|]. destruct l; [congruence|]. discriminate.
Qed.

Lemma dgeev_begin_cycle_safe (st : Dgeev.state) :
  dgeev_ready n M st ->
  exists a, Dgeev.begin_cycle nroots st = Ok a /\ dgeev_started n M a.
Proof.
  intros (Hxs & Hax & Hbx & Hstep & Hh & Hs & Hf). unfold Dgeev.begin_cycle.
  destruct (Dgeev.fresh_start st) eqn:Ef.
  - destruct Hf as (Hne & Hx0 & Hl).
    destruct (qr_same_dimension Hne Hx0) as (qs & -> & Hq & Hlq & Hsq).
    cbn [bind]. eexists; split; [reflexivity|].
    unfold dgeev_started, dgeev_in_step.
    cbn [Dgeev.xs Dgeev.ax Dgeev.bx Dgeev.space Dgeev.heff Dgeev.seff Dgeev.xt
         Dgeev.e Dgeev.fresh_start length].
    repeat split; try constructor; try assumption; try apply Hh; try apply Hs;
      eauto; lia.
  - destruct Hf as (Hne & Hxt & Hl & He).
    destruct (1 <? length (Dgeev.xt st)) eqn:E1.
    + destruct (qr_same_dimension Hne Hxt) as (qs & -> & Hq & Hlq & Hsq).
      cbn [bind]. eexists; split; [reflexivity|].
      unfold dgeev_started, dgeev_in_step.
      cbn [Dgeev.xs Dgeev.ax Dgeev.bx Dgeev.space Dgeev.heff Dgeev.seff Dgeev.xt
           Dgeev.e Dgeev.fresh_start].
      assert (length (firstn 40 qs) <= length qs) as L40
          by (rewrite length_firstn; lia).
      repeat split; try assumption; try apply Hstep; try apply Hh; try apply Hs.
      * apply firstn_nonempty; [lia|exact Hq].
      * apply firstn_sized, Hsq.
      * lia.
    + exists st. split; [reflexivity|].
      unfold dgeev_started. repeat split; try assumption; try apply Hstep;
        try apply Hh; try apply Hs.
Qed.

Lemma dgeev_apply_operator_safe type (xt : list vec) :
  sized xt ->
  safe (fun p => length (fst p) = length xt /\ length (snd p) = length xt /\
                 sized (fst p) /\ sized (snd p))
       (Dgeev.apply_operator abop type xt).
Proof.
  intros Hx. destruct contract as (Hab & _). unfold Dgeev.apply_operator.
  eapply safe_bind; [apply (Hab _ Hx)|]. intros [axt bxt] (L1 & L2 & S1 & S2).
  destruct (1 <? type)%Z; [|cbn [safe fst snd]; auto].
  eapply safe_bind; [apply (Hab _ S2)|]. intros [axt' b'] (L1' & _ & S1' & _).
  cbn [safe fst snd]. repeat split; try assumption; congruence.
Qed.

Lemma dgeev_append_trials_total (st : Dgeev.state) (axt bxt : list vec) :
  length axt = length (Dgeev.xt st) -> length bxt = length (Dgeev.xt st) ->
  Dgeev.append_trials st axt bxt
  = Ok (Dgeev.xs st ++ Dgeev.xt st, Dgeev.ax st ++ axt, Dgeev.bx st ++ bxt).
Proof.
  intros La Lb. unfold Dgeev.append_trials.
  assert (forall m, m <= length (Dgeev.xt st) ->
            foldM (fun '(xs, ax, bx) k =>
                     xk <- getitem (Dgeev.xt st) k ;;
                     ak <- getitem axt k ;;
                     bk <- getitem bxt k ;;
                     Ok (xs ++ [xk], ax ++ [ak], bx ++ [bk]))
                  (seq 0 m) (Dgeev.xs st, Dgeev.ax st, Dgeev.bx st)
            = Ok (Dgeev.xs st ++ firstn m (Dgeev.xt st),
                  Dgeev.ax st ++ firstn m axt, Dgeev.bx st ++ firstn m bxt)) as Hm.
  { induction m as [|m IH]; intros Hle.
    - cbn [seq foldM firstn]. rewrite !app_nil_r. reflexivity.
    - rewrite seq_S, foldM_app, IH by lia. cbn [bind Nat.add foldM].
      unfold getitem.
      destruct (nth_error (Dgeev.xt st) m) as [xk|] eqn:E1;
        [|apply nth_error_None in E1; lia].
      destruct (nth_error axt m) as [ak|] eqn:E2;
        [|apply nth_error_None in E2; lia].
      destruct (nth_error bxt m) as [bk|] eqn:E3;
        [|apply nth_error_None in E3; lia].
      cbn [bind]. rewrite <- !app_assoc.
      rewrite (append_firstn _ _ E1), (append_firstn _ _ E2), (append_firstn _ _ E3).
      reflexivity. }
  rewrite (Hm _ (le_n _)). rewrite firstn_all.
  rewrite <- La at 1. rewrite firstn_all. rewrite <- Lb at 1. rewrite firstn_all.
  reflexivity.
Qed.

Lemma operands_sized (l l' : list vec) (k j : nat) :
  k < length l -> j < length l' -> sized l -> sized l' ->
  safe (fun ua : vec * vec => length (fst ua) = n /\ length (snd ua) = n)
       (operands (getitem l k) (getitem l' j)).
Proof.
  intros Hk Hj Hl Hl'. unfold operands.
  destruct (getitem_in_range Hk Hl) as (u & -> & Lu).
  destruct (getitem_in_range Hj Hl') as (a & -> & La).
  cbn [bind safe fst snd]. auto.
Qed.

Lemma entry_safe (m : matrix) (p q : nat) (ua : result (vec * vec)) :
  square M m -> p < M -> q < M ->
  safe (fun ua : vec * vec => length (fst ua) = n /\ length (snd ua) = n) ua ->
  safe (square M) (entry dot m p q ua).
Proof.
  intros Hm Hp Hq Hua. destruct contract as (_ & _ & Hdot & _). unfold entry.
  eapply safe_bind; [exact Hua|]. intros [u a] [Lu La]. cbn [fst snd] in *.
  eapply safe_bind; [apply (Hdot u a Lu La)|]. intros d _.
  destruct (mset_square d Hm Hp Hq) as (m1 & -> & Hm1). cbn [bind].
  destruct (mget_square Hm1 Hp Hq) as (c & ->). cbn [bind].
  destruct (mset_square c Hm1 Hq Hp) as (m2 & -> & Hm2). exact Hm2.
Qed.

Lemma dgeev_extend_safe type (xt axt bxt ax bx : list vec) (head rnow : nat)
      (heff seff : matrix) :
  length xt = rnow -> length axt = rnow -> length bxt = rnow ->
  sized xt -> sized axt -> sized bxt -> sized ax -> sized bx ->
  head <= length ax -> head <= length bx -> head + rnow <= M ->
  square M heff -> square M seff ->
  safe (fun hs => square M (fst hs) /\ square M (snd hs))
       (Dgeev.extend dot type xt axt bxt ax bx head rnow (head + rnow) heff seff).
Proof.
  intros Lx La Lb Sx Sa Sb Sax Sbx Hax Hbx HM Hh Hs.
  unfold Dgeev.extend. cbv zeta.
  set (left := if (type =? 1)%Z then xt else bxt).
  assert (length left = rnow /\ sized left) as [Ll Sl]
      by (unfold left; destruct (type =? 1)%Z; auto).
  clearbody left.
  apply safe_foldM; [cbn [fst snd]; auto|].
  intros hs i Hi Ihs. apply in_seq in Hi.
  destruct ((head <=? i) && (i <? head + rnow)) eqn:Ec.
  - apply andb_true_iff in Ec as [E1 E2].
    apply Nat.leb_le in E1. apply Nat.ltb_lt in E2.
    apply safe_foldM; [exact Ihs|].
    intros [h s] k Hk [Hh' Hs']. apply in_seq in Hk. cbn [fst snd] in *.
    eapply safe_bind.
    { apply entry_safe; [exact Hh'|lia|lia|].
      apply operands_sized; try assumption; lia. }
    intros h1 Hh1. eapply safe_bind.
    { apply entry_safe; [exact Hs'|lia|lia|].
      apply operands_sized; try assumption; lia. }
    intros s1 Hs1. cbn [safe fst snd]. auto.
  - assert (i < head) as Hlt.
    { apply andb_false_iff in Ec as [E1|E2].
      - apply Nat.leb_gt in E1. exact E1.
      - apply Nat.ltb_ge in E2. lia. }
    apply safe_foldM; [exact Ihs|].
    intros [h s] k Hk [Hh' Hs']. apply in_seq in Hk. cbn [fst snd] in *.
    eapply safe_bind.
    { apply entry_safe; [exact Hh'|lia|lia|].
      apply operands_sized; try assumption; lia. }
    intros h1 Hh1. eapply safe_bind.
    { apply entry_safe; [exact Hs'|lia|lia|].
      apply operands_sized; try assumption; lia. }
    intros s1 Hs1. cbn [safe fst snd]. auto.
Qed.

Lemma dgeev_deltas_total (space : nat) (ev w : vec) :
  0 < nroots -> w <> [] -> (nroots <= space -> nroots <= length w) ->
  exists de, Dgeev.deltas nroots space (Some ev) w = Ok de /\ de <> [].
Proof.
  intros Hr Hw Hl. unfold Dgeev.deltas.
  assert (firstn nroots w <> []) as Hf by (apply firstn_nonempty; assumption).
  destruct (space <? nroots) eqn:E1; [eauto|]. cbn [bind].
  destruct (length ev =? nroots) eqn:E2; cbn [negb]; [|eauto].
  apply Nat.ltb_ge in E1. apply Nat.eqb_eq in E2.
  assert (length (firstn nroots w) = length ev) as L
      by (rewrite length_firstn; specialize (Hl E1); lia).
  rewrite broadcast_same_length by exact L.
  eexists; split; [reflexivity|].
  intros E. apply (f_equal (@length F)) in E.
  rewrite zipw_length in E by exact L. cbn [length] in E.
  rewrite length_firstn in E. specialize (Hl E1). lia.
Qed.

Lemma argmax_from_range (l : vec) (i : nat) (best : F) (ibest : nat) :
  ibest < i -> argmax_from l i best ibest < i + length l.
Proof.
  revert i best ibest; induction l as [|a l IH]; intros i best ibest Hb;
    cbn [argmax_from length]; [lia|].
  destruct (leb a best).
  - specialize (IH (S i) best ibest ltac:(lia)). lia.
  - destruct (eqb a a); [|lia].
    specialize (IH (S i) a i ltac:(lia)). lia.
Qed.

Lemma de_converged_total (tol : F) (de : vec) :
  de <> [] -> exists b, de_converged tol de = Ok b.
Proof.
  intros Hde. unfold de_converged. cbv zeta.
  destruct de as [|d de]; [congruence|]. cbn [map argmax bind].
  set (i := if eqb (absv d) (absv d)
            then argmax_from (map absv de) 1 (absv d) 0 else 0).
  assert (i < length (d :: de)) as Hi.
  { unfold i. cbn [length]. destruct (eqb (absv d) (absv d)); [|lia].
    pose proof (@argmax_from_range (map absv de) 1 (absv d) 0 ltac:(lia)) as Hr.
    rewrite length_map in Hr. lia. }
  destruct (@getitem_in_range _ (fun _ => True) (d :: de) i Hi) as (a & -> & _);
    [apply Forall_forall; auto|].
  cbn [bind]. eauto.
Qed.

Lemma dgeev_ritz_vectors_total (xs : list vec) (v : matrix) (space ne : nat) :
  sized xs -> length xs = space -> 0 < space ->
  (forall i k, i < space -> k < ne -> exists c, mget v i k = Ok c) ->
  exists x0, Dgeev.ritz_vectors xs v space ne = Ok x0 /\
             length x0 = ne /\ sized x0.
Proof.
  intros Sx Lx Hs Sv. unfold Dgeev.ritz_vectors.
  assert (space - 1 < length xs) as Hl by lia.
  destruct (getitem_in_range Hl Sx) as (xl & Exl & Lxl).
  match goal with
  | |- exists x0, bind (foldM ?f ?l ?s) _ = _ /\ _ =>
      destruct (@total_foldM _ _ sized f l s) as (y & Ey & Sy)
  end.
  { constructor. }
  { intros s k Hk Ss. apply in_seq in Hk. rewrite Exl. cbn [bind].
    destruct (Sv (space - 1) k) as (c & ->); [lia|lia|].
    cbn [bind]. eexists; split; [reflexivity|].
    apply Forall_app; split; [exact Ss|]. constructor; [|constructor].
    unfold vmul_r. rewrite length_map. exact Lxl. }
  rewrite Ey. cbn [bind].
  assert (length y = ne) as Ly.
  { revert Ey. match goal with
    | |- foldM ?f _ _ = _ -> _ =>
        intros Ey; pose proof (@foldM_measure _ _ (@length vec) f) as Hm
    end.
    specialize (fun Hf => Hm Hf _ _ _ Ey). rewrite length_seq in Hm.
    cbn [length] in Hm. apply Hm.
    intros s k s'. repeat peel1. intros E'; apply Ok_inj in E'; subst s'.
    rewrite length_app. cbn [length]. lia. }
  apply total_foldM with (I := fun x0 : list vec => length x0 = ne /\ sized x0);
    [auto|].
  intros s i Hi Is. apply in_rev, in_seq in Hi.
  assert (i < length xs) as Hil by lia.
  destruct (getitem_in_range Hil Sx) as (xsi & -> & Lxsi). cbn [bind].
  apply total_foldM; [exact Is|].
  intros s0 k Hk [Ls0 Ss0]. apply in_seq in Hk.
  assert (k < length s0) as Hkl by lia.
  destruct (getitem_in_range Hkl Ss0) as (xk & -> & Lxk). cbn [bind].
  destruct (Sv i k) as (c & ->); [lia|lia|]. cbn [bind].
  rewrite inplace_same_length
    by (unfold vmul_l; rewrite length_map; congruence).
  cbn [bind]. eexists; split; [reflexivity|]. split.
  - rewrite set_nth_length. exact Ls0.
  - apply Forall_set_nth; [exact Ss0|]. rewrite zipw_length; [exact Lxk|].
    unfold vmul_l; rewrite length_map; congruence.
Qed.

Local Abbreviation images ne :=
  (fun r : list vec * list vec * list vec =>
     (length (fst (fst r)) = ne /\ sized (fst (fst r))) /\
     (length (snd (fst r)) = ne /\ sized (snd (fst r))) /\
     (length (snd r) = ne /\ sized (snd r))).

Lemma snoc_image (l : list vec) (x : vec) (c : F) :
  sized l -> length x = n -> sized (l ++ [vmul_r x c]).
Proof.
  intros Sl Lx. apply Forall_app; split; [exact Sl|]. constructor; [|constructor].
  unfold vmul_r. rewrite length_map. exact Lx.
Qed.

Lemma add_image (l : list vec) (k : nat) (xk y : vec) (c : F) (ne : nat) :
  length l = ne /\ sized l -> length xk = n -> length y = n ->
  length (set_nth l k (zipw add xk (vmul_l c y))) = ne /\
  sized (set_nth l k (zipw add xk (vmul_l c y))).
Proof.
  intros [Ll Sl] Lx Ly. split; [rewrite set_nth_length; exact Ll|].
  apply Forall_set_nth; [exact Sl|]. rewrite zipw_length; [exact Lx|].
  unfold vmul_l; rewrite length_map; congruence.
Qed.

Lemma dgeev_ritz_assembled_total (xs ax bx : list vec) (v : matrix)
      (space ne : nat) :
  sized xs -> sized ax -> sized bx ->
  length xs = space -> length ax = space -> length bx = space ->
  0 < space ->
  (forall i k, i < space -> k < ne -> exists c, mget v i k = Ok c) ->
  exists r, Dgeev.ritz_assembled xs ax bx v space ne = Ok r /\ images ne r.
Proof.
  intros Sx Sa Sb Lx La Lb Hs Sv. unfold Dgeev.ritz_assembled.
  assert (space - 1 < length xs) as Hl1 by lia.
  assert (space - 1 < length ax) as Hl2 by lia.
  assert (space - 1 < length bx) as Hl3 by lia.
  destruct (getitem_in_range Hl1 Sx) as (xl & Exl & Lxl).
  destruct (getitem_in_range Hl2 Sa) as (al & Eal & Lal).
  destruct (getitem_in_range Hl3 Sb) as (bl & Ebl & Lbl).
  match goal with
  | |- exists x0, bind (foldM ?f ?l ?s) _ = _ /\ _ =>
      destruct (@total_foldM _ _
                  (fun r : list vec * list vec * list vec =>
                     sized (fst (fst r)) /\ sized (snd (fst r)) /\ sized (snd r))
                  f l s) as (y & Ey & Sy)
  end.
  { cbn [fst snd]. repeat split; constructor. }
  { intros [[x0 a0] b0] k Hk (S1 & S2 & S3). apply in_seq in Hk.
    cbn [fst snd] in *. rewrite Exl. cbn [bind].
    destruct (Sv (space - 1) k) as (c & ->); [lia|lia|].
    cbn [bind]. rewrite Eal, Ebl. cbn [bind].
    eexists; split; [reflexivity|]. cbn [fst snd].
    repeat split; apply snoc_image; assumption. }
  rewrite Ey. cbn [bind].
  assert (length (fst (fst y)) = ne /\ length (snd (fst y)) = ne /\
          length (snd y) = ne) as (L1 & L2 & L3).
  { revert Ey. match goal with
    | |- foldM ?f _ _ = _ -> _ =>
        intros Ey;
        pose proof (@foldM_measure _ _
                      (fun r : list vec * list vec * list vec =>
                         length (fst (fst r))) f) as M1;
        pose proof (@foldM_measure _ _
                      (fun r : list vec * list vec * list vec =>
                         length (snd (fst r))) f) as M2;
        pose proof (@foldM_measure _ _
                      (fun r : list vec * list vec * list vec =>
                         length (snd r)) f) as M3
    end.
    specialize (fun Hf => M1 Hf _ _ _ Ey).
    specialize (fun Hf => M2 Hf _ _ _ Ey).
    specialize (fun Hf => M3 Hf _ _ _ Ey).
    rewrite length_seq in M1, M2, M3. cbn [fst snd length] in M1, M2, M3.
    split; [|split]; [apply M1|apply M2|apply M3];
      intros [[x0 a0] b0] k s'; repeat peel1;
      intros E'; apply Ok_inj in E'; subst s';
      cbn [fst snd]; rewrite length_app; cbn [length]; lia. }
  apply total_foldM with (I := images ne); [tauto|].
  intros s i Hi Is. apply in_rev, in_seq in Hi.
  assert (i < length xs) as Hi1 by lia.
  assert (i < length ax) as Hi2 by lia.
  assert (i < length bx) as Hi3 by lia.
  destruct (getitem_in_range Hi1 Sx) as (xsi & -> & Lxsi).
  destruct (getitem_in_range Hi2 Sa) as (axi & -> & Laxi).
  destruct (getitem_in_range Hi3 Sb) as (bxi & -> & Lbxi). cbn [bind].
  apply total_foldM; [exact Is|].
  intros [[x0 a0] b0] k Hk (I1 & I2 & I3). apply in_seq in Hk.
  cbn [fst snd] in *.
  assert (k < length x0) as Hk1 by (destruct I1; lia).
  assert (k < length a0) as Hk2 by (destruct I2; lia).
  assert (k < length b0) as Hk3 by (destruct I3; lia).
  destruct (getitem_in_range Hk1 (proj2 I1)) as (xk & -> & Lxk). cbn [bind].
  destruct (Sv i k) as (c & ->); [lia|lia|]. cbn [bind].
  rewrite inplace_same_length
    by (unfold vmul_l; rewrite length_map; congruence).
  cbn [bind].
  destruct (getitem_in_range Hk2 (proj2 I2)) as (ak & -> & Lak). cbn [bind].
  rewrite inplace_same_length
    by (unfold vmul_l; rewrite length_map; congruence).
  cbn [bind].
  destruct (getitem_in_range Hk3 (proj2 I3)) as (bk & -> & Lbk). cbn [bind].
  rewrite inplace_same_length
    by (unfold vmul_l; rewrite length_map; congruence).
  cbn [bind]. eexists; split; [reflexivity|]. cbn [fst snd].
  split; [|split]; apply add_image; assumption.
Qed.

Lemma dgeev_ritz_safe type lessio incore (xs ax bx : list vec) (v : matrix)
      (space ne : nat) :
  sized xs -> sized ax -> sized bx ->
  length xs = space -> length ax = space -> length bx = space ->
  0 < space ->
  (forall i k, i < space -> k < ne -> exists c, mget v i k = Ok c) ->
  safe (images ne) (Dgeev.ritz abop type lessio incore xs ax bx v space ne).
Proof.
  intros Sx Sa Sb Lx La Lb Hs Sv. unfold Dgeev.ritz.
  destruct (lessio && negb incore).
  - destruct (@dgeev_ritz_vectors_total xs v space ne Sx Lx Hs Sv)
      as (x0 & -> & L0 & S0).
    cbn [bind].
    pose proof (dgeev_apply_operator_safe type S0) as Hop.
    unfold Dgeev.apply_operator in Hop.
    destruct (abop x0) as [[ax0 bx0]|ex]; cbn [bind safe] in *; [|exact Hop].
    destruct (1 <? type)%Z.
    + destruct (abop bx0) as [[ax0' b']|ex]; cbn [bind safe fst snd] in *;
        [|exact Hop].
      destruct Hop as (L1 & L2 & S1 & S2). repeat split; try assumption; lia.
    + cbn [safe fst snd] in *.
      destruct Hop as (L1 & L2 & S1 & S2). repeat split; try assumption; lia.
  - destruct (@dgeev_ritz_assembled_total xs ax bx v space ne
                                          Sx Sa Sb Lx La Lb Hs Sv)
      as (r & -> & Hr).
    exact Hr.
Qed.

Lemma dgeev_residuals_total type (e : vec) (x0 ax0 bx0 : list vec) :
  images (length e) (x0, ax0, bx0) ->
  exists res dx_norm,
    Dgeev.residuals type e x0 ax0 bx0 = Ok (res, dx_norm) /\
    sized res /\ length res = length e /\ length dx_norm = length e.
Proof.
  cbn [fst snd]. intros ((L0 & S0) & (L1 & S1) & (L2 & S2)).
  unfold Dgeev.residuals.
  match goal with
  | |- exists res dx_norm, foldM ?f ?l ?s = _ /\ _ =>
      destruct (@total_foldM _ _ (fun r : list vec * vec => sized (fst r)) f l s)
        as ([res dxn] & Er & Sr)
  end.
  { constructor. }
  { intros [xt dxn] [k ek] Hk Sxt. apply in_combine_l, in_seq in Hk.
    cbn [fst] in *.
    assert (k < length ax0) as Hk1 by lia.
    destruct (getitem_in_range Hk1 S1) as (ak & -> & Lak). cbn [bind].
    assert (exists yk, (if (type =? 1)%Z then getitem bx0 k else getitem x0 k)
                       = Ok yk /\ length yk = n) as (yk & -> & Lyk).
    { destruct (type =? 1)%Z; apply getitem_in_range; try assumption; lia. }
    cbn [bind].
    rewrite broadcast_same_length
      by (unfold vmul_l; rewrite length_map; congruence).
    cbn [bind]. eexists; split; [reflexivity|]. cbn [fst].
    apply Forall_app; split; [exact Sxt|]. constructor; [|constructor].
    rewrite zipw_length; [exact Lak|].
    unfold vmul_l; rewrite length_map; congruence. }
  exists res, dxn. split; [exact Er|]. split; [exact Sr|].
  revert Er. match goal with
  | |- foldM ?f _ _ = _ -> _ =>
      intros Er;
      pose proof (@foldM_measure _ _ (fun r : list vec * vec => length (fst r)) f)
        as M1;
      pose proof (@foldM_measure _ _ (fun r : list vec * vec => length (snd r)) f)
        as M2
  end.
  specialize (fun Hf => M1 Hf _ _ _ Er).
  specialize (fun Hf => M2 Hf _ _ _ Er).
  rewrite length_combine, length_seq, Nat.min_id in M1, M2.
  cbn [fst snd length] in M1, M2.
  split; [apply M1|apply M2];
    intros [xt d] [k ek] s'; repeat peel1;
    intros E'; apply Ok_inj in E'; subst s';
    cbn [fst snd]; rewrite length_app; cbn [length]; lia.
Qed.

Lemma precondition_safe toloose (e : vec) (x0 res : list vec) (dx_norm : vec) :
  (forall r e0 x, length r = n -> length x = n ->
                  safe (fun p => length p = n) (precond r e0 x)) ->
  e <> [] -> length x0 = length e -> length res = length e ->
  length dx_norm = length e -> sized x0 -> sized res ->
  safe sized (precondition precond toloose e x0 res dx_norm).
Proof.
  intros Hp He L0 Lr Ld S0 Sr.
  unfold precondition. apply safe_foldM; [constructor|].
  intros acc k Hk Sacc. apply in_seq in Hk.
  assert (forall l : vec, k < length l -> exists a, getitem l k = Ok a) as Hg.
  { intros l Hl.
    destruct (@getitem_in_range _ (fun _ => True) l k Hl) as (a & -> & _);
      [apply Forall_forall; auto|eauto]. }
  destruct (Hg dx_norm ltac:(lia)) as (nk & ->). cbn [bind].
  destruct (ltb toloose nk); [|exact Sacc].
  assert (k < length res) as Hkr by lia.
  destruct (getitem_in_range Hkr Sr) as (rk & -> & Lrk). cbn [bind].
  destruct e as [|e0 e']; [congruence|]. cbn [getitem nth_error bind].
  assert (k < length x0) as Hk0 by lia.
  destruct (getitem_in_range Hk0 S0) as (xk & -> & Lxk). cbn [bind].
  eapply safe_bind; [apply (Hp rk e0 xk Lrk Lxk)|].
  intros p Lp. cbn [safe]. apply snoc_image; assumption.
Qed.

Lemma project_out_total (xs : list vec) (space : nat) (xt : list vec) :
  sized xs -> space <= length xs -> sized xt ->
  exists xt', project_out xs space xt = Ok xt' /\ sized xt'.
Proof.
  intros Sx Ls St. unfold project_out.
  apply total_foldM; [exact St|].
  intros s i Hi Ss. apply in_seq in Hi.
  assert (i < length xs) as Hil by lia.
  destruct (getitem_in_range Hil Sx) as (xsi & Exsi & Lxsi).
  apply total_foldM; [constructor|].
  intros acc xi Hxi Sacc. rewrite Exsi. cbn [bind].
  assert (length xi = n) as Lxi by (rewrite Forall_forall in Ss; auto).
  rewrite npdot_same_length by congruence. cbn [bind].
  rewrite inplace_same_length
    by (unfold vmul_r; rewrite length_map; congruence).
  cbn [bind]. eexists; split; [reflexivity|].
  apply Forall_app; split; [exact Sacc|]. constructor; [|constructor].
  rewrite zipw_length; [exact Lxi|].
  unfold vmul_r; rewrite length_map; congruence.
Qed.

Lemma pymax_total (l : vec) : l <> [] -> exists m, pymax l = Ok m.
Proof. destruct l; [congruence|]. cbn [pymax]. eauto. Qed.

Hypothesis nroots_pos : 0 < nroots.
Hypothesis nroots_fit : nroots <= M.

(** A cycle from the locals at the head of the loop raises nothing of
    its own; it lands where the [return] can read [e] and [x0], and
    goes on with the locals that the next cycle needs. *)
Lemma dgeev_cycle_safe type tol toloose lessio incore
      (notify : nat -> vec -> matrix -> vec -> vec -> Dgeev.state -> result unit)
      icyc (st : Dgeev.state) :
  (forall i w v de dx_norm st',
      safe (fun _ => True) (notify i w v de dx_norm st')) ->
  dgeev_ready n M st ->
  safe (fun c => dgeev_result n (landing c) /\
                 forall s', c = Continue s' -> dgeev_ready n M s')
       (Dgeev.cycle abop precond dot eigh type tol toloose M nroots lessio
                    incore notify icyc st).
Proof.
  intros Hnotify Hready. unfold Dgeev.cycle. cbv zeta.
  destruct (dgeev_begin_cycle_safe Hready) as (a & -> & Ha). cbn [bind].
  destruct Ha as (Sxs & Sax & Sbx & (Lxs & Lax & Lbx) & Hh & Hs & Hne & Sxt &
                  Hfit & [ev Hev] & Hfs).
  assert (0 < length (Dgeev.xt a)) as Hrnow
      by (destruct (Dgeev.xt a); [congruence|cbn [length]; lia]).
  eapply safe_bind; [apply (dgeev_apply_operator_safe type Sxt)|].
  intros [axt bxt] (L1 & L2 & S1 & S2). cbn [fst snd] in *.
  rewrite dgeev_append_trials_total by assumption. cbn [bind].
  set (space' := Dgeev.space a + length (Dgeev.xt a)) in *.
  assert (sized (Dgeev.xs a ++ Dgeev.xt a)) as Sxs' by (apply Forall_app; auto).
  assert (sized (Dgeev.ax a ++ axt)) as Sax' by (apply Forall_app; auto).
  assert (sized (Dgeev.bx a ++ bxt)) as Sbx' by (apply Forall_app; auto).
  assert (length (Dgeev.xs a ++ Dgeev.xt a) = space') as Lxs'
      by (rewrite length_app; unfold space'; lia).
  assert (length (Dgeev.ax a ++ axt) = space') as Lax'
      by (rewrite length_app; unfold space'; lia).
  assert (length (Dgeev.bx a ++ bxt) = space') as Lbx'
      by (rewrite length_app; unfold space'; lia).
  eapply safe_bind.
  { unfold space'. apply dgeev_extend_safe; try assumption; try reflexivity;
      rewrite length_app; lia. }
  intros [heff' seff'] [Hh' Hs']. cbn [fst snd] in *.
  destruct contract as (_ & _ & _ & Heigh).
  eapply safe_bind.
  { apply (Heigh space'); [unfold space'; lia| |];
      apply leading_square with (M := M); assumption. }
  intros [w v] [Lw Sv].
  assert (w <> []) as Hw
      by (intros ->; cbn [length] in Lw; unfold space' in Lw; lia).
  rewrite Hev.
  destruct (@dgeev_deltas_total space' ev w nroots_pos Hw ltac:(lia))
    as (de & -> & Hde).
  cbn [bind].
  set (e' := firstn nroots w).
  assert (1 <= length e' <= nroots /\ length e' <= space') as (He1 & He2).
  { unfold e'. rewrite length_firstn. unfold space' in *. lia. }
  assert (e' <> []) as He' by (intros E; rewrite E in He1; cbn [length] in He1; lia).
  eapply safe_bind.
  { apply dgeev_ritz_safe with (ne := length e'); try eassumption;
      [unfold space'; lia|].
    intros i k Hi Hk. apply (mget_square Sv); lia. }
  intros [[x0' ax0] bx0] Himg.
  pose proof Himg as ((L0 & S0) & (La0 & Sa0) & (Lb0 & Sb0)). cbn [fst snd] in *.
  assert (forall fs l,
             dgeev_result n
               {| Dgeev.fresh_start := fs; Dgeev.xs := Dgeev.xs a ++ Dgeev.xt a;
                  Dgeev.ax := Dgeev.ax a ++ axt; Dgeev.bx := Dgeev.bx a ++ bxt;
                  Dgeev.space := space'; Dgeev.xt := l; Dgeev.x0 := x0';
                  Dgeev.e := Some e'; Dgeev.heff := heff';
                  Dgeev.seff := seff' |}) as Hres.
  { intros fs l. exists e'. cbn [Dgeev.e Dgeev.x0]. auto. }
  destruct (de_converged_total tol Hde) as (conv & ->). cbn [bind].
  destruct conv.
  { cbn [safe landing]. split; [apply Hres|]. intros s' E; discriminate. }
  destruct (@dgeev_residuals_total type e' x0' ax0 bx0 Himg)
    as (res & dxn & -> & Sres & Lres & Ldxn).
  cbn [bind].
  assert (dxn <> []) as Hdxn
      by (intros ->; cbn [length] in Ldxn; lia).
  destruct (pymax_total Hdxn) as (m & ->). cbn [bind].
  destruct (ltb m toloose).
  { cbn [safe landing]. split; [apply Hres|]. intros s' E; discriminate. }
  eapply safe_bind.
  { apply precondition_safe; try assumption; try congruence.
    destruct contract as (_ & Hp & _). exact Hp. }
  intros xt1 Sxt1.
  destruct (@project_out_total (Dgeev.xs a ++ Dgeev.xt a) space' xt1 Sxs'
              ltac:(lia) Sxt1) as (xt2 & -> & Sxt2).
  cbn [bind].
  pose proof (prune_sized toloose Sxt2) as Sxt3.
  destruct (length (prune toloose xt2) =? 0) eqn:E0.
  { cbn [safe landing]. split; [apply Hres|]. intros s' E; discriminate. }
  apply Nat.eqb_neq in E0.
  eapply safe_bind; [apply Hnotify|]. intros _ _.
  cbn [safe landing]. split; [apply Hres|].
  intros s' E. injection E as <-.
  unfold dgeev_ready, dgeev_in_step.
  cbn [Dgeev.xs Dgeev.ax Dgeev.bx Dgeev.space Dgeev.heff Dgeev.seff
       Dgeev.fresh_start Dgeev.x0 Dgeev.xt Dgeev.e].
  split; [exact Sxs'|]. split; [exact Sax'|]. split; [exact Sbx'|].
  split; [auto|]. split; [exact Hh'|]. split; [exact Hs'|].
  rewrite Hfs. cbn [orb].
  destruct (M <? space' + length (prune toloose xt2)) eqn:Ef.
  - split; [|split; [exact S0|lia]].
    intros E. rewrite E in L0. cbn [length] in L0. lia.
  - apply Nat.ltb_ge in Ef. split; [|split; [exact Sxt3|split; [exact Ef|eauto]]].
    intros E. rewrite E in E0. cbn [length] in E0. lia.
Qed.

End DgeevSafe.

Section DgeevSafeRun.
Context {F : Type} `{Scalar F}.
Local Abbreviation vec := (list F).
Local Abbreviation matrix := (list (list F)).

Variable abop : list vec -> result (list vec * list vec).
Variable abop1 : vec -> result (vec * vec).
Variable precond : vec -> F -> vec -> result vec.
Variable dot : vec -> vec -> result F.
Variable eigh : matrix -> matrix -> result (vec * matrix).

Lemma return_value_shaped (n nroots : nat) (ev : vec) (x0 : list vec) :
  ev <> [] -> length x0 = length ev -> Forall (fun x => length x = n) x0 ->
  exists r, return_value nroots (Some ev) x0 = Ok r /\ well_shaped n nroots r.
Proof.
  intros He L S. unfold return_value.
  destruct ev as [|e0 ev]; [congruence|].
  destruct x0 as [|x x0]; [discriminate|].
  destruct (nroots =? 1) eqn:E.
  - apply Nat.eqb_eq in E. cbn [getitem nth_error bind].
    eexists; split; [reflexivity|]. cbn [well_shaped].
    inversion S; subst. auto.
  - apply Nat.eqb_neq in E. eexists; split; [reflexivity|]. cbn [well_shaped].
    repeat split; auto; discriminate.
Qed.

(** X7.  [dgeev] raises nothing of its own when it is used as meant.
    Let the guesses be between 1 and [max_space + 2*nroots] vectors of one
    dimension [n >= 1], [nroots >= 1], [max_cycle >= 1] and [type] other
    than 3, and let the functions given to [dgeev] return arrays of the
    expected shapes whenever they return.  Then the call returns a value
    of the shape that [nroots] asks for, with vectors of dimension [n],
    or raises an exception that [abop], [precond], [dot], the dense
    eigensolver or the callback raised: no [IndexError], [ValueError],
    [ZeroDivisionError] or unbound local of the module's own. *)
Theorem dgeev_raises_nothing_of_its_own
        (n : nat) (x0 : guess F) (type : Z) (tol : F) (max_cycle : Z)
        (max_space : nat) (lindep : F) (max_memory : Z)
        (callback : option (Dgeev.locals -> result unit))
        (nroots : nat) (lessio : bool) :
  dgeev_contract n abop precond dot eigh -> quiet callback ->
  0 < n -> 0 < nroots -> (1 <= max_cycle)%Z -> type <> 3%Z ->
  as_list x0 <> [] -> Forall (fun x => length x = n) (as_list x0) ->
  length (as_list x0) <= max_space + nroots * 2 ->
  safe (well_shaped n nroots)
       (Dgeev.dgeev abop abop1 precond dot eigh x0 type tol max_cycle max_space
                    lindep max_memory callback nroots lessio).
Proof.
  intros Hc Hq Hn Hr Hm Ht Hne Hs Hl.
  unfold Dgeev.dgeev, Dgeev.run.
  destruct (as_list x0) as [|first rest] eqn:Ex; [congruence|].
  cbn [getitem nth_error bind].
  assert (length first = n) as Lf by (inversion Hs; assumption).
  unfold fits_in_core. rewrite Lf.
  destruct (n =? 0) eqn:En; [apply Nat.eqb_eq in En; lia|]. cbn [bind]. cbv zeta.
  set (N := Z.to_nat (Z.min max_cycle (Z.of_nat n))).
  assert (N <> 0) as HN by (unfold N; lia).
  set (M := max_space + nroots * 2) in *.
  match goal with
  | |- safe _ (bind (final (for_range ?body ?k ?i ?s)) _) =>
      pose proof (@for_range_safe _ (dgeev_ready n M) (dgeev_result n) body) as Hloop;
      specialize (fun Hb => Hloop Hb k i s)
  end.
  eapply safe_bind.
  { apply Hloop.
    - intros i s Hready.
      apply (@dgeev_cycle_safe _ _ n M nroots abop precond dot eigh Hc Hr);
        [unfold M; lia| |exact Hready].
      intros; cbv beta. destruct callback as [f|]; [apply Hq|exact I].
    - unfold dgeev_ready, dgeev_in_step.
      cbn [Dgeev.xs Dgeev.ax Dgeev.bx Dgeev.space Dgeev.heff Dgeev.seff
           Dgeev.fresh_start Dgeev.x0 length].
      repeat split; try constructor; try apply empty_matrix_square;
        try assumption; try discriminate.
      inversion Hs; assumption. }
  intros [why st] [Hres|[HN0 _]]; [|congruence]. cbn [snd] in Hres.
  destruct Hres as (ev & Ee & Hev & Lx & Sx).
  unfold Dgeev.finish. apply Z.eqb_neq in Ht. rewrite Ht, Ee. cbn [bind].
  destruct (return_value_shaped nroots Hev Lx Sx) as (r & -> & Hshape).
  exact Hshape.
Qed.

End DgeevSafeRun.

Lemma mapM_total {A B} (P : B -> Prop) (f : A -> result B) (l : list A) :
  (forall a, In a l -> exists b, f a = Ok b /\ P b) ->
  exists r, mapM f l = Ok r /\ length r = length l /\ Forall P r.
Proof.
  intros Hf. unfold mapM.
  destruct (@total_foldM _ _ (Forall P) (fun acc a => b <- f a ;; Ok (acc ++ [b]))
              l []) as (r & Er & Pr).
  { constructor. }
  { intros acc a Ha Pacc. destruct (Hf a Ha) as (b & -> & Pb). cbn [bind].
    eexists; split; [reflexivity|]. apply Forall_app; split; [exact Pacc|].
    constructor; [exact Pb|constructor]. }
  exists r. split; [exact Er|]. split; [|exact Pr].
  pose proof (@foldM_measure _ _ (@length B)
                (fun acc a => b <- f a ;; Ok (acc ++ [b]))) as Hm.
  rewrite (Hm ltac:(intros s a s'; cbv beta; peel1; intros E'; apply Ok_inj in E'; subst s';
                    rewrite length_app; cbn [length]; lia) _ _ _ Er).
  reflexivity.
Qed.

Section EigSafe.
Context {F : Type} `{Scalar F}.
Local Abbreviation vec := (list F).
Local Abbreviation matrix := (list (list F)).
Local Abbreviation complex := (F * F)%type.

Variables n M nroots : nat.
Local Abbreviation sized := (Forall (fun x : vec => length x = n)).

Variable aop : list vec -> result (list vec).
Variable precond : vec -> F -> vec -> result vec.
Variable dot : vec -> vec -> result F.
Variable pick : list complex -> list (list complex) -> nat -> result (list nat).
Variable eigs : matrix -> result (list complex * list (list complex)).

Hypothesis contract : eig_contract n nroots aop precond dot pick eigs.

Lemma eig_begin_cycle_safe (st : Eig.state) :
  eig_ready n M st ->
  exists a, Eig.begin_cycle nroots st = Ok a /\ eig_started n M a.
Proof.
  intros (Hxs & Hax & Hstep & Hh & Hf). unfold Eig.begin_cycle.
  destruct (Eig.fresh_start st) eqn:Ef.
  - destruct Hf as (Hne & Hx0 & Hl).
    destruct (qr_same_dimension Hne Hx0) as (qs & -> & Hq & Hlq & Hsq).
    cbn [bind]. eexists; split; [reflexivity|].
    unfold eig_started, eig_in_step.
    cbn [Eig.xs Eig.ax Eig.space Eig.heff Eig.xt Eig.e Eig.fresh_start length].
    repeat split; try constructor; try assumption; try apply Hh; eauto; lia.
  - destruct Hf as (Hne & Hxt & Hl & He).
    destruct (1 <? length (Eig.xt st)) eqn:E1.
    + destruct (qr_same_dimension Hne Hxt) as (qs & -> & Hq & Hlq & Hsq).
      cbn [bind]. eexists; split; [reflexivity|].
      unfold eig_started, eig_in_step.
      cbn [Eig.xs Eig.ax Eig.space Eig.heff Eig.xt Eig.e Eig.fresh_start].
      assert (length (firstn 40 qs) <= length qs) as L40
          by (rewrite length_firstn; lia).
      repeat split; try assumption; try apply Hstep; try apply Hh.
      * apply firstn_nonempty; [lia|exact Hq].
      * apply firstn_sized, Hsq.
      * lia.
    + exists st. split; [reflexivity|].
      unfold eig_started. repeat split; try assumption; try apply Hstep;
        try apply Hh.
Qed.

Lemma eig_append_trials_total (st : Eig.state) (axt : list vec) :
  length axt = length (Eig.xt st) ->
  Eig.append_trials st axt = Ok (Eig.xs st ++ Eig.xt st, Eig.ax st ++ axt).
Proof.
  intros La. unfold Eig.append_trials.
  assert (forall m, m <= length (Eig.xt st) ->
            foldM (fun '(xs, ax) k =>
                     xk <- getitem (Eig.xt st) k ;;
                     ak <- getitem axt k ;;
                     Ok (xs ++ [xk], ax ++ [ak]))
                  (seq 0 m) (Eig.xs st, Eig.ax st)
            = Ok (Eig.xs st ++ firstn m (Eig.xt st),
                  Eig.ax st ++ firstn m axt)) as Hm.
  { induction m as [|m IH]; intros Hle.
    - cbn [seq foldM firstn]. rewrite !app_nil_r. reflexivity.
    - rewrite seq_S, foldM_app, IH by lia. cbn [bind Nat.add foldM].
      unfold getitem.
      destruct (nth_error (Eig.xt st) m) as [xk|] eqn:E1;
        [|apply nth_error_None in E1; lia].
      destruct (nth_error axt m) as [ak|] eqn:E2;
        [|apply nth_error_None in E2; lia].
      cbn [bind]. rewrite <- !app_assoc.
      rewrite (append_firstn _ _ E1), (append_firstn _ _ E2). reflexivity. }
  rewrite (Hm _ (le_n _)). rewrite firstn_all.
  rewrite <- La at 1. rewrite firstn_all. reflexivity.
Qed.

Lemma assign_safe (m : matrix) (p q : nat) (ua : result (vec * vec)) :
  square M m -> p < M -> q < M ->
  safe (fun ua : vec * vec => length (fst ua) = n /\ length (snd ua) = n) ua ->
  safe (square M) (Eig.assign dot m p q ua).
Proof.
  intros Hm Hp Hq Hua. destruct contract as (_ & _ & Hdot & _). unfold Eig.assign.
  eapply safe_bind; [exact Hua|]. intros [u a] [Lu La]. cbn [fst snd] in *.
  eapply safe_bind; [apply (Hdot u a Lu La)|]. intros d _.
  destruct (mset_square d Hm Hp Hq) as (m1 & -> & Hm1). exact Hm1.
Qed.

Lemma operands_right (x : vec) (l : list vec) (k : nat) :
  length x = n -> k < length l -> sized l ->
  safe (fun ua : vec * vec => length (fst ua) = n /\ length (snd ua) = n)
       (operands (Ok x) (getitem l k)).
Proof.
  intros Lx Hk Sl. unfold operands. cbn [bind].
  destruct (getitem_in_range Hk Sl) as (a & -> & La). cbn [bind safe fst snd].
  auto.
Qed.

Lemma operands_left (l : list vec) (k : nat) (x : vec) :
  k < length l -> sized l -> length x = n ->
  safe (fun ua : vec * vec => length (fst ua) = n /\ length (snd ua) = n)
       (operands (getitem l k) (Ok x)).
Proof.
  intros Hk Sl Lx. unfold operands.
  destruct (getitem_in_range Hk Sl) as (a & -> & La). cbn [bind safe fst snd].
  auto.
Qed.

Lemma eig_extend_safe (xt axt xs ax : list vec) (head rnow : nat) (heff : matrix) :
  length xt = rnow -> length axt = rnow ->
  sized xt -> sized axt -> sized xs -> sized ax ->
  head <= length xs -> head <= length ax -> head + rnow <= M ->
  square M heff ->
  safe (square M) (Eig.extend dot xt axt xs ax head rnow heff).
Proof.
  intros Lx La Sx Sa Sxs Sax Hxs Hax HM Hh. unfold Eig.extend.
  eapply safe_bind with (Q := square M).
  - apply safe_foldM; [exact Hh|].
    intros h i Hi Sh. apply in_seq in Hi.
    apply safe_foldM; [exact Sh|].
    intros h0 k Hk Sh0. apply in_seq in Hk.
    apply assign_safe; [exact Sh0|lia|lia|].
    apply operands_sized; try assumption; lia.
  - intros h Sh. apply safe_foldM; [exact Sh|].
    intros h0 i Hi Sh0. apply in_seq in Hi.
    assert (i < length ax) as Hi1 by lia.
    assert (i < length xs) as Hi2 by lia.
    destruct (getitem_in_range Hi1 Sax) as (axi & -> & Laxi). cbn [bind].
    destruct (getitem_in_range Hi2 Sxs) as (xi & -> & Lxi). cbn [bind].
    apply safe_foldM; [exact Sh0|].
    intros h1 k Hk Sh1. apply in_seq in Hk.
    eapply safe_bind.
    { apply assign_safe; [exact Sh1|lia|lia|].
      apply operands_left; try assumption; lia. }
    intros h2 Sh2.
    apply assign_safe; [exact Sh2|lia|lia|].
    apply operands_right; try assumption; lia.
Qed.

Lemma eig_deltas_total (idx : list nat) (ev wr : vec) :
  length wr = length idx -> length idx <= nroots -> wr <> [] ->
  exists de, Eig.deltas nroots idx (Some ev) wr = Ok de /\ de <> [].
Proof.
  intros Lw Hle Hw. unfold Eig.deltas.
  destruct (length idx <? nroots) eqn:E1; [eauto|]. cbn [bind].
  destruct (length ev =? nroots) eqn:E2; cbn [negb]; [|eauto].
  apply Nat.ltb_ge in E1. apply Nat.eqb_eq in E2.
  assert (length wr = length ev) as L by lia.
  rewrite broadcast_same_length by exact L.
  eexists; split; [reflexivity|].
  intros E. apply (f_equal (@length F)) in E.
  rewrite zipw_length in E by exact L. cbn [length] in E.
  destruct wr; [congruence|discriminate].
Qed.

Lemma select_columns_total (k : nat) (vc : list (list complex)) (idx : list nat) :
  square k vc -> Forall (fun i => i < k) idx ->
  exists v, Eig.select_columns vc idx = Ok v /\
            forall i j, i < k -> j < length idx -> exists c, mget v i j = Ok c.
Proof.
  intros [Lv Sv] Hidx. unfold Eig.select_columns.
  destruct (@mapM_total _ _ (fun row : vec => length row = length idx)
              (fun row => cols <- mapM (getitem row) idx ;; Ok (map re cols)) vc)
    as (v & -> & Lr & Sr).
  { intros row Hrow.
    assert (length row = k) as Lrow by (rewrite Forall_forall in Sv; auto).
    destruct (@mapM_total _ _ (fun _ : complex => True) (getitem row) idx)
      as (cols & -> & Lc & _).
    { intros i Hi. rewrite Forall_forall in Hidx.
      assert (i < length row) as Hil by (rewrite Lrow; auto).
      destruct (@getitem_in_range _ (fun _ => True) row i Hil) as (a & -> & _);
        [apply Forall_forall; auto|eauto]. }
    cbn [bind]. eexists; split; [reflexivity|]. rewrite length_map. exact Lc. }
  exists v. split; [reflexivity|].
  intros i j Hi Hj. unfold mget.
  assert (i < length v) as Hil by lia.
  destruct (getitem_in_range Hil Sr) as (row & -> & Lrow). cbn [bind].
  assert (j < length row) as Hjl by lia.
  destruct (@getitem_in_range _ (fun _ => True) row j Hjl) as (c & -> & _);
    [apply Forall_forall; auto|eauto].
Qed.

Local Abbreviation images2 ne :=
  (fun r : list vec * list vec =>
     (length (fst r) = ne /\ sized (fst r)) /\
     (length (snd r) = ne /\ sized (snd r))).

Lemma eig_ritz_assembled_total (xs ax : list vec) (v : matrix) (space ne : nat) :
  sized xs -> sized ax -> length xs = space -> length ax = space ->
  0 < space ->
  (forall i k, i < space -> k < ne -> exists c, mget v i k = Ok c) ->
  exists r, Eig.ritz_assembled xs ax v space ne = Ok r /\ images2 ne r.
Proof.
  intros Sx Sa Lx La Hs Sv. unfold Eig.ritz_assembled.
  assert (space - 1 < length xs) as Hl1 by lia.
  assert (space - 1 < length ax) as Hl2 by lia.
  destruct (getitem_in_range Hl1 Sx) as (xl & Exl & Lxl).
  destruct (getitem_in_range Hl2 Sa) as (al & Eal & Lal).
  match goal with
  | |- exists x0, bind (foldM ?f ?l ?s) _ = _ /\ _ =>
      destruct (@total_foldM _ _
                  (fun r : list vec * list vec => sized (fst r) /\ sized (snd r))
                  f l s) as (y & Ey & Sy)
  end.
  { cbn [fst snd]. split; constructor. }
  { intros [x0 a0] k Hk (S1 & S2). apply in_seq in Hk.
    cbn [fst snd] in *. rewrite Exl. cbn [bind].
    destruct (Sv (space - 1) k) as (c & ->); [lia|lia|].
    cbn [bind]. rewrite Eal. cbn [bind].
    eexists; split; [reflexivity|]. cbn [fst snd].
    split; apply snoc_image; assumption. }
  rewrite Ey. cbn [bind].
  assert (length (fst y) = ne /\ length (snd y) = ne) as (L1 & L2).
  { revert Ey. match goal with
    | |- foldM ?f _ _ = _ -> _ =>
        intros Ey;
        pose proof (@foldM_measure _ _
                      (fun r : list vec * list vec => length (fst r)) f) as M1;
        pose proof (@foldM_measure _ _
                      (fun r : list vec * list vec => length (snd r)) f) as M2
    end.
    specialize (fun Hf => M1 Hf _ _ _ Ey).
    specialize (fun Hf => M2 Hf _ _ _ Ey).
    rewrite length_seq in M1, M2. cbn [fst snd length] in M1, M2.
    split; [apply M1|apply M2];
      intros [x0 a0] k s'; repeat peel1;
      intros E'; apply Ok_inj in E'; subst s';
      cbn [fst snd]; rewrite length_app; cbn [length]; lia. }
  apply total_foldM with (I := images2 ne); [tauto|].
  intros s i Hi Is. apply in_rev, in_seq in Hi.
  assert (i < length xs) as Hi1 by lia.
  assert (i < length ax) as Hi2 by lia.
  destruct (getitem_in_range Hi1 Sx) as (xsi & -> & Lxsi).
  destruct (getitem_in_range Hi2 Sa) as (axi & -> & Laxi). cbn [bind].
  apply total_foldM; [exact Is|].
  intros [x0 a0] k Hk (I1 & I2). apply in_seq in Hk.
  cbn [fst snd] in *.
  assert (k < length x0) as Hk1 by (destruct I1; lia).
  assert (k < length a0) as Hk2 by (destruct I2; lia).
  destruct (getitem_in_range Hk1 (proj2 I1)) as (xk & -> & Lxk). cbn [bind].
  destruct (Sv i k) as (c & ->); [lia|lia|]. cbn [bind].
  rewrite inplace_same_length
    by (unfold vmul_l; rewrite length_map; congruence).
  cbn [bind].
  destruct (getitem_in_range Hk2 (proj2 I2)) as (ak & -> & Lak). cbn [bind].
  rewrite inplace_same_length
    by (unfold vmul_l; rewrite length_map; congruence).
  cbn [bind]. eexists; split; [reflexivity|]. cbn [fst snd].
  split; apply add_image; assumption.
Qed.

Lemma eig_ritz_safe lessio incore (xs ax : list vec) (v : matrix)
      (space ne : nat) :
  sized xs -> sized ax -> length xs = space -> length ax = space ->
  0 < space ->
  (forall i k, i < space -> k < ne -> exists c, mget v i k = Ok c) ->
  safe (images2 ne) (Eig.ritz aop lessio incore xs ax v space ne).
Proof.
  intros Sx Sa Lx La Hs Sv. unfold Eig.ritz.
  destruct (lessio && negb incore).
  - destruct (@dgeev_ritz_vectors_total _ _ n xs v space ne Sx Lx Hs Sv)
      as (x0 & Ex & L0 & S0).
    change (Eig.ritz_vectors xs v space ne = Ok x0) in Ex. rewrite Ex.
    cbn [bind]. destruct contract as (Haop & _).
    eapply safe_bind; [apply (Haop _ S0)|]. intros ax0 [La0 Sa0].
    cbn [safe fst snd]. repeat split; try assumption; lia.
  - destruct (@eig_ritz_assembled_total xs ax v space ne Sx Sa Lx La Hs Sv)
      as (r & -> & Hr).
    exact Hr.
Qed.

Lemma eig_residuals_total (e : vec) (x0 ax0 : list vec) :
  images2 (length e) (x0, ax0) ->
  exists res dx_norm,
    Eig.residuals e x0 ax0 = Ok (res, dx_norm) /\
    sized res /\ length res = length e /\ length dx_norm = length e.
Proof.
  cbn [fst snd]. intros ((L0 & S0) & (L1 & S1)).
  unfold Eig.residuals.
  match goal with
  | |- exists res dx_norm, foldM ?f ?l ?s = _ /\ _ =>
      destruct (@total_foldM _ _ (fun r : list vec * vec => sized (fst r)) f l s)
        as ([res dxn] & Er & Sr)
  end.
  { constructor. }
  { intros [xt dxn] [k ek] Hk Sxt. apply in_combine_l, in_seq in Hk.
    cbn [fst] in *.
    assert (k < length ax0) as Hk1 by lia.
    assert (k < length x0) as Hk0 by lia.
    destruct (getitem_in_range Hk1 S1) as (ak & -> & Lak). cbn [bind].
    destruct (getitem_in_range Hk0 S0) as (xk & -> & Lxk). cbn [bind].
    rewrite broadcast_same_length
      by (unfold vmul_l; rewrite length_map; congruence).
    cbn [bind]. eexists; split; [reflexivity|]. cbn [fst].
    apply Forall_app; split; [exact Sxt|]. constructor; [|constructor].
    rewrite zipw_length; [exact Lak|].
    unfold vmul_l; rewrite length_map; congruence. }
  exists res, dxn. split; [exact Er|]. split; [exact Sr|].
  revert Er. match goal with
  | |- foldM ?f _ _ = _ -> _ =>
      intros Er;
      pose proof (@foldM_measure _ _ (fun r : list vec * vec => length (fst r)) f)
        as M1;
      pose proof (@foldM_measure _ _ (fun r : list vec * vec => length (snd r)) f)
        as M2
  end.
  specialize (fun Hf => M1 Hf _ _ _ Er).
  specialize (fun Hf => M2 Hf _ _ _ Er).
  rewrite length_combine, length_seq, Nat.min_id in M1, M2.
  cbn [fst snd length] in M1, M2.
  split; [apply M1|apply M2];
    intros [xt d] [k ek] s'; repeat peel1;
    intros E'; apply Ok_inj in E'; subst s';
    cbn [fst snd]; rewrite length_app; cbn [length]; lia.
Qed.

Lemma eig_project_out_total (xs : list vec) (space : nat) (xt : list vec) :
  sized xs -> space <= length xs -> sized xt ->
  exists xt', Eig.project_out xs space xt = Ok xt' /\ sized xt'.
Proof.
  intros Sx Ls St. unfold Eig.project_out.
  apply total_foldM; [exact St|].
  intros s i Hi Ss. apply in_seq in Hi.
  assert (i < length xs) as Hil by lia.
  destruct (getitem_in_range Hil Sx) as (xsi & -> & Lxsi). cbn [bind].
  apply total_foldM; [constructor|].
  intros acc xi Hxi Sacc.
  assert (length xi = n) as Lxi by (rewrite Forall_forall in Ss; auto).
  rewrite npdot_same_length by congruence. cbn [bind].
  rewrite inplace_same_length
    by (unfold vmul_r; rewrite length_map; congruence).
  cbn [bind]. eexists; split; [reflexivity|].
  apply Forall_app; split; [exact Sacc|]. constructor; [|constructor].
  rewrite zipw_length; [exact Lxi|].
  unfold vmul_r; rewrite length_map; congruence.
Qed.

Hypothesis nroots_fit : nroots <= M.

Lemma eig_cycle_safe tol toloose lessio incore
      (notify : nat -> list complex -> matrix -> list nat -> vec -> vec ->
                Eig.state -> result unit)
      icyc (st : Eig.state) :
  (forall i w v idx de dx_norm st',
      safe (fun _ => True) (notify i w v idx de dx_norm st')) ->
  eig_ready n M st ->
  safe (fun c => eig_result n (landing c) /\
                 forall s', c = Continue s' -> eig_ready n M s')
       (Eig.cycle aop precond dot pick eigs tol toloose M nroots lessio
                  incore notify icyc st).
Proof.
  intros Hnotify Hready. unfold Eig.cycle. cbv zeta.
  destruct (eig_begin_cycle_safe Hready) as (a & -> & Ha). cbn [bind].
  destruct Ha as (Sxs & Sax & (Lxs & Lax) & Hh & Hne & Sxt & Hfit & [ev Hev] & Hfs).
  assert (0 < length (Eig.xt a)) as Hrnow
      by (destruct (Eig.xt a); [congruence|cbn [length]; lia]).
  destruct contract as (Haop & Hp & _ & Heigs).
  eapply safe_bind; [apply (Haop _ Sxt)|]. intros axt [L1 S1].
  rewrite eig_append_trials_total by assumption. cbn [bind].
  set (space' := Eig.space a + length (Eig.xt a)) in *.
  assert (sized (Eig.xs a ++ Eig.xt a)) as Sxs' by (apply Forall_app; auto).
  assert (sized (Eig.ax a ++ axt)) as Sax' by (apply Forall_app; auto).
  assert (length (Eig.xs a ++ Eig.xt a) = space') as Lxs'
      by (rewrite length_app; unfold space'; lia).
  assert (length (Eig.ax a ++ axt) = space') as Lax'
      by (rewrite length_app; unfold space'; lia).
  eapply safe_bind.
  { apply eig_extend_safe; try assumption; try reflexivity;
      try (rewrite length_app; lia). }
  intros heff' Hh'.
  eapply safe_bind.
  { apply (Heigs space'); [unfold space'; lia|].
    apply leading_square with (M := M); assumption. }
  intros [w vc] (Lw & Svc & Hpick).
  eapply safe_bind; [exact Hpick|].
  intros idx [[Hi1 Hi2] Hidx].
  destruct (@mapM_total _ _ (fun _ : complex => True) (getitem w) idx)
    as (wsel & -> & Lwsel & _).
  { intros i Hi. rewrite Forall_forall in Hidx.
    assert (i < length w) as Hil by (rewrite Lw; auto).
    destruct (@getitem_in_range _ (fun _ => True) w i Hil) as (c & -> & _);
      [apply Forall_forall; auto|eauto]. }
  cbn [bind].
  set (e' := map re wsel).
  assert (length e' = length idx) as Le' by (unfold e'; rewrite length_map; exact Lwsel).
  assert (e' <> []) as He'
      by (intros E; rewrite E in Le'; cbn [length] in Le'; lia).
  rewrite Hev.
  destruct (@eig_deltas_total idx ev e' Le' Hi2 He') as (de & -> & Hde).
  cbn [bind].
  destruct (select_columns_total Svc Hidx) as (v & -> & Hv). cbn [bind].
  eapply safe_bind.
  { apply eig_ritz_safe with (ne := length e'); try eassumption;
      [unfold space'; lia|].
    intros i k Hi Hk. apply Hv; lia. }
  intros [x0' ax0] Himg.
  pose proof Himg as ((L0 & S0) & (La0 & Sa0)). cbn [fst snd] in *.
  assert (forall fs l,
             eig_result n
               {| Eig.fresh_start := fs; Eig.xs := Eig.xs a ++ Eig.xt a;
                  Eig.ax := Eig.ax a ++ axt;
                  Eig.space := space'; Eig.xt := l; Eig.x0 := x0';
                  Eig.e := Some e'; Eig.heff := heff' |}) as Hres.
  { intros fs l. exists e'. cbn [Eig.e Eig.x0]. auto. }
  destruct (de_converged_total tol Hde) as (conv & ->). cbn [bind].
  destruct conv.
  { cbn [safe landing]. split; [apply Hres|]. intros s' E; discriminate. }
  destruct (@eig_residuals_total e' x0' ax0 Himg)
    as (res & dxn & -> & Sres & Lres & Ldxn).
  cbn [bind].
  assert (dxn <> []) as Hdxn
      by (intros ->; cbn [length] in Ldxn; lia).
  destruct (pymax_total Hdxn) as (m & ->). cbn [bind].
  destruct (ltb m toloose).
  { cbn [safe landing]. split; [apply Hres|]. intros s' E; discriminate. }
  eapply safe_bind.
  { apply precondition_safe with (n := n); try assumption; congruence. }
  intros xt1 Sxt1.
  destruct (@eig_project_out_total (Eig.xs a ++ Eig.xt a) space' xt1 Sxs'
              ltac:(lia) Sxt1) as (xt2 & -> & Sxt2).
  cbn [bind].
  pose proof (prune_sized toloose Sxt2) as Sxt3.
  destruct (length (prune toloose xt2) =? 0) eqn:E0.
  { cbn [safe landing]. split; [apply Hres|]. intros s' E; discriminate. }
  apply Nat.eqb_neq in E0.
  eapply safe_bind; [apply Hnotify|]. intros _ _.
  cbn [safe landing]. split; [apply Hres|].
  intros s' E. injection E as <-.
  unfold eig_ready, eig_in_step.
  cbn [Eig.xs Eig.ax Eig.space Eig.heff Eig.fresh_start Eig.x0 Eig.xt Eig.e].
  split; [exact Sxs'|]. split; [exact Sax'|].
  split; [auto|]. split; [exact Hh'|].
  rewrite Hfs. cbn [orb].
  destruct (M <? space' + length (prune toloose xt2)) eqn:Ef.
  - split; [|split; [exact S0|lia]].
    intros E. rewrite E in L0. cbn [length] in L0. lia.
  - apply Nat.ltb_ge in Ef. split; [|split; [exact Sxt3|split; [exact Ef|eauto]]].
    intros E. rewrite E in E0. cbn [length] in E0. lia.
Qed.

End EigSafe.


Section EigSafeRun.
Context {F : Type} `{Scalar F}.
Local Abbreviation vec := (list F).
Local Abbreviation matrix := (list (list F)).
Local Abbreviation complex := (F * F)%type.

Variable aop : list vec -> result (list vec).
Variable precond : vec -> F -> vec -> result vec.
Variable dot : vec -> vec -> result F.
Variable pick : list complex -> list (list complex) -> nat -> result (list nat).
Variable eigs : matrix -> result (list complex * list (list complex)).

(** X8.  The same for [eig], whose selector is expected to return between
    1 and [nroots] positions of [w]: with guesses of one dimension
    [n >= 1], at most [max_space + 2*nroots] of them, [max_cycle >= 1] and
    [left] unset, the call returns a value of the shape that [nroots]
    asks for or raises what [aop], [precond], [dot], [pick], the dense
    eigensolver or the callback raised. *)
Theorem eig_raises_nothing_of_its_own
        (n : nat) (x0 : guess F) (tol : F) (max_cycle : Z)
        (max_space : nat) (lindep : F) (max_memory : Z)
        (callback : option (Eig.locals -> result unit))
        (nroots : nat) (lessio : bool) :
  eig_contract n nroots aop precond dot pick eigs -> quiet callback ->
  0 < n -> (1 <= max_cycle)%Z ->
  as_list x0 <> [] -> Forall (fun x => length x = n) (as_list x0) ->
  length (as_list x0) <= max_space + nroots * 2 ->
  safe (well_shaped n nroots)
       (Eig.eig aop precond dot pick eigs x0 tol max_cycle max_space
                lindep max_memory callback nroots lessio false).
Proof.
  intros Hc Hq Hn Hm Hne Hs Hl.
  unfold Eig.eig, Eig.run.
  destruct (as_list x0) as [|first rest] eqn:Ex; [congruence|].
  cbn [getitem nth_error bind].
  assert (length first = n) as Lf by (inversion Hs; assumption).
  unfold fits_in_core. rewrite Lf.
  destruct (n =? 0) eqn:En; [apply Nat.eqb_eq in En; lia|]. cbn [bind]. cbv zeta.
  set (N := Z.to_nat (Z.min max_cycle (Z.of_nat n))).
  assert (N <> 0) as HN by (unfold N; lia).
  set (M := max_space + nroots * 2) in *.
  match goal with
  | |- safe _ (bind (final (for_range ?body ?k ?i ?s)) _) =>
      pose proof (@for_range_safe _ (eig_ready n M) (eig_result n) body) as Hloop;
      specialize (fun Hb => Hloop Hb k i s)
  end.
  eapply safe_bind.
  { apply Hloop.
    - intros i s Hready.
      apply (@eig_cycle_safe _ _ n M nroots aop precond dot pick eigs Hc);
        [unfold M; lia| |exact Hready].
      intros; cbv beta. destruct callback as [f|]; [apply Hq|exact I].
    - unfold eig_ready, eig_in_step.
      cbn [Eig.xs Eig.ax Eig.space Eig.heff Eig.fresh_start Eig.x0 length].
      repeat split; try constructor; try apply empty_matrix_square;
        try assumption; try discriminate.
      inversion Hs; assumption. }
  intros [why st] [Hres|[HN0 _]]; [|congruence]. cbn [snd] in Hres.
  destruct Hres as (ev & Ee & Hev & Lx & Sx).
  unfold Eig.finish. rewrite Ee.
  destruct (return_value_shaped nroots Hev Lx Sx) as (r & -> & Hshape).
  exact Hshape.
Qed.

End EigSafeRun.

(** ** The exit by the residuals *)

Lemma final_break {St} (Inv : St -> Prop)
      (body : nat -> St -> result (control St)) :
  (forall i s c, Inv s -> body i s = Ok c -> Inv (landing c)) ->
  forall n i s why s', Inv s ->
    final (for_range body n i s) = Ok (why, s') ->
    why = CyclesDone \/
    exists i' s0, Inv s0 /\ body i' s0 = Ok (Break why s').
Proof.
  intros Hb n; induction n as [|n IH]; intros i s why s' Hs; cbn [for_range final].
  - intros E; apply Ok_inj in E. injection E as <- <-. left; reflexivity.
  - destruct (body i s) as [[s1|why1 s1]|ex] eqn:E; cbn [final]; intros E'.
    + eapply IH; [apply (Hb i s _ Hs E)|exact E'].
    + apply Ok_inj in E'. injection E' as <- <-. right. eauto.
    + discriminate.
Qed.

Lemma combine_snoc {A B} (l1 : list A) (l2 : list B) (a : A) (b : B) :
  length l1 = length l2 ->
  combine (l1 ++ [a]) (l2 ++ [b]) = combine l1 l2 ++ [(a, b)].
Proof.
  revert l2; induction l1 as [|x l1 IH]; intros [|y l2] L; simpl in *;
    try discriminate; [reflexivity|].
  rewrite IH by lia. reflexivity.
Qed.

Section ResidualExit.
Context {F : Type} `{Scalar F}.
Local Abbreviation vec := (list F).
Local Abbreviation matrix := (list (list F)).
Local Abbreviation complex := (F * F)%type.

Lemma pymax_bounds (l : vec) (m t : F) :
  ordered_below t l ->
  pymax l = Ok m -> ltb m t = true -> Forall (fun a => ltb a t = true) l.
Proof.
  destruct l as [|a l]; [discriminate|]. cbn [pymax].
  intros Ho E; apply Ok_inj in E; subst m.
  revert a Ho; induction l as [|b l IH]; intros a Ho Hm; cbn [fold_left] in Hm.
  - constructor; [exact Hm|constructor].
  - destruct (Ho a b (or_introl eq_refl) (or_intror (or_introl eq_refl)))
      as [Htrans Hco].
    destruct (ltb a b) eqn:Eab.
    + assert (ordered_below t (b :: l)) as Ho'
          by (intros x y Hx Hy; apply Ho; right; assumption).
      specialize (IH _ Ho' Hm). inversion IH as [|? ? Hs Hl]; subst.
      constructor; [exact (Htrans eq_refl Hs)|]. constructor; assumption.
    + assert (ordered_below t (a :: l)) as Ho'.
      { intros x y Hx Hy.
        apply Ho; [destruct Hx; [left|right; right]
                  |destruct Hy; [left|right; right]]; assumption. }
      specialize (IH _ Ho' Hm). inversion IH as [|? ? Hs Hl]; subst.
      constructor; [exact Hs|].
      constructor; [exact (Hco eq_refl Hs)|exact Hl].
Qed.

Lemma norms_described (f : F -> vec -> F) (e : vec) (xs : list vec)
      (dx_norm : vec) :
  length dx_norm = length e -> length xs = length e ->
  (forall k ek xk, nth_error e k = Some ek -> nth_error xs k = Some xk ->
                   nth_error dx_norm k = Some (f ek xk)) ->
  dx_norm = map (fun p => f (fst p) (snd p)) (combine e xs).
Proof.
  revert xs dx_norm; induction e as [|ek e IH]; intros xs dx_norm Ld Lx Hd.
  - destruct dx_norm; [reflexivity|discriminate].
  - destruct xs as [|xk xs]; [discriminate|].
    destruct dx_norm as [|d dx_norm]; [discriminate|].
    cbn [combine map fst snd]. f_equal.
    + specialize (Hd 0 ek xk eq_refl eq_refl). cbn [nth_error] in Hd.
      congruence.
    + apply IH; [cbn in Ld; lia|cbn in Lx; lia|].
      intros k ek' xk' He Hx. exact (Hd (S k) ek' xk' He Hx).
Qed.

Lemma dgeev_residuals_norms type (e : vec) (x0 ax0 bx0 res : list vec)
      (dx_norm : vec) :
  Dgeev.residuals type e x0 ax0 bx0 = Ok (res, dx_norm) ->
  length dx_norm = length e /\
  forall k ek, nth_error e k = Some ek ->
    exists ak yk d,
      getitem ax0 k = Ok ak /\
      (if (type =? 1)%Z then getitem bx0 k else getitem x0 k) = Ok yk /\
      broadcast sub ak (vmul_l ek yk) = Ok d /\
      nth_error dx_norm k = Some (norm d).
Proof.
  unfold Dgeev.residuals. revert res dx_norm.
  induction e as [|el e IH] using rev_ind; intros res dx_norm.
  - cbn [length seq combine foldM]. intros E; apply Ok_inj in E.
    injection E as <- <-. split; [reflexivity|].
    intros [|k] ek; discriminate.
  - rewrite length_app. cbn [length]. rewrite seq_app. cbn [seq Nat.add].
    rewrite combine_snoc by (rewrite length_seq; reflexivity).
    rewrite foldM_app.
    destruct (foldM _ (combine (seq 0 (length e)) e) _) as [[res1 dxn1]|ex] eqn:E1;
      cbn [bind]; [|discriminate].
    destruct (IH _ _ eq_refl) as [L1 H1]. cbn [foldM].
    destruct (getitem ax0 (length e)) as [ak|] eqn:Ea; cbn [bind]; [|discriminate].
    destruct (if (type =? 1)%Z then getitem bx0 (length e)
              else getitem x0 (length e)) as [yk|] eqn:Ey; cbn [bind];
      [|discriminate].
    destruct (broadcast sub ak (vmul_l el yk)) as [d|] eqn:Ed; cbn [bind];
      [|discriminate].
    intros E; apply Ok_inj in E. injection E as <- <-.
    split; [rewrite length_app; cbn [length]; lia|].
    intros k ek Hk.
    destruct (Nat.lt_ge_cases k (length e)) as [Hlt|Hge].
    + rewrite nth_error_app1 in Hk by exact Hlt.
      destruct (H1 k ek Hk) as (ak' & yk' & d' & G1 & G2 & G3 & G4).
      exists ak', yk', d'. repeat split; try assumption.
      rewrite nth_error_app1 by lia. exact G4.
    + assert (k = length e) as ->.
      { assert (k < length (e ++ [el])) as Hk'
            by (apply nth_error_Some; congruence).
        rewrite length_app in Hk'. cbn [length] in Hk'. lia. }
      rewrite nth_error_app2, Nat.sub_diag in Hk by lia. cbn [nth_error] in Hk.
      injection Hk as <-.
      exists ak, yk, d. repeat split; try assumption.
      rewrite nth_error_app2, L1, Nat.sub_diag by lia. reflexivity.
Qed.

Lemma eig_residuals_norms (e : vec) (x0 ax0 res : list vec) (dx_norm : vec) :
  Eig.residuals e x0 ax0 = Ok (res, dx_norm) ->
  length dx_norm = length e /\
  forall k ek, nth_error e k = Some ek ->
    exists ak xk d,
      getitem ax0 k = Ok ak /\ getitem x0 k = Ok xk /\
      broadcast sub ak (vmul_l ek xk) = Ok d /\
      nth_error dx_norm k = Some (norm d).
Proof.
  unfold Eig.residuals. revert res dx_norm.
  induction e as [|el e IH] using rev_ind; intros res dx_norm.
  - cbn [length seq combine foldM]. intros E; apply Ok_inj in E.
    injection E as <- <-. split; [reflexivity|].
    intros [|k] ek; discriminate.
  - rewrite length_app. cbn [length]. rewrite seq_app. cbn [seq Nat.add].
    rewrite combine_snoc by (rewrite length_seq; reflexivity).
    rewrite foldM_app.
    destruct (foldM _ (combine (seq 0 (length e)) e) _) as [[res1 dxn1]|ex] eqn:E1;
      cbn [bind]; [|discriminate].
    destruct (IH _ _ eq_refl) as [L1 H1]. cbn [foldM].
    destruct (getitem ax0 (length e)) as [ak|] eqn:Ea; cbn [bind]; [|discriminate].
    destruct (getitem x0 (length e)) as [xk|] eqn:Ey; cbn [bind]; [|discriminate].
    destruct (broadcast sub ak (vmul_l el xk)) as [d|] eqn:Ed; cbn [bind];
      [|discriminate].
    intros E; apply Ok_inj in E. injection E as <- <-.
    split; [rewrite length_app; cbn [length]; lia|].
    intros k ek Hk.
    destruct (Nat.lt_ge_cases k (length e)) as [Hlt|Hge].
    + rewrite nth_error_app1 in Hk by exact Hlt.
      destruct (H1 k ek Hk) as (ak' & xk' & d' & G1 & G2 & G3 & G4).
      exists ak', xk', d'. repeat split; try assumption.
      rewrite nth_error_app1 by lia. exact G4.
    + assert (k = length e) as ->.
      { assert (k < length (e ++ [el])) as Hk'
            by (apply nth_error_Some; congruence).
        rewrite length_app in Hk'. cbn [length] in Hk'. lia. }
      rewrite nth_error_app2, Nat.sub_diag in Hk by lia. cbn [nth_error] in Hk.
      injection Hk as <-.
      exists ak, xk, d. repeat split; try assumption.
      rewrite nth_error_app2, L1, Nat.sub_diag by lia. reflexivity.
Qed.

Variable abop : list vec -> result (list vec * list vec).
Variable aop : list vec -> result (list vec).
Variable precond : vec -> F -> vec -> result vec.
Variable dot : vec -> vec -> result F.
Variable eigh : matrix -> matrix -> result (vec * matrix).
Variable eigs : matrix -> result (list complex * list (list complex)).
Variable pick : list complex -> list (list complex) -> nat -> result (list nat).

Variable n : nat.
Variables A B : vec -> vec.
Hypothesis exact : exact_operators n A B abop aop precond.
Local Abbreviation sized := (Forall (fun x : vec => length x = n)).

Lemma dgeev_residual_break type tol toloose max_space nroots lessio incore
      notify icyc (st st' : Dgeev.state) :
  dgeev_stores n A B type st ->
  Dgeev.cycle abop precond dot eigh type tol toloose max_space nroots lessio
              incore notify icyc st = Ok (Break ConvergedRes st') ->
  exists ev, Dgeev.e st' = Some ev /\ length (Dgeev.x0 st') = length ev /\
    let norms := dgeev_residual_norms A B type ev (Dgeev.x0 st') in
    (ordered_below toloose norms ->
     Forall (fun d => ltb d toloose = true) norms).
Proof.
  intros Hst. pose proof exact as (HA & HB & _).
  pose proof (linear_on_image type HA HB) as HI.
  unfold Dgeev.cycle. cbv zeta. to_ritz.
  match goal with
  | Eb : Dgeev.begin_cycle _ _ = Ok ?s |- _ =>
      apply (dgeev_begin_cycle_stores _ Hst) in Eb;
      destruct Eb as (Hxs & Hax & Hbx & Hxt & _);
      assert (sized (Dgeev.xs s ++ Dgeev.xt s)) as Hxs' by (apply Forall_app; auto)
  end.
  match goal with
  | Ea : Dgeev.apply_operator _ _ _ = Ok _ |- _ =>
      rewrite (apply_operator_images exact type Hxt) in Ea; apply Ok_inj in Ea;
      injection Ea as <- <-
  end.
  match goal with
  | Ep : Dgeev.append_trials _ _ _ = Ok _ |- _ =>
      apply dgeev_append_trials_ok in Ep as (-> & -> & ->)
  end.
  rewrite Hax, Hbx, !firstn_length_map, <- !map_app.
  intros K. apply bind_ok in K as ([[x0' ax0] bx0] & R & K).
  pose proof (dgeev_ritz_length _ _ _ _ _ _ _ _ _ _ R) as L0.
  eapply dgeev_ritz_images in R; [|exact exact|exact Hxs'].
  destruct R as (V & -> & ->).
  apply ritz_vectors_sized with (n := n) in V; [|exact Hxs'].
  revert K. cbv beta iota. repeat peel1; intros K; try discriminate.
  apply Ok_inj in K. injection K as <-.
  match goal with
  | Er : Dgeev.residuals _ _ _ _ _ = Ok _ |- _ =>
      apply dgeev_residuals_norms in Er as [Ld Hr]
  end.
  eexists. cbn [Dgeev.e Dgeev.x0]. split; [reflexivity|]. split; [exact L0|].
  cbv zeta. unfold dgeev_residual_norms.
  match goal with
  | Em : pymax ?dx = Ok _, El : ltb _ toloose = true
    |- ordered_below _ ?norms -> _ =>
      assert (dx = norms) as <-;
      [|intros Ho; exact (pymax_bounds Ho Em El)]
  end.
  apply (norms_described
           (fun ek xk =>
              norm (zipw sub (image A B type xk)
                         (vmul_l ek (if (type =? 1)%Z then B xk else xk)))));
    [exact Ld|exact L0|].
  intros k ek xk Hek Hxk.
  destruct (Hr k ek Hek) as (ak & yk & d & G1 & G2 & G3 & G4).
  rewrite getitem_map in G1. unfold getitem in G1. rewrite Hxk in G1.
  cbn [bind] in G1. apply Ok_inj in G1. subst ak.
  assert (yk = if (type =? 1)%Z then B xk else xk) as ->.
  { destruct (type =? 1)%Z.
    - rewrite getitem_map in G2. unfold getitem in G2. rewrite Hxk in G2.
      cbn [bind] in G2. apply Ok_inj in G2. congruence.
    - unfold getitem in G2. rewrite Hxk in G2. apply Ok_inj in G2. congruence. }
  assert (length xk = n) as Lxk.
  { rewrite Forall_forall in V. apply V. eapply nth_error_In; exact Hxk. }
  rewrite broadcast_same_length in G3.
  2:{ unfold vmul_l. rewrite length_map.
      destruct HI as (I1 & _). destruct HB as (B1 & _).
      rewrite (I1 _ Lxk). destruct (type =? 1)%Z; [rewrite B1|]; congruence. }
  apply Ok_inj in G3. subst d. exact G4.
Qed.

Lemma eig_residual_break tol toloose max_space nroots lessio incore
      notify icyc (st st' : Eig.state) :
  eig_stores n A st ->
  Eig.cycle aop precond dot pick eigs tol toloose max_space nroots lessio
            incore notify icyc st = Ok (Break ConvergedRes st') ->
  exists ev, Eig.e st' = Some ev /\ length (Eig.x0 st') = length ev /\
    let norms := eig_residual_norms A ev (Eig.x0 st') in
    (ordered_below toloose norms ->
     Forall (fun d => ltb d toloose = true) norms).
Proof.
  intros Hst. pose proof exact as (HA & _ & _ & Haop & _).
  unfold Eig.cycle. cbv zeta. to_ritz.
  match goal with
  | Eb : Eig.begin_cycle _ _ = Ok ?s |- _ =>
      apply (eig_begin_cycle_stores _ Hst) in Eb;
      destruct Eb as (Hxs & Hax & Hxt & _);
      assert (sized (Eig.xs s ++ Eig.xt s)) as Hxs' by (apply Forall_app; auto)
  end.
  match goal with
  | Ea : aop _ = Ok ?axt |- _ =>
      rewrite (Haop _ Hxt) in Ea; apply Ok_inj in Ea; subst axt
  end.
  match goal with
  | Ep : Eig.append_trials _ _ = Ok _ |- _ =>
      apply eig_append_trials_ok in Ep as (-> & ->)
  end.
  rewrite Hax, !firstn_length_map, <- !map_app.
  intros K. apply bind_ok in K as ([x0' ax0] & R & K).
  pose proof (eig_ritz_length _ _ _ _ _ _ _ _ R) as L0.
  eapply eig_ritz_images in R; [|exact exact|exact Hxs'].
  destruct R as (V & ->).
  apply eig_ritz_vectors_sized with (n := n) in V; [|exact Hxs'].
  revert K. cbv beta iota. repeat peel1; intros K; try discriminate.
  apply Ok_inj in K. injection K as <-.
  match goal with
  | Er : Eig.residuals _ _ _ = Ok _ |- _ =>
      apply eig_residuals_norms in Er as [Ld Hr]
  end.
  eexists. cbn [Eig.e Eig.x0]. split; [reflexivity|]. split; [exact L0|].
  cbv zeta. unfold eig_residual_norms.
  match goal with
  | Em : pymax ?dx = Ok _, El : ltb _ toloose = true
    |- ordered_below _ ?norms -> _ =>
      assert (dx = norms) as <-;
      [|intros Ho; exact (pymax_bounds Ho Em El)]
  end.
  apply (norms_described
           (fun ek xk => norm (zipw sub (A xk) (vmul_l ek xk))));
    [exact Ld|exact L0|].
  intros k ek xk Hek Hxk.
  destruct (Hr k ek Hek) as (ak & yk & d & G1 & G2 & G3 & G4).
  rewrite getitem_map in G1. unfold getitem in G1, G2. rewrite Hxk in G1, G2.
  cbn [bind] in G1. apply Ok_inj in G1. apply Ok_inj in G2. subst ak yk.
  assert (length xk = n) as Lxk.
  { rewrite Forall_forall in V. apply V. eapply nth_error_In; exact Hxk. }
  rewrite broadcast_same_length in G3.
  2:{ unfold vmul_l. rewrite length_map. destruct HA as (A1 & _).
      rewrite (A1 _ Lxk). congruence. }
  apply Ok_inj in G3. subst d. exact G4.
Qed.

(** X9.  What the exit by the residuals means.  Let the operators be
    exactly linear on the vectors of the dimension of the guesses.  When
    the loop ends by [max(dx_norm) < toloose], the state it leaves holds
    as many Ritz vectors as eigenvalues, and if the residual norms
    [norm(A' x0[k] - e[k] * y)] of these pairs compare with one another
    and with [toloose = sqrt(tol)*1e-2] as a total order does, each of
    them is below [toloose].  For [dgeev] [A'] is the operator whose
    images are stored and [y] is [B x0[k]] for [type == 1] and [x0[k]]
    otherwise; for [eig] [A' = A] and [y = x0[k]]. *)
Theorem residual_exit_bounds_residuals
        (x0 : guess F) (type : Z) (tol : F) (max_cycle : Z) (max_space : nat)
        (lindep : F) (max_memory : Z)
        (dcallback : option (Dgeev.locals -> result unit))
        (ecallback : option (Eig.locals -> result unit))
        (nroots : nat) (lessio left : bool) :
  Forall (fun x => length x = n) (as_list x0) ->
  (forall o st,
      Dgeev.run abop precond dot eigh x0 type tol max_cycle max_space lindep
                max_memory dcallback nroots lessio = Ok o ->
      final o = Ok (ConvergedRes, st) ->
      exists ev, Dgeev.e st = Some ev /\ length (Dgeev.x0 st) = length ev /\
        let norms := dgeev_residual_norms A B type ev (Dgeev.x0 st) in
        (ordered_below (mul (sqrt tol) c1em2) norms ->
         Forall (fun d => ltb d (mul (sqrt tol) c1em2) = true) norms)) /\
  (forall o st,
      Eig.run aop precond dot pick eigs x0 tol max_cycle max_space lindep
              max_memory ecallback nroots lessio left = Ok o ->
      final o = Ok (ConvergedRes, st) ->
      exists ev, Eig.e st = Some ev /\ length (Eig.x0 st) = length ev /\
        let norms := eig_residual_norms A ev (Eig.x0 st) in
        (ordered_below (mul (sqrt tol) c1em2) norms ->
         Forall (fun d => ltb d (mul (sqrt tol) c1em2) = true) norms)).
Proof.
  intros Hx0. split; intros o st.
  - unfold Dgeev.run. repeat peel1. cbv zeta.
    intros E'; apply Ok_inj in E'; subst o. intros Hfin.
    eapply (final_break (dgeev_stores n A B type)) in Hfin.
    + destruct Hfin as [Hw|(i' & s0 & Hs0 & Ec)]; [discriminate|].
      eapply dgeev_residual_break; eassumption.
    + intros i s c Hs Ec.
      eapply dgeev_cycle_storage; [exact exact|exact Hs|exact Ec|exact Ec].
    + unfold dgeev_stores.
      cbn [Dgeev.xs Dgeev.ax Dgeev.bx Dgeev.xt Dgeev.x0 map].
      repeat split; try constructor. exact Hx0.
  - unfold Eig.run. destruct left; [discriminate|]. repeat peel1. cbv zeta.
    intros E'; apply Ok_inj in E'; subst o. intros Hfin.
    eapply (final_break (eig_stores n A)) in Hfin.
    + destruct Hfin as [Hw|(i' & s0 & Hs0 & Ec)]; [discriminate|].
      eapply eig_residual_break; eassumption.
    + intros i s c Hs Ec.
      eapply eig_cycle_storage; [exact exact|exact Hs|exact Ec|exact Ec].
    + unfold eig_stores. cbn [Eig.xs Eig.ax Eig.xt Eig.x0 map].
      repeat split; try constructor. exact Hx0.
Qed.

End ResidualExit.

(** ** The conversion for [type == 3] *)

Section TypeThree.
Context {F : Type} `{Scalar F}.
Local Abbreviation vec := (list F).
Local Abbreviation matrix := (list (list F)).

Variable abop1 : vec -> result (vec * vec).
Variable B : vec -> vec.

(** [abop] applied to one vector returns a pair whose second item is the
    image under [B]. *)
Hypothesis abop1_image : forall x, exists a, abop1 x = Ok (a, B x).

Lemma convert_prefix (x0 : list vec) (m : nat) :
  m <= length x0 ->
  foldM (fun x0 k => xk <- getitem x0 k ;; '(_, b) <- abop1 xk ;;
                     Ok (set_nth x0 k b))
        (seq 0 m) x0
  = Ok (map B (firstn m x0) ++ skipn m x0).
Proof.
  induction m as [|m IH]; intros Hm; [reflexivity|].
  rewrite seq_S, foldM_app, IH by lia. cbn [bind Nat.add foldM].
  destruct (nth_error x0 m) as [xm|] eqn:En;
    [|apply nth_error_None in En; lia].
  apply nth_error_split in En as (l1 & l2 & -> & <-).
  assert (forall l : list vec, firstn (length l1) (l1 ++ l) = l1) as F0.
  { intros l. rewrite <- (Nat.add_0_r (length l1)), firstn_app_2.
    cbn [firstn]. apply app_nil_r. }
  assert (forall l : list vec, skipn (length l1) (l1 ++ l) = l) as S0.
  { intros l. rewrite skipn_app, skipn_all, Nat.sub_diag. reflexivity. }
  rewrite F0, S0.
  replace (S (length l1)) with (length (l1 ++ [xm]))
    by (rewrite length_app; cbn [length]; lia).
  replace (l1 ++ xm :: l2) with ((l1 ++ [xm]) ++ l2)
    by (rewrite <- app_assoc; reflexivity).
  assert (forall l : list vec,
             firstn (length (l1 ++ [xm])) ((l1 ++ [xm]) ++ l) = l1 ++ [xm]) as F1.
  { intros l. rewrite <- (Nat.add_0_r (length (l1 ++ [xm]))), firstn_app_2.
    cbn [firstn]. apply app_nil_r. }
  assert (forall l : list vec, skipn (length (l1 ++ [xm])) ((l1 ++ [xm]) ++ l) = l)
    as S1.
  { intros l. rewrite skipn_app, skipn_all, Nat.sub_diag. reflexivity. }
  rewrite F1, S1.
  unfold getitem.
  rewrite nth_error_app2 by (rewrite length_map; lia).
  rewrite length_map, Nat.sub_diag. cbn [nth_error bind].
  destruct (abop1_image xm) as (a & ->). cbn [bind]. f_equal.
  rewrite map_app. cbn [map]. rewrite <- app_assoc. cbn [app].
  rewrite <- (length_map B l1) at 1.
  generalize (map B l1) as l. intros l.
  induction l as [|z l IHl]; cbn [app length set_nth]; [reflexivity|].
  rewrite IHl. reflexivity.
Qed.

(** X10.  After the loop, [dgeev] with [type == 3] replaces
    [x0[k]] by its image under [B] for [k < nroots].  When the loop left
    fewer than [nroots] Ritz vectors, reading [x0[k]] raises
    [IndexError], and the call raises it; otherwise the first [nroots]
    vectors returned are images under [B]. *)
Theorem type_3_needs_nroots_vectors (nroots : nat) (st : @Dgeev.state F) :
  (length (Dgeev.x0 st) < nroots ->
   Dgeev.finish abop1 3 nroots st = Raise IndexError) /\
  (nroots <= length (Dgeev.x0 st) ->
   Dgeev.finish abop1 3 nroots st
   = return_value nroots (Dgeev.e st)
                  (map B (firstn nroots (Dgeev.x0 st))
                   ++ skipn nroots (Dgeev.x0 st))).
Proof.
  unfold Dgeev.finish. cbn [Z.eqb Pos.eqb]. split; intros Hl.
  - replace nroots
      with (length (Dgeev.x0 st) + (nroots - length (Dgeev.x0 st))) by lia.
    rewrite seq_app, foldM_app, convert_prefix by lia. cbn [bind Nat.add].
    destruct (nroots - length (Dgeev.x0 st)) as [|d] eqn:Ed; [lia|].
    cbn [seq foldM]. unfold getitem.
    rewrite firstn_all, skipn_all, app_nil_r.
    assert (nth_error (map B (Dgeev.x0 st)) (length (Dgeev.x0 st)) = None) as ->
        by (apply nth_error_None; rewrite length_map; lia).
    reflexivity.
  - rewrite convert_prefix by exact Hl. reflexivity.
Qed.

End TypeThree.

(** ** The projected matrices of [dgeev] *)

Lemma foldM_grow {A St} (le : St -> St -> Prop) (R : A -> St -> Prop)
      (f : St -> A -> result St) (l : list A) :
  (forall s, le s s) ->
  (forall s1 s2 s3, le s1 s2 -> le s2 s3 -> le s1 s3) ->
  (forall a s s', R a s -> le s s' -> R a s') ->
  (forall s a s', In a l -> f s a = Ok s' -> le s s' /\ R a s') ->
  forall s s', foldM f l s = Ok s' -> le s s' /\ forall a, In a l -> R a s'.
Proof.
  intros Hrefl Htrans Hmono. induction l as [|a l IH]; intros Hf s s'; cbn [foldM].
  - intros E; apply Ok_inj in E; subst s'. split; [apply Hrefl|intros a []].
  - intros E. apply bind_ok in E as (s1 & E1 & E2).
    destruct (Hf s a s1 (or_introl eq_refl) E1) as [L1 R1].
    destruct (IH (fun s0 b s0' Hb => Hf s0 b s0' (or_intror Hb)) s1 s' E2)
      as [L2 R2].
    split; [exact (Htrans _ _ _ L1 L2)|].
    intros b [<-|Hb]; [exact (Hmono _ _ _ R1 L2)|exact (R2 b Hb)].
Qed.

Lemma nth_error_set_nth_same {A} (l : list A) (i : nat) (a : A) :
  i < length l -> nth_error (set_nth l i a) i = Some a.
Proof.
  revert i; induction l as [|b l IH]; intros [|i] Hi; cbn [length] in Hi;
    cbn [set_nth nth_error]; try lia; [reflexivity|].
  apply IH. lia.
Qed.

Lemma nth_error_set_nth_other {A} (l : list A) (i j : nat) (a : A) :
  i <> j -> nth_error (set_nth l i a) j = nth_error l j.
Proof.
  revert i j; induction l as [|b l IH]; intros [|i] [|j] Hij;
    cbn [set_nth nth_error]; try reflexivity; try congruence.
  apply IH. congruence.
Qed.

Section Mirrored.
Context {F : Type} `{Scalar F}.
Local Abbreviation vec := (list F).
Local Abbreviation matrix := (list (list F)).

Lemma mget_mset_same (m m' : matrix) (p q : nat) (a : F) :
  mset m p q a = Ok m' -> mget m' p q = Ok a.
Proof.
  unfold mset, mget. repeat peel1. intros E'; apply Ok_inj in E'; subst m'.
  match goal with
  | E1 : getitem m p = Ok ?row, E2 : getitem ?row q = Ok _ |- _ =>
      apply getitem_ok in E1 as [_ L1]; apply getitem_ok in E2 as [_ L2]
  end.
  unfold getitem. rewrite nth_error_set_nth_same by exact L1. cbn [bind].
  rewrite nth_error_set_nth_same by exact L2. reflexivity.
Qed.

Lemma mget_mset_other (m m' : matrix) (p q i j : nat) (a : F) :
  mset m p q a = Ok m' -> (i <> p \/ j <> q) -> mget m' i j = mget m i j.
Proof.
  unfold mset, mget. repeat peel1. intros E'; apply Ok_inj in E'; subst m'.
  intros Hne. unfold getitem.
  destruct (Nat.eq_dec i p) as [->|Hip].
  - match goal with
    | E1 : getitem m p = Ok ?row |- _ =>
        pose proof E1 as E1'; apply getitem_ok in E1' as [N1 L1]
    end.
    rewrite nth_error_set_nth_same by exact L1. rewrite N1. cbn [bind].
    rewrite nth_error_set_nth_other by (destruct Hne; congruence). reflexivity.
  - rewrite nth_error_set_nth_other by congruence. reflexivity.
Qed.

Local Abbreviation eqcell m p q :=
  (exists a : F, mget m p q = Ok a /\ mget m q p = Ok a).

Lemma entry_mirrors (dot : vec -> vec -> result F) (m m' : matrix) (p q : nat) ua :
  entry dot m p q ua = Ok m' ->
  eqcell m' p q /\ forall i j, eqcell m i j -> eqcell m' i j.
Proof.
  unfold entry. intros E.
  apply bind_ok in E as ([u a] & _ & E).
  apply bind_ok in E as (d & _ & E).
  apply bind_ok in E as (m1 & E1 & E).
  apply bind_ok in E as (c & Ec & E2).
  pose proof (@mget_mset_same _ _ _ _ _ E1) as G1.
  assert (c = d) as -> by congruence.
  pose proof (@mget_mset_same _ _ _ _ _ E2) as G2.
  assert (mget m' p q = Ok d) as G3.
  { destruct (Nat.eq_dec p q) as [->|Hpq]; [exact G2|].
    rewrite (@mget_mset_other _ _ _ _ p q _ E2) by (left; congruence). exact G1. }
  split; [eauto|].
  assert (forall i j, ~ (i = p /\ j = q) -> ~ (i = q /\ j = p) ->
                      mget m' i j = mget m i j) as Same.
  { intros i j N1 N2.
    rewrite (@mget_mset_other _ _ _ _ i j _ E2) by lia.
    apply (@mget_mset_other _ _ _ _ i j _ E1). lia. }
  intros i j (a0 & Ha1 & Ha2).
  destruct (Nat.eq_dec i p) as [Eip|Nip]; destruct (Nat.eq_dec j q) as [Ejq|Njq];
    destruct (Nat.eq_dec i q) as [Eiq|Niq]; destruct (Nat.eq_dec j p) as [Ejp|Njp];
    subst;
    try (exists d; split; assumption);
    try (exists a0; rewrite !Same by lia; split; assumption).
Qed.

Lemma entry_pair_mirrors (dot : vec -> vec -> result F) (h s : matrix)
      (p q : nat) ua ub hs' :
  (h' <- entry dot h p q ua ;; s' <- entry dot s p q ub ;; Ok (h', s')) = Ok hs' ->
  (eqcell (fst hs') p q /\ eqcell (snd hs') p q) /\
  forall i j, eqcell h i j /\ eqcell s i j ->
              eqcell (fst hs') i j /\ eqcell (snd hs') i j.
Proof.
  intros E. apply bind_ok in E as (h' & Eh & E).
  apply bind_ok in E as (s' & Es & E). apply Ok_inj in E; subst hs'.
  cbn [fst snd].
  destruct (entry_mirrors _ _ _ _ _ Eh) as [Ch Kh].
  destruct (entry_mirrors _ _ _ _ _ Es) as [Cs Ks].
  split; [split; assumption|].
  intros i j [Xh Xs]. split; [apply Kh|apply Ks]; assumption.
Qed.

Variable dot : vec -> vec -> result F.

Lemma extend_mirrors type (xt axt bxt ax bx : list vec) (head rnow : nat)
      (heff seff h' s' : matrix) :
  Dgeev.extend dot type xt axt bxt ax bx head rnow (head + rnow) heff seff
  = Ok (h', s') ->
  mirrored head heff -> mirrored head seff ->
  mirrored (head + rnow) h' /\ mirrored (head + rnow) s'.
Proof.
  unfold Dgeev.extend. cbv zeta. intros E Mh Ms.
  set (eq2 := fun (hs : matrix * matrix) (i j : nat) =>
                eqcell (fst hs) i j /\ eqcell (snd hs) i j).
  set (le := fun hs hs' : matrix * matrix =>
               forall i j, eq2 hs i j -> eq2 hs' i j).
  set (bound := fun i => if (head <=? i) && (i <? head + rnow)
                         then i - head + 1 else rnow).
  apply (@foldM_grow _ _ le
           (fun i hs => forall k, k < bound i -> eq2 hs (head + k) i)) in E.
  - destruct E as [L R].
    assert (forall i j, i < head + rnow -> j < head + rnow -> i <= j ->
                        eq2 (h', s') i j) as Upper.
    { intros i j Hi Hj Hij.
      destruct (Nat.lt_ge_cases i head) as [Li|Li].
      - destruct (Nat.lt_ge_cases j head) as [Lj|Lj].
        + apply L. split; [apply Mh|apply Ms]; assumption.
        + assert (eq2 (h', s') (head + (j - head)) i) as X.
          { apply R; [apply in_seq; lia|]. unfold bound.
            replace (head <=? i) with false by (symmetry; apply Nat.leb_gt; lia).
            cbn [andb]. lia. }
          replace (head + (j - head)) with j in X by lia.
          destruct X as [(a & A1 & A2) (b & B1 & B2)].
          split; [exists a|exists b]; split; assumption.
      - assert (eq2 (h', s') (head + (i - head)) j) as X.
        { apply R; [apply in_seq; lia|]. unfold bound.
          replace (head <=? j) with true by (symmetry; apply Nat.leb_le; lia).
          replace (j <? head + rnow) with true
            by (symmetry; apply Nat.ltb_lt; lia).
          cbn [andb]. lia. }
        replace (head + (i - head)) with i in X by lia. exact X. }
    assert (forall i j, i < head + rnow -> j < head + rnow -> eq2 (h', s') i j)
      as All.
    { intros i j Hi Hj. destruct (Nat.le_ge_cases i j) as [Hij|Hij];
        [apply Upper; assumption|].
      destruct (Upper j i Hj Hi Hij) as [(a & A1 & A2) (b & B1 & B2)].
      split; [exists a|exists b]; split; assumption. }
    split; intros i j Hi Hj; apply (All i j Hi Hj).
  - intros hs i j X; exact X.
  - intros s1 s2 s3 L1 L2 i j X. apply L2, L1, X.
  - intros a hs hs' R L k Hk. apply L, R, Hk.
  - intros hs i hs' _ Ei. unfold bound.
    destruct ((head <=? i) && (i <? head + rnow)).
    + apply (@foldM_grow _ _ le (fun k hs => eq2 hs (head + k) i)) in Ei.
      * destruct Ei as [L R]. split; [exact L|].
        intros k Hk. apply R. apply in_seq. lia.
      * intros hs0 i0 j X; exact X.
      * intros s1 s2 s3 L1 L2 i0 j X. apply L2, L1, X.
      * intros a hs0 hs0' R L. apply L, R.
      * intros [h s] k hs0 _ Ek.
        apply entry_pair_mirrors in Ek as [C K]. split; [exact K|exact C].
    + apply (@foldM_grow _ _ le (fun k hs => eq2 hs (head + k) i)) in Ei.
      * destruct Ei as [L R]. split; [exact L|].
        intros k Hk. apply R. apply in_seq. lia.
      * intros hs0 i0 j X; exact X.
      * intros s1 s2 s3 L1 L2 i0 j X. apply L2, L1, X.
      * intros a hs0 hs0' R L. apply L, R.
      * intros [h s] k hs0 _ Ek.
        apply entry_pair_mirrors in Ek as [C K]. split; [exact K|exact C].
Qed.

Lemma mget_leading (k : nat) (m : matrix) (i j : nat) :
  i < k -> j < k -> mget (leading k m) i j = mget m i j.
Proof.
  intros Hi Hj. unfold mget, leading, getitem.
  rewrite nth_error_map, nth_error_firstn.
  replace (i <? k) with true by (symmetry; apply Nat.ltb_lt; lia).
  destruct (nth_error m i) as [row|]; cbn [option_map bind]; [|reflexivity].
  rewrite nth_error_firstn.
  replace (j <? k) with true by (symmetry; apply Nat.ltb_lt; lia).
  reflexivity.
Qed.

Lemma mirrored_leading (k : nat) (m : matrix) :
  mirrored k m -> symmetric (leading k m) /\ length (leading k m) = k.
Proof.
  intros M.
  assert (length (leading k m) = k) as L.
  { unfold leading. rewrite length_map, length_firstn.
    destruct k as [|k]; [reflexivity|].
    destruct (M k k) as (a & A & _); try lia.
    unfold mget in A. apply bind_ok in A as (row & A & _).
    apply getitem_ok in A as [_ A]. lia. }
  split; [|exact L]. split.
  - rewrite L. unfold leading. apply Forall_forall. intros row Hin.
    apply in_map_iff in Hin as (r & <- & Hin).
    apply In_nth_error in Hin as (i & Hi).
    assert (i < k) as Hik.
    { assert (i < length (firstn k m)) by (apply nth_error_Some; congruence).
      rewrite length_firstn in *. lia. }
    rewrite nth_error_firstn in Hi.
    replace (i <? k) with true in Hi by (symmetry; apply Nat.ltb_lt; lia).
    rewrite length_firstn.
    destruct k as [|k]; [lia|].
    destruct (M i k) as (a & A & _); try lia.
    unfold mget in A. apply bind_ok in A as (row & A & A').
    unfold getitem in A. rewrite Hi in A. apply Ok_inj in A; subst row.
    apply getitem_ok in A' as [_ A']. lia.
  - rewrite L. intros i j Hi Hj. rewrite !mget_leading by assumption.
    destruct (M i j Hi Hj) as (a & -> & ->). reflexivity.
Qed.

End Mirrored.

Lemma for_range_same {St} (Inv : St -> Prop)
      (body1 body2 : nat -> St -> result (control St)) :
  (forall i s, Inv s -> body1 i s = body2 i s) ->
  (forall i s c, Inv s -> body1 i s = Ok c -> Inv (landing c)) ->
  forall n i s, Inv s -> for_range body1 n i s = for_range body2 n i s.
Proof.
  intros Hsame Hkeep n; induction n as [|n IH]; intros i s Hs;
    cbn [for_range]; [reflexivity|].
  rewrite <- (Hsame i s Hs).
  destruct (body1 i s) as [[s'|why s']|ex] eqn:E; try reflexivity.
  rewrite (IH (S i) s' (Hkeep i s _ Hs E)). reflexivity.
Qed.

Section SymmetricProblem.
Context {F : Type} `{Scalar F}.
Local Abbreviation vec := (list F).
Local Abbreviation matrix := (list (list F)).

Variable abop : list vec -> result (list vec * list vec).
Variable abop1 : vec -> result (vec * vec).
Variable precond : vec -> F -> vec -> result vec.
Variable dot : vec -> vec -> result F.

Local Abbreviation projected st :=
  (mirrored (Dgeev.space st) (Dgeev.heff st) /\
   mirrored (Dgeev.space st) (Dgeev.seff st)).

Lemma dgeev_begin_cycle_projected nroots (st st' : Dgeev.state) :
  projected st -> Dgeev.begin_cycle nroots st = Ok st' -> projected st'.
Proof.
  intros Hst. unfold Dgeev.begin_cycle. repeat peel1; intros E';
    apply Ok_inj in E'; subst st'; cbn [Dgeev.space Dgeev.heff Dgeev.seff];
    try exact Hst.
  split; intros i j Hi; lia.
Qed.

Lemma dgeev_cycle_projected eigh type tol toloose max_space nroots lessio
      incore notify icyc (st : Dgeev.state) c :
  projected st ->
  Dgeev.cycle abop precond dot eigh type tol toloose max_space nroots lessio
              incore notify icyc st = Ok c ->
  projected (landing c).
Proof.
  intros Hst. unfold Dgeev.cycle. cbv zeta. peel1.
  apply (@dgeev_begin_cycle_projected _ _ _ Hst) in E. destruct E as [Mh Ms].
  do 7 peel1.
  match goal with
  | Ex : Dgeev.extend _ _ _ _ _ _ _ _ _ _ _ _ = Ok _ |- _ =>
      apply extend_mirrors in Ex as [Mh' Ms']; [|exact Mh|exact Ms]
  end.
  repeat peel1; intros E'; apply Ok_inj in E'; subst c;
    cbn [landing Dgeev.space Dgeev.heff Dgeev.seff]; split; assumption.
Qed.

Lemma dgeev_cycle_same_eigh eigh eigh' type tol toloose max_space nroots lessio
      incore notify icyc (st : Dgeev.state) :
  (forall a b : matrix, symmetric a -> symmetric b -> length a = length b ->
                        eigh a b = eigh' a b) ->
  projected st ->
  Dgeev.cycle abop precond dot eigh type tol toloose max_space nroots lessio
              incore notify icyc st
  = Dgeev.cycle abop precond dot eigh' type tol toloose max_space nroots lessio
                incore notify icyc st.
Proof.
  intros Hsame Hst. unfold Dgeev.cycle. cbv zeta.
  destruct (Dgeev.begin_cycle nroots st) as [st1|ex] eqn:E; cbn [bind];
    [|reflexivity].
  apply (@dgeev_begin_cycle_projected _ _ _ Hst) in E. destruct E as [Mh Ms].
  destruct (Dgeev.apply_operator abop type (Dgeev.xt st1)) as [[axt bxt]|ex];
    cbn [bind]; [|reflexivity].
  destruct (Dgeev.append_trials st1 axt bxt) as [[[xs' ax'] bx']|ex];
    cbn [bind]; [|reflexivity].
  match goal with
  | |- bind ?m _ = _ => destruct m as [[h' s']|ex] eqn:Ex
  end; cbn [bind]; [|reflexivity].
  apply extend_mirrors in Ex as [Mh' Ms']; [|exact Mh|exact Ms].
  apply mirrored_leading in Mh' as [Sh Lh].
  apply mirrored_leading in Ms' as [Ss Ls].
  rewrite (Hsame _ _ Sh Ss) by congruence. reflexivity.
Qed.

(** X11.  [dgeev] hands [eigh] nothing but pairs of symmetric matrices of
    one size: two [eigh] that agree on such pairs give the same call of
    [dgeev], whatever they do elsewhere. *)
Theorem eigh_is_given_symmetric_pairs
        (eigh eigh' : matrix -> matrix -> result (vec * matrix))
        (x0 : guess F) (type : Z) (tol : F) (max_cycle : Z) (max_space : nat)
        (lindep : F) (max_memory : Z)
        (callback : option (Dgeev.locals -> result unit))
        (nroots : nat) (lessio : bool) :
  (forall a b : matrix, symmetric a -> symmetric b -> length a = length b ->
                        eigh a b = eigh' a b) ->
  Dgeev.dgeev abop abop1 precond dot eigh x0 type tol max_cycle max_space
              lindep max_memory callback nroots lessio
  = Dgeev.dgeev abop abop1 precond dot eigh' x0 type tol max_cycle max_space
                lindep max_memory callback nroots lessio.
Proof.
  intros Hsame. unfold Dgeev.dgeev.
  assert (Dgeev.run abop precond dot eigh x0 type tol max_cycle max_space
                    lindep max_memory callback nroots lessio
          = Dgeev.run abop precond dot eigh' x0 type tol max_cycle max_space
                      lindep max_memory callback nroots lessio) as ->;
    [|reflexivity].
  unfold Dgeev.run. cbv zeta.
  destruct (getitem (as_list x0) 0) as [first|ex]; cbn [bind]; [|reflexivity].
  destruct (fits_in_core _ _ _) as [incore|ex]; cbn [bind]; [|reflexivity].
  f_equal.
  apply (@for_range_same _ (fun st => projected st)).
  - intros i s Hs. apply dgeev_cycle_same_eigh; assumption.
  - intros i s c Hs E. exact (dgeev_cycle_projected _ _ _ _ _ _ _ _ _ _ _ Hs E).
  - cbn [Dgeev.space Dgeev.heff Dgeev.seff]. split; intros i j Hi; lia.
Qed.

End SymmetricProblem.

(** ** The trial vectors and the basis *)

Lemma foldM_ext_in {A St} (f g : St -> A -> result St) (l : list A) :
  (forall s a, In a l -> f s a = g s a) -> forall s, foldM f l s = foldM g l s.
Proof.
  induction l as [|a l IH]; intros E s; cbn [foldM]; [reflexivity|].
  rewrite (E s a (or_introl eq_refl)). destruct (g s a); cbn [bind]; [|reflexivity].
  apply IH. intros s0 b Hb. apply E. right; exact Hb.
Qed.

Lemma getitem_app_l {A} (l1 l2 : list A) (i : nat) :
  i < length l1 -> getitem (l1 ++ l2) i = getitem l1 i.
Proof.
  intros Hi. unfold getitem. rewrite nth_error_app1 by exact Hi. reflexivity.
Qed.

Lemma getitem_snoc {A} (l : list A) (a : A) :
  getitem (l ++ [a]) (length l) = Ok a.
Proof.
  unfold getitem. rewrite nth_error_app2 by lia. rewrite Nat.sub_diag.
  reflexivity.
Qed.

Section TrialVectors.
Context {F : Type} `{Scalar F}.
Local Abbreviation vec := (list F).

Hypothesis exact : exact_arithmetic.

Add Ring trial_ring : (ex_ring exact).

(** [xi - q * dot(xi, q)] *)
Local Abbreviation deflate q := (fun y : vec => zipw sub y (vmul_r q (dotsum y q))).

Lemma project_against_one (n : nat) (q : vec) (xt acc : list vec) :
  length q = n -> Forall (fun y => length y = n) xt ->
  foldM (fun acc xi =>
           d <- npdot xi q ;;
           xi' <- inplace sub xi (vmul_r q d) ;;
           Ok (acc ++ [xi']))
        xt acc
  = Ok (acc ++ map (deflate q) xt).
Proof.
  intros Lq Hxt. revert acc.
  induction Hxt as [|y xt Ly _ IH]; intros acc; cbn [foldM map].
  - rewrite app_nil_r. reflexivity.
  - rewrite npdot_same_length by congruence. cbn [bind].
    rewrite inplace_same_length
      by (unfold vmul_r; rewrite length_map; congruence).
    cbn [bind]. rewrite IH, <- app_assoc. reflexivity.
Qed.

Lemma deflate_orthogonal (n : nat) (q y : vec) (basis : list vec) :
  length q = n -> length y = n ->
  dotsum q q = one ->
  Forall (fun p => dotsum p q = zero /\ dotsum q p = zero) basis ->
  Forall (fun p => dotsum y p = zero) basis ->
  length (deflate q y) = n /\
  Forall (fun p => dotsum (deflate q y) p = zero) (basis ++ [q]).
Proof.
  intros Lq Ly Hq Hb Hy.
  assert (length y = length (vmul_r q (dotsum y q))) as L
      by (unfold vmul_r; rewrite length_map; congruence).
  split; [rewrite zipw_length by exact L; exact Ly|].
  apply Forall_app. split.
  - rewrite Forall_forall in *. intros p Hp.
    rewrite (dotsum_sub_l exact) by exact L.
    rewrite (dotsum_vmul_r exact), (Hy p Hp), (proj2 (Hb p Hp)). ring.
  - constructor; [|constructor].
    rewrite (dotsum_sub_l exact) by exact L.
    rewrite (dotsum_vmul_r exact), Hq. ring.
Qed.

Lemma project_out_orthogonal (n : nat) (xt : list vec) :
  Forall (fun y => length y = n) xt ->
  forall xs, Forall (fun q => length q = n) xs -> orthonormal xs ->
  exists ys,
    project_out xs (length xs) xt = Ok ys /\
    Eig.project_out xs (length xs) xt = Ok ys /\
    length ys = length xt /\
    Forall (fun y => length y = n /\ Forall (fun p => dotsum y p = zero) xs) ys.
Proof.
  intros Hxt xs. induction xs as [|q xs IH] using rev_ind; intros Hs Ho.
  - exists xt. repeat split; try reflexivity.
    eapply Forall_impl; [|exact Hxt]. intros y Ly. split; [exact Ly|constructor].
  - apply Forall_app in Hs as [Hs Hq].
    assert (length q = n) as Lq by (inversion Hq; assumption).
    apply orthonormal_snoc in Ho as (Ho & [_ Hu] & Hop).
    destruct (IH Hs Ho) as (ys & E1 & E2 & Ly & Hys). clear IH.
    exists (map (deflate q) ys).
    assert (Forall (fun y => length y = n) ys) as Sys
        by (eapply Forall_impl; [|exact Hys]; intros y [L _]; exact L).
    rewrite length_app. cbn [length]. rewrite Nat.add_1_r.
    unfold project_out, Eig.project_out in *. rewrite seq_S, !foldM_app.
    cbn [Nat.add].
    split; [|split; [|split]].
    + erewrite foldM_ext_in; [rewrite E1|].
      * cbn [bind foldM].
        erewrite foldM_ext
          with (g := fun acc xi => d <- npdot xi q ;;
                                   xi' <- inplace sub xi (vmul_r q d) ;;
                                   Ok (acc ++ [xi'])).
        -- rewrite (@project_against_one n q ys [] Lq Sys). reflexivity.
        -- intros acc xi. rewrite getitem_snoc. reflexivity.
      * intros s i Hi. apply in_seq in Hi. apply foldM_ext.
        intros acc xi. rewrite getitem_app_l by lia. reflexivity.
    + erewrite foldM_ext_in; [rewrite E2|].
      * cbn [bind foldM]. rewrite getitem_snoc. cbn [bind].
        rewrite (@project_against_one n q ys [] Lq Sys). reflexivity.
      * intros s i Hi. apply in_seq in Hi.
        rewrite getitem_app_l by lia. reflexivity.
    + rewrite length_map. exact Ly.
    + apply Forall_map. eapply Forall_impl; [|exact Hys].
      intros y [L Hy]. exact (@deflate_orthogonal n q y xs Lq L Hu Hop Hy).
Qed.

(** X12.  In exact arithmetic, when the basis [xs] is orthonormal and the
    residuals have the dimension of its vectors, the loops that remove the
    basis from the residuals (the same result in [dgeev] and [eig]) raise
    nothing, keep the number of vectors, and leave each of them orthogonal
    to every basis vector; so is every trial vector that the
    normalization keeps. *)
Theorem trial_vectors_orthogonal_to_basis
        (n : nat) (xs xt : list vec) (toloose : F) :
  Forall (fun q => length q = n) xs -> Forall (fun y => length y = n) xt ->
  orthonormal xs ->
  exists ys,
    project_out xs (length xs) xt = Ok ys /\
    Eig.project_out xs (length xs) xt = Ok ys /\
    length ys = length xt /\
    Forall (fun y => Forall (fun p => dotsum y p = zero) xs) ys /\
    Forall (fun y => Forall (fun p => dotsum y p = zero) xs) (prune toloose ys).
Proof.
  intros Hs Hxt Ho.
  destruct (@project_out_orthogonal n xt Hxt xs Hs Ho) as (ys & E1 & E2 & L & Hys).
  exists ys.
  assert (Forall (fun y => Forall (fun p => dotsum y p = zero) xs) ys) as Hor
      by (eapply Forall_impl; [|exact Hys]; intros y [_ Hy]; exact Hy).
  repeat split; try assumption.
  unfold prune. apply Forall_forall. intros z Hz.
  apply in_flat_map in Hz as (y & Hy & Hz).
  rewrite Forall_forall in Hor. specialize (Hor y Hy).
  cbv zeta in Hz. destruct (ltb toloose (norm y)); [|destruct Hz].
  destruct Hz as [<-|[]].
  eapply Forall_impl; [|exact Hor].
  intros p Hp. cbv beta in *. rewrite (dotsum_vmul_r exact), Hp. ring.
Qed.

End TrialVectors.

(** ** The further properties on concrete inputs *)

Module FltExtras.
Import Floats Flt.

Lemma no_cycle_witness :
  Dgeev.dgeev exchange_abop exchange_abop1 (diag_precond [0; 0]%float) npdot
              eigh_diagonal (Vectors []) 1%Z tol_default 50%Z 12
              lindep_default 2000%Z None 1 false = Raise IndexError /\
  Eig.eig exchange_aop (diag_precond [0; 0]%float) npdot pick_default
          eigs_diagonal (OneVector []) tol_default 50%Z 12
          lindep_default 2000%Z None 1 false false = Raise ZeroDivisionError /\
  Dgeev.dgeev exchange_abop exchange_abop1 (diag_precond [0; 0]%float) npdot
              eigh_diagonal (OneVector [3; 4]%float) 1%Z tol_default 0%Z 12
              lindep_default 2000%Z None 1 false = Raise UnboundLocalError.
Proof.
  split; [|split].
  - destruct (calls_that_enter_no_cycle
                exchange_abop exchange_abop1 exchange_aop
                (diag_precond [0; 0]%float) npdot eigh_diagonal eigs_diagonal
                pick_default (Vectors []) 1%Z tol_default 50%Z 12
                lindep_default 2000%Z None None 1 false) as (_ & T & _).
    apply T. reflexivity.
  - destruct (calls_that_enter_no_cycle
                exchange_abop exchange_abop1 exchange_aop
                (diag_precond [0; 0]%float) npdot eigh_diagonal eigs_diagonal
                pick_default (OneVector []) 1%Z tol_default 50%Z 12
                lindep_default 2000%Z None None 1 false) as (_ & _ & T & _).
    apply (T []). reflexivity.
  - destruct (calls_that_enter_no_cycle
                exchange_abop exchange_abop1 exchange_aop
                (diag_precond [0; 0]%float) npdot eigh_diagonal eigs_diagonal
                pick_default (OneVector [3; 4]%float) 1%Z tol_default 0%Z 12
                lindep_default 2000%Z None None 1 false) as (_ & _ & _ & T).
    destruct (T 3%float [4%float] [] eq_refl) as (T1 & _); [lia|].
    apply T1. discriminate.
Defined.

Lemma callback_witness :
  Dgeev.dgeev exchange_abop exchange_abop1 (diag_precond [0; 0]%float) npdot
              eigh_diagonal (OneVector [3; 4]%float) 1%Z tol_default 50%Z 12
              lindep_default 2000%Z (Some (fun _ => Raise (Raised 7))) 1 false
  = Raise (Raised 7) /\
  Eig.eig exchange_aop (diag_precond [0; 0]%float) npdot pick_default
          eigs_diagonal (OneVector [3; 4]%float) tol_default 50%Z 12
          lindep_default 2000%Z (Some (fun _ => Raise (Raised 7))) 1 false false
  = Raise (Raised 7).
Proof.
  destruct (@callback_exception_reaches_caller
              float scalar exchange_abop exchange_abop1 exchange_aop
              (diag_precond [0; 0]%float) npdot eigh_diagonal eigs_diagonal
              pick_default (OneVector [3; 4]%float) 1%Z tol_default 50%Z 12
              lindep_default 2000%Z (fun _ => Raise (Raised 7))
              (fun _ => Raise (Raised 7)) (Raised 7) 1 false false
              (fun _ => eq_refl) (fun _ => eq_refl)) as [D E].
  split.
  - eapply D; [vm_compute; reflexivity|vm_compute; lia].
  - eapply E; [vm_compute; reflexivity|vm_compute; lia].
Defined.

Lemma stores_witness :
  exists o,
    Dgeev.run exchange_abop (diag_precond [0; 0]%float) npdot eigh_diagonal
              (OneVector [3; 4]%float) 1%Z tol_default 50%Z 12 lindep_default
              2000%Z None 1 false = Ok o /\
    length (visited o) = 2 /\
    Forall dgeev_in_step (visited o).
Proof.
  eexists. split; [vm_compute; reflexivity|]. split; [reflexivity|].
  eapply (proj1 (stores_hold_space_vectors
                   exchange_abop exchange_aop (diag_precond [0; 0]%float) npdot
                   eigh_diagonal eigs_diagonal pick_default
                   (OneVector [3; 4]%float) 1%Z tol_default 50%Z 12
                   lindep_default 2000%Z None None 1 false false)).
  vm_compute; reflexivity.
Defined.

Lemma type_3_witness :
  let st := {| Dgeev.fresh_start := false; Dgeev.xs := []; Dgeev.ax := [];
               Dgeev.bx := []; Dgeev.space := 0; Dgeev.xt := [];
               Dgeev.x0 := [[1; 2]%float]; Dgeev.e := Some [5%float];
               Dgeev.heff := []; Dgeev.seff := [] |} in
  Dgeev.finish (dense_abop1 swap2 diag12) 3 2 st = Raise IndexError /\
  Dgeev.finish (dense_abop1 swap2 diag12) 3 1 st = Ok (RetOne 5%float [1; 4]%float).
Proof.
  cbv zeta. split.
  - apply (type_3_needs_nroots_vectors
             (dense_abop1 swap2 diag12) (matvec diag12)
             (fun x => ex_intro _ _ eq_refl)).
    cbn. lia.
  - rewrite (proj2 (type_3_needs_nroots_vectors
                      (dense_abop1 swap2 diag12) (matvec diag12)
                      (fun x => ex_intro _ _ eq_refl) 1 _)) by (cbn; lia).
    vm_compute. reflexivity.
Defined.

Lemma symmetric_pairs_witness :
  let checked a b :=
    if length a =? length b then eigh_diagonal a b else Raise LinAlgError in
  Dgeev.dgeev exchange_abop exchange_abop1 (diag_precond [0; 0]%float) npdot
              eigh_diagonal (OneVector [3; 4]%float) 1%Z tol_default 50%Z 12
              lindep_default 2000%Z None 1 false
  = Dgeev.dgeev exchange_abop exchange_abop1 (diag_precond [0; 0]%float) npdot
                checked (OneVector [3; 4]%float) 1%Z tol_default 50%Z 12
                lindep_default 2000%Z None 1 false.
Proof.
  cbv zeta. apply eigh_is_given_symmetric_pairs.
  intros a b _ _ L. rewrite L, Nat.eqb_refl. reflexivity.
Defined.

Lemma diagonal_length (m : list (list float)) (i : nat) :
  length (diagonal m i) = length m.
Proof.
  revert i; induction m as [|row m IH]; intros i; cbn [diagonal length];
    [reflexivity|]. rewrite IH. reflexivity.
Qed.

Lemma scaled_identity_shape (d : list float) (i n : nat) :
  i + length d = n ->
  length (scaled_identity d i n) = length d /\
  Forall (fun row => length row = n) (scaled_identity d i n).
Proof.
  revert i; induction d as [|a d IH]; intros i Hn;
    cbn [scaled_identity length] in *; [split; [reflexivity|constructor]|].
  destruct (IH (S i)) as [L R]; [lia|]. split; [rewrite L; reflexivity|].
  constructor; [|exact R].
  rewrite length_app. cbn [length]. rewrite !repeat_length. lia.
Qed.

Lemma two_entries (x : list float) : length x = 2 -> exists a b, x = [a; b].
Proof. destruct x as [|a [|b [|c x]]]; try discriminate. eauto. Qed.

Lemma diag_precond_safe (r : list float) (e : float) (x : list float) :
  length r = 2 -> length x = 2 ->
  safe (fun p => length p = 2) (diag_precond [0; 0]%float r e x).
Proof.
  intros Lr _. destruct (two_entries _ Lr) as (a & b & ->). reflexivity.
Qed.

Lemma npdot_safe (u a : list float) :
  length u = 2 -> length a = 2 -> safe (fun _ => True) (npdot u a).
Proof.
  intros Lu La. unfold npdot. rewrite Lu, La. exact I.
Qed.

Lemma exchange_contract :
  dgeev_contract 2 exchange_abop (diag_precond [0; 0]%float) npdot eigh_diagonal.
Proof.
  split; [|split; [|split]].
  - intros l Hl. unfold exchange_abop. cbn [safe].
    rewrite !length_map. split; [reflexivity|]. split; [reflexivity|]. split.
    + apply Forall_map. eapply Forall_impl; [|exact Hl].
      intros x Lx. rewrite length_rev. exact Lx.
    + apply Forall_map. exact Hl.
  - exact diag_precond_safe.
  - exact npdot_safe.
  - intros k h s Hk [Lh _] [Ls _]. unfold eigh_diagonal. cbv zeta. cbn [safe].
    split.
    + rewrite zipw_length; rewrite !diagonal_length; lia.
    + rewrite diagonal_length, Ls.
      destruct (@scaled_identity_shape
                  (map (fun b => PrimFloat.div 1 (PrimFloat.sqrt b)) (diagonal s 0))
                  0 k) as [L R].
      * rewrite length_map, diagonal_length. exact Ls.
      * rewrite length_map, diagonal_length, Ls in L. split; assumption.
Qed.

Lemma real_parts_pass (d : list float) :
  filter (fun z : float * float => eqb (im z) zero)
         (map (fun a : float => (a, 0%float)) d)
  = map (fun a : float => (a, 0%float)) d.
Proof.
  induction d as [|a d IH]; [reflexivity|].
  cbn [map filter]. change (eqb (im (a, 0%float)) zero) with true.
  cbn iota. rewrite IH. reflexivity.
Qed.

Lemma exchange_eig_contract :
  eig_contract 2 1 exchange_aop (diag_precond [0; 0]%float) npdot pick_default
               eigs_diagonal.
Proof.
  split; [|split; [|split]].
  - intros l Hl. unfold exchange_aop. cbn [safe].
    rewrite !length_map. split; [reflexivity|].
    apply Forall_map. eapply Forall_impl; [|exact Hl].
    intros x Lx. rewrite length_rev. exact Lx.
  - exact diag_precond_safe.
  - exact npdot_safe.
  - intros k h Hk [Lh _]. unfold eigs_diagonal. cbv zeta. cbn [safe].
    split; [rewrite length_map, diagonal_length; exact Lh|]. split.
    + rewrite diagonal_length, Lh.
      destruct (@scaled_identity_shape
                  (map (fun _ : float => 1%float) (diagonal h 0)) 0 k) as [L R].
      * rewrite length_map, diagonal_length. exact Lh.
      * rewrite length_map, diagonal_length, Lh in L. split.
        -- rewrite length_map. exact L.
        -- apply Forall_map. eapply Forall_impl; [|exact R].
           intros row Lr. rewrite length_map. exact Lr.
    + unfold pick_default. cbn [safe].
      set (w := map (fun a : float => (a, 0%float)) (diagonal h 0)).
      set (v := map (map (fun a : float => (a, 0%float))) _).
      destruct (pickeig_positions w v 1) as (_ & B & L).
      unfold w in B, L at 2.
      rewrite length_map, diagonal_length, Lh in B.
      rewrite real_parts_pass, length_map, diagonal_length, Lh in L.
      split; [lia|exact B].
Qed.

Lemma dgeev_safe_witness :
  safe (well_shaped 2 1)
       (Dgeev.dgeev exchange_abop exchange_abop1 (diag_precond [0; 0]%float)
                    npdot eigh_diagonal (OneVector [3; 4]%float) 1%Z
                    tol_default 50%Z 12 lindep_default 2000%Z None 1 false).
Proof.
  apply (@dgeev_raises_nothing_of_its_own
           float scalar exchange_abop exchange_abop1 (diag_precond [0; 0]%float)
           npdot eigh_diagonal 2 (OneVector [3; 4]%float) 1%Z tol_default 50%Z
           12 lindep_default 2000%Z None 1 false exchange_contract).
  - exact I.
  - lia.
  - lia.
  - lia.
  - discriminate.
  - discriminate.
  - repeat constructor.
  - cbn. lia.
Defined.

Lemma eig_safe_witness :
  safe (well_shaped 2 1)
       (Eig.eig exchange_aop (diag_precond [0; 0]%float) npdot pick_default
                eigs_diagonal (OneVector [3; 4]%float) tol_default 50%Z 12
                lindep_default 2000%Z None 1 false false).
Proof.
  apply (@eig_raises_nothing_of_its_own
           float scalar exchange_aop (diag_precond [0; 0]%float) npdot
           pick_default eigs_diagonal 2 (OneVector [3; 4]%float) tol_default
           50%Z 12 lindep_default 2000%Z None 1 false exchange_eig_contract).
  - exact I.
  - lia.
  - lia.
  - discriminate.
  - repeat constructor.
  - cbn. lia.
Defined.

End FltExtras.

Module RealExtras.
Import Reals Lra Real.
Local Open Scope R_scope.

Lemma real_threshold_below_one : ltb c1em7 one = true.
Proof.
  simpl. destruct (Rlt_dec (/ 10000000) 1) as [L|L]; [reflexivity|].
  exfalso. apply L. lra.
Qed.

Lemma qr_fixes_witness : qr [[1; 0]; [0; 1]] = Ok [[1; 0]; [0; 1]].
Proof.
  apply (@qr_keeps_orthonormal R Real.scalar RealWitnesses.real_exact
                               real_threshold_below_one 2).
  - discriminate.
  - repeat constructor.
  - split.
    + repeat constructor; unfold norm; cbn;
        try (match goal with
             | |- sqrt ?a = 1 => replace a with 1 by lra; apply sqrt_1
             end);
        lra.
    + repeat constructor; cbn; lra.
Defined.

Lemma trial_vectors_witness :
  exists ys,
    project_out [[1; 0]] 1 [[3; 4]] = Ok ys /\
    Eig.project_out [[1; 0]] 1 [[3; 4]] = Ok ys /\
    length ys = 1%nat /\
    Forall (fun y => Forall (fun p => dotsum y p = 0) [[1; 0]]) ys /\
    Forall (fun y => Forall (fun p => dotsum y p = 0) [[1; 0]])
           (prune (/ 2) ys).
Proof.
  apply (@trial_vectors_orthogonal_to_basis
           R Real.scalar RealWitnesses.real_exact 2 [[1; 0]] [[3; 4]] (/ 2)).
  - repeat constructor.
  - repeat constructor.
  - split.
    + repeat constructor; unfold norm; cbn;
        try (match goal with
             | |- sqrt ?a = 1 => replace a with 1 by lra; apply sqrt_1
             end);
        lra.
    + repeat constructor.
Defined.

End RealExtras.

(** * The first cycle of a call whose operator does not fit the guess *)

Lemma foldM_raises {A St} (f : St -> A -> result St) (ex : exn) (l : list A) :
  (forall s a, In a l -> (exists s', f s a = Ok s') \/ f s a = Raise ex) ->
  (exists a, In a l /\ forall s, f s a = Raise ex) ->
  forall s, foldM f l s = Raise ex.
Proof.
  induction l as [|a l IH]; intros Hstep (b & Hb & Hr) s; [destruct Hb|].
  cbn [foldM].
  destruct (Hstep s a (or_introl eq_refl)) as [(s' & E)|E]; rewrite E;
    cbn [bind]; [|reflexivity].
  destruct Hb as [<-|Hb]; [rewrite Hr in E; discriminate|].
  apply IH; [|eauto].
  intros s0 c Hc. apply Hstep. right; exact Hc.
Qed.

Section MismatchedImages.
Context {F : Type} `{Scalar F}.
Local Abbreviation vec := (list F).
Local Abbreviation matrix := (list (list F)).
Local Abbreviation complex := (F * F)%type.

Variable abop : list vec -> result (list vec * list vec).
Variable aop : list vec -> result (list vec).
Variable precond : vec -> F -> vec -> result vec.
Variable eigh : matrix -> matrix -> result (vec * matrix).
Variable eigs : matrix -> result (list complex * list (list complex)).
Variable pick : list complex -> list (list complex) -> nat -> result (list nat).

Lemma getitem_outside {A} (l : list A) (k : nat) :
  length l <= k -> getitem l k = Raise IndexError.
Proof.
  intros Hk. unfold getitem.
  destruct (nth_error l k) eqn:E; [|reflexivity].
  assert (k < length l) by (apply nth_error_Some; congruence). lia.
Qed.

Lemma getitem_inside {A} (l : list A) (k : nat) :
  k < length l -> exists a, getitem l k = Ok a.
Proof.
  intros Hk. unfold getitem.
  destruct (nth_error l k) eqn:E; [eauto|].
  apply nth_error_None in E. lia.
Qed.

(** Lines 121-124 with too few images. *)
Lemma dgeev_append_trials_short (st : Dgeev.state) (axt bxt : list vec) :
  length axt < length (Dgeev.xt st) \/ length bxt < length (Dgeev.xt st) ->
  Dgeev.append_trials st axt bxt = Raise IndexError.
Proof.
  intros Hshort. unfold Dgeev.append_trials. apply foldM_raises.
  - intros [[xs ax] bx] k Hk. apply in_seq in Hk.
    destruct (@getitem_inside _ (Dgeev.xt st) k) as [xk ->]; [lia|]. cbn [bind].
    unfold getitem.
    destruct (nth_error axt k); cbn [bind]; [|right; reflexivity].
    destruct (nth_error bxt k); cbn [bind]; [left; eauto|right; reflexivity].
  - exists (Nat.min (length axt) (length bxt)). split; [apply in_seq; lia|].
    intros [[xs ax] bx].
    destruct (@getitem_inside _ (Dgeev.xt st) (Nat.min (length axt) (length bxt)))
      as [xk ->]; [lia|]. cbn [bind].
    destruct (Nat.le_ge_cases (length axt) (length bxt)) as [L|L].
    + rewrite Nat.min_l by exact L.
      rewrite (@getitem_outside _ axt) by lia. reflexivity.
    + rewrite Nat.min_r by exact L.
      unfold getitem at 1. destruct (nth_error axt (length bxt)); cbn [bind];
        [|reflexivity].
      rewrite (@getitem_outside _ bxt) by lia. reflexivity.
Qed.

(** Lines 313-315 with too few images. *)
Lemma eig_append_trials_short (st : Eig.state) (axt : list vec) :
  length axt < length (Eig.xt st) ->
  Eig.append_trials st axt = Raise IndexError.
Proof.
  intros Hshort. unfold Eig.append_trials. apply foldM_raises.
  - intros [xs ax] k Hk. apply in_seq in Hk.
    destruct (@getitem_inside _ (Eig.xt st) k) as [xk ->]; [lia|]. cbn [bind].
    unfold getitem.
    destruct (nth_error axt k); cbn [bind]; [left; eauto|right; reflexivity].
  - exists (length axt). split; [apply in_seq; lia|].
    intros [xs ax].
    destruct (@getitem_inside _ (Eig.xt st) (length axt)) as [xk ->]; [lia|].
    cbn [bind]. rewrite (@getitem_outside _ axt) by lia. reflexivity.
Qed.

(** Lines 128-155 in the first cycle: the first inner product with an
    image of another dimension raises. *)
Lemma dgeev_extend_shape_error type (q a b : vec) (qs axt bxt ax bx : list vec)
      (M : nat) (heff seff : matrix) :
  length a <> length q -> length b <> length q ->
  type = 1%Z \/ (0 < M /\ square M heff) ->
  Dgeev.extend npdot type (q :: qs) (a :: axt) (b :: bxt) ax bx 0
               (length (q :: qs)) (0 + length (q :: qs)) heff seff
  = Raise ValueError.
Proof.
  intros La Lb Hh. unfold Dgeev.extend.
  cbn [length Nat.add seq foldM Nat.leb Nat.ltb andb Nat.sub].
  assert (forall s : matrix,
             entry npdot s 0 0
                   (operands (getitem (q :: qs) 0) (getitem (b :: bxt) 0))
             = Raise ValueError) as Es.
  { intros s. unfold entry, operands. cbn [getitem nth_error bind].
    rewrite npdot_mismatch by exact Lb. reflexivity. }
  match goal with
  | |- bind (bind ?m _) _ = _ => assert (m = Raise ValueError) as ->;
                                 [|reflexivity]
  end.
  destruct (type =? 1)%Z eqn:Et.
  - unfold entry at 1, operands at 1. cbn [getitem nth_error bind].
    rewrite npdot_mismatch by exact La. reflexivity.
  - destruct Hh as [->|[HM Sq]]; [discriminate|].
    unfold entry at 1, operands at 1. cbn [getitem nth_error bind].
    unfold npdot at 1. destruct (length b =? length a); cbn [bind];
      [|reflexivity].
    destruct (@mset_square _ M heff 0 0 (dotsum b a) Sq HM HM) as (m1 & -> & S1).
    cbn [bind].
    destruct (@mget_square _ M m1 0 0 S1 HM HM) as (c & ->). cbn [bind].
    destruct (@mset_square _ M m1 0 0 c S1 HM HM) as (m2 & -> & _).
    cbn [bind]. rewrite Es. reflexivity.
Qed.

(** Lines 319-321 in the first cycle. *)
Lemma eig_extend_shape_error (q a : vec) (qs axt xs ax : list vec)
      (heff : matrix) :
  length a <> length q ->
  Eig.extend npdot (q :: qs) (a :: axt) xs ax 0 (length (q :: qs)) heff
  = Raise ValueError.
Proof.
  intros La. unfold Eig.extend. cbn [length Nat.add seq foldM].
  unfold Eig.assign at 1, operands at 1. cbn [getitem nth_error bind].
  rewrite npdot_mismatch by exact La. reflexivity.
Qed.

Variable n : nat.

Lemma dgeev_fresh_cycle_cases type tol toloose max_space nroots lessio incore
      notify icyc (st : Dgeev.state) (qs : list vec) (M : nat) :
  Dgeev.fresh_start st = true -> qr (Dgeev.x0 st) = Ok qs ->
  Forall (fun q => length q = n) qs -> square M (Dgeev.heff st) ->
  let run_cycle :=
    Dgeev.cycle abop precond npdot eigh type tol toloose max_space nroots
                lessio incore notify icyc st in
  (forall ex, Dgeev.apply_operator abop type qs = Raise ex ->
              run_cycle = Raise ex) /\
  (forall axt bxt,
      Dgeev.apply_operator abop type qs = Ok (axt, bxt) ->
      (length axt < length qs \/ length bxt < length qs ->
       run_cycle = Raise IndexError) /\
      (qs <> [] -> length axt = length qs -> length bxt = length qs ->
       Forall (fun a => length a <> n) axt ->
       Forall (fun b => length b <> n) bxt ->
       type = 1%Z \/ 0 < M ->
       run_cycle = Raise ValueError)).
Proof.
  intros Hf Eq Hqs Sq. cbv zeta.
  unfold Dgeev.cycle, Dgeev.begin_cycle. rewrite Hf, Eq. cbn [bind]. cbv zeta.
  cbn [Dgeev.xt Dgeev.space Dgeev.heff Dgeev.seff].
  split.
  - intros ex ->. reflexivity.
  - intros axt bxt ->. cbn [bind]. split.
    + intros Hshort. rewrite dgeev_append_trials_short by exact Hshort.
      reflexivity.
    + intros Hne La Lb Ha Hb Ht.
      rewrite dgeev_append_trials_total by assumption. cbn [bind].
      destruct qs as [|q qs']; [congruence|].
      destruct axt as [|a axt']; [discriminate|].
      destruct bxt as [|b bxt']; [discriminate|].
      inversion Hqs; subst. inversion Ha; subst. inversion Hb; subst.
      assert (type = 1%Z \/ (0 < M /\ square M (Dgeev.heff st))) as Hh
          by (destruct Ht; [left|right; split]; assumption).
      rewrite (@dgeev_extend_shape_error type q a b qs' axt' bxt' _ _ M)
        by (assumption || congruence).
      reflexivity.
Qed.

Lemma eig_fresh_cycle_cases tol toloose max_space nroots lessio incore
      notify icyc (st : Eig.state) (qs : list vec) :
  Eig.fresh_start st = true -> qr (Eig.x0 st) = Ok qs ->
  Forall (fun q => length q = n) qs ->
  let run_cycle :=
    Eig.cycle aop precond npdot pick eigs tol toloose max_space nroots
              lessio incore notify icyc st in
  (forall ex, aop qs = Raise ex -> run_cycle = Raise ex) /\
  (forall axt,
      aop qs = Ok axt ->
      (length axt < length qs -> run_cycle = Raise IndexError) /\
      (qs <> [] -> length axt = length qs ->
       Forall (fun a => length a <> n) axt ->
       run_cycle = Raise ValueError)).
Proof.
  intros Hf Eq Hqs. cbv zeta.
  unfold Eig.cycle, Eig.begin_cycle. rewrite Hf, Eq. cbn [bind]. cbv zeta.
  cbn [Eig.xt Eig.space Eig.heff].
  split.
  - intros ex ->. reflexivity.
  - intros axt ->. cbn [bind]. split.
    + intros Hshort. rewrite eig_append_trials_short by exact Hshort.
      reflexivity.
    + intros Hne La Ha.
      rewrite eig_append_trials_total by assumption. cbn [bind].
      destruct qs as [|q qs']; [congruence|].
      destruct axt as [|a axt']; [discriminate|].
      inversion Hqs; subst. inversion Ha; subst.
      rewrite eig_extend_shape_error by congruence.
      reflexivity.
Qed.

End MismatchedImages.

Section MismatchedCall.
Context {F : Type} `{Scalar F}.
Local Abbreviation vec := (list F).
Local Abbreviation matrix := (list (list F)).
Local Abbreviation complex := (F * F)%type.

Variable abop : list vec -> result (list vec * list vec).
Variable aop : list vec -> result (list vec).
Variable precond : vec -> F -> vec -> result vec.
Variable eigh : matrix -> matrix -> result (vec * matrix).
Variable eigs : matrix -> result (list complex * list (list complex)).
Variable pick : list complex -> list (list complex) -> nat -> result (list nat).

(** C7, as the code has it.  Nothing is checked before the loop.  A call
    with the default [dot], at least one guess, all guesses of one
    dimension [n >= 1], and [max_cycle >= 1] enters the first cycle and
    orthogonalizes the guesses.  The operator is then applied to the
    result (lines 118-120, 312), and what it raises the call raises.
    When it returns fewer images than trial vectors, the call raises
    [IndexError] (lines 121-124, 313-315).  When it returns as many, all
    of another dimension than [n], the call raises numpy's shape error,
    [ValueError], from the first inner product with an image (for [dgeev]
    with [type] other than 1 this needs [heff] not to be empty).  In each
    case one cycle is entered, none completes and nothing is returned. *)
Theorem mismatch_raises_inside_first_cycle
        (n : nat) (x0 : guess F) (type : Z) (tol : F) (max_cycle : Z)
        (max_space : nat) (lindep : F) (max_memory : Z)
        (dcallback : option (Dgeev.locals -> result unit))
        (ecallback : option (Eig.locals -> result unit))
        (nroots : nat) (lessio : bool) :
  as_list x0 <> [] -> Forall (fun x => length x = n) (as_list x0) ->
  0 < n -> (1 <= max_cycle)%Z ->
  exists qs,
    qr (as_list x0) = Ok qs /\ qs <> [] /\ Forall (fun q => length q = n) qs /\
    (exists o,
        Dgeev.run abop precond npdot eigh x0 type tol max_cycle max_space
                  lindep max_memory dcallback nroots lessio = Ok o /\
        (forall ex, Dgeev.apply_operator abop type qs = Raise ex ->
                    raised_in_first_cycle o ex) /\
        (forall axt bxt,
            Dgeev.apply_operator abop type qs = Ok (axt, bxt) ->
            (length axt < length qs \/ length bxt < length qs ->
             raised_in_first_cycle o IndexError) /\
            (length axt = length qs -> length bxt = length qs ->
             Forall (fun a => length a <> n) axt ->
             Forall (fun b => length b <> n) bxt ->
             type = 1%Z \/ 0 < max_space + nroots * 2 ->
             raised_in_first_cycle o ValueError))) /\
    (exists o,
        Eig.run aop precond npdot pick eigs x0 tol max_cycle max_space
                lindep max_memory ecallback nroots lessio false = Ok o /\
        (forall ex, aop qs = Raise ex -> raised_in_first_cycle o ex) /\
        (forall axt,
            aop qs = Ok axt ->
            (length axt < length qs -> raised_in_first_cycle o IndexError) /\
            (length axt = length qs ->
             Forall (fun a => length a <> n) axt ->
             raised_in_first_cycle o ValueError))).
Proof.
  intros Hne Hs Hn Hmax.
  destruct (@qr_same_dimension _ _ n (as_list x0) Hne Hs)
    as (qs & Eq & Hq & _ & Sq).
  exists qs. split; [exact Eq|]. split; [exact Hq|]. split; [exact Sq|].
  destruct (as_list x0) as [|first rest] eqn:Ex; [congruence|].
  assert (length first = n) as Lf by (inversion Hs; assumption).
  assert (exists m, Z.to_nat (Z.min max_cycle (Z.of_nat (length first))) = S m)
    as [m Hm].
  { exists (Nat.pred (Z.to_nat (Z.min max_cycle (Z.of_nat (length first))))).
    lia. }
  assert (forall need, exists b,
             fits_in_core max_memory (length first) need = Ok b) as Hfit.
  { intros need. unfold fits_in_core.
    destruct (length first =? 0) eqn:E0; [apply Nat.eqb_eq in E0; lia|eauto]. }
  assert (forall {St} (body : nat -> St -> result (control St)) s ex,
             body 0 s = Raise ex ->
             raised_in_first_cycle (for_range body (S m) 0 s) ex) as Hstop.
  { intros St body s ex E. unfold raised_in_first_cycle.
    cbn [for_range]. rewrite E. auto. }
  split.
  - unfold Dgeev.run. rewrite Ex. cbn [getitem nth_error bind].
    destruct (Hfit ((max_space + nroots * 2) * 3 + nroots * 3)) as [b ->].
    cbn [bind]. cbv zeta. rewrite Hm.
    eexists. split; [reflexivity|].
    match goal with
    | |- context [for_range (Dgeev.cycle _ _ _ _ _ _ ?tl ?ms _ _ ?ic ?nt) _ _ ?s] =>
        destruct (@dgeev_fresh_cycle_cases
                    _ _ abop precond eigh n type tol tl ms nroots lessio ic nt 0
                    s qs (max_space + nroots * 2) eq_refl Eq Sq
                    (empty_matrix_square _)) as [Hr Hi]
    end.
    split.
    + intros ex E. apply Hstop, Hr, E.
    + intros axt bxt E. destruct (Hi axt bxt E) as [H1 H2]. split.
      * intros Hshort. apply Hstop, H1, Hshort.
      * intros La Lb Ha Hb Ht. apply Hstop, H2; assumption.
  - unfold Eig.run. rewrite Ex. cbn [getitem nth_error bind].
    destruct (Hfit ((max_space + nroots * 2) * 2 + nroots * 2)) as [b ->].
    cbn [bind]. cbv zeta. rewrite Hm.
    eexists. split; [reflexivity|].
    match goal with
    | |- context [for_range (Eig.cycle _ _ _ _ _ _ ?tl ?ms _ _ ?ic ?nt) _ _ ?s] =>
        destruct (@eig_fresh_cycle_cases
                    _ _ aop precond eigs pick n tol tl ms nroots lessio ic nt 0
                    s qs eq_refl Eq Sq) as [Hr Hi]
    end.
    split.
    + intros ex E. apply Hstop, Hr, E.
    + intros axt E. destruct (Hi axt E) as [H1 H2]. split.
      * intros Hshort. apply Hstop, H1, Hshort.
      * intros La Ha. apply Hstop, H2; assumption.
Qed.

End MismatchedCall.

(** * The solve of a cycle and the state it leaves *)

Section CycleSolve.
Context {F : Type} `{Scalar F}.
Local Abbreviation vec := (list F).
Local Abbreviation matrix := (list (list F)).
Local Abbreviation complex := (F * F)%type.

Variable abop : list vec -> result (list vec * list vec).
Variable aop : list vec -> result (list vec).
Variable precond : vec -> F -> vec -> result vec.
Variable dot : vec -> vec -> result F.
Variable eigh : matrix -> matrix -> result (vec * matrix).
Variable eigs : matrix -> result (list complex * list (list complex)).
Variable pick : list complex -> list (list complex) -> nat -> result (list nat).

(** The state in which a cycle of [dgeev] ends keeps the matrices that
    were handed to the dense solver and the lowest [nroots] eigenvalues
    that it returned; the loop was left by the test on the deltas exactly
    when that test fired on the deltas of this solve. *)
Lemma dgeev_cycle_solve type tol toloose max_space nroots lessio incore notify
      icyc (st : Dgeev.state) c :
  Dgeev.cycle abop precond dot eigh type tol toloose max_space nroots lessio
              incore notify icyc st = Ok c ->
  exists st1 w v de,
    Dgeev.begin_cycle nroots st = Ok st1 /\
    eigh (leading (Dgeev.space (landing c)) (Dgeev.heff (landing c)))
         (leading (Dgeev.space (landing c)) (Dgeev.seff (landing c)))
    = Ok (w, v) /\
    Dgeev.e (landing c) = Some (firstn nroots w) /\
    length (Dgeev.x0 (landing c)) = length (firstn nroots w) /\
    firstn nroots w <> [] /\
    Dgeev.deltas nroots (Dgeev.space (landing c)) (Dgeev.e st1) w = Ok de /\
    de_converged tol de = Ok (converged_by_deltas c).
Proof.
  unfold Dgeev.cycle. cbv zeta.
  repeat peel1; intros E'; apply Ok_inj in E'; subst c;
    cbn [landing converged_by_deltas Dgeev.space Dgeev.heff Dgeev.seff
         Dgeev.e Dgeev.x0];
    match goal with
    | Eb : Dgeev.begin_cycle _ _ = Ok ?st1,
      Eh : eigh _ _ = Ok (?w, ?v),
      Er : Dgeev.ritz _ _ _ _ _ _ _ _ _ _ = Ok _,
      Ed : Dgeev.deltas _ _ _ _ = Ok ?de,
      Ec : de_converged _ ?de = Ok _ |- _ =>
        exists st1, w, v, de;
        split; [reflexivity|];
        split; [exact Eh|];
        split; [reflexivity|];
        split; [eapply dgeev_ritz_length; exact Er|];
        split; [|split; [exact Ed|exact Ec]];
        apply de_converged_nonempty in Ec;
        revert Ed; unfold Dgeev.deltas; repeat peel1;
        (let Hd := fresh "Hd" in
         intros Hd; try (apply Ok_inj in Hd; subst; exact Ec));
        eapply broadcast_nonempty; eassumption
    end.
Qed.

Lemma eig_cycle_solve tol toloose max_space nroots lessio incore notify
      icyc (st : Eig.state) c :
  Eig.cycle aop precond dot pick eigs tol toloose max_space nroots lessio
            incore notify icyc st = Ok c ->
  exists st1 w vc idx de,
    Eig.begin_cycle nroots st = Ok st1 /\
    eigs (leading (Eig.space (landing c)) (Eig.heff (landing c))) = Ok (w, vc) /\
    pick w vc nroots = Ok idx /\
    Eig.e (landing c) = Some (map (fun i => re (nth i w czero)) idx) /\
    length (Eig.x0 (landing c)) = length idx /\
    idx <> [] /\
    Eig.deltas nroots idx (Eig.e st1) (map (fun i => re (nth i w czero)) idx)
    = Ok de /\
    de_converged tol de = Ok (converged_by_deltas c).
Proof.
  unfold Eig.cycle. cbv zeta.
  repeat peel1; intros E'; apply Ok_inj in E'; subst c;
    cbn [landing converged_by_deltas Eig.space Eig.heff Eig.e Eig.x0];
    match goal with
    | Eb : Eig.begin_cycle _ _ = Ok ?st1,
      Eh : eigs _ = Ok (?w, ?v),
      Ep : pick _ _ _ = Ok ?idx,
      Em : mapM (getitem _) _ = Ok _,
      Er : Eig.ritz _ _ _ _ _ _ _ _ = Ok _,
      Ed : Eig.deltas _ _ _ _ = Ok ?de,
      Ec : de_converged _ ?de = Ok _ |- _ =>
        exists st1, w, v, idx, de;
        apply (mapM_getitem czero) in Em; subst;
        rewrite map_map in *;
        split; [reflexivity|];
        split; [exact Eh|];
        split; [exact Ep|];
        split; [reflexivity|];
        split; [erewrite eig_ritz_length by exact Er; apply length_map|];
        split; [|split; [exact Ed|exact Ec]];
        apply de_converged_nonempty in Ec;
        assert (map (fun i => re (nth i w czero)) idx <> []) as Hne;
        [ revert Ed; unfold Eig.deltas; repeat peel1;
          (let Hd := fresh "Hd" in
           intros Hd; try (apply Ok_inj in Hd; subst; exact Ec));
          eapply broadcast_nonempty; eassumption
        | intros ->; apply Hne; reflexivity ]
    end.
Qed.

(** C3, in general.  A cycle that starts fresh compares the eigenvalues
    of its solve with [zeros(nroots)]: the deltas are the new eigenvalues
    themselves when fewer than [nroots] are available, and the new
    eigenvalues minus zero otherwise; the loop is left by
    [abs(de[ide]) < tol] exactly when the test fires on these deltas.
    Nothing is skipped. *)
Lemma fresh_cycle_tests_new_eigenvalues
      type tol toloose max_space nroots lessio incore icyc :
  (forall notify (st : Dgeev.state) c,
      Dgeev.fresh_start st = true ->
      Dgeev.cycle abop precond dot eigh type tol toloose max_space nroots
                  lessio incore notify icyc st = Ok c ->
      exists w v de,
        eigh (leading (Dgeev.space (landing c)) (Dgeev.heff (landing c)))
             (leading (Dgeev.space (landing c)) (Dgeev.seff (landing c)))
        = Ok (w, v) /\
        Dgeev.e (landing c) = Some (firstn nroots w) /\
        (if Dgeev.space (landing c) <? nroots then Ok (firstn nroots w)
         else broadcast sub (firstn nroots w) (zeros nroots)) = Ok de /\
        de_converged tol de = Ok (converged_by_deltas c)) /\
  (forall notify (st : Eig.state) c,
      Eig.fresh_start st = true ->
      Eig.cycle aop precond dot pick eigs tol toloose max_space nroots
                lessio incore notify icyc st = Ok c ->
      exists w vc idx de,
        eigs (leading (Eig.space (landing c)) (Eig.heff (landing c)))
        = Ok (w, vc) /\
        pick w vc nroots = Ok idx /\
        Eig.e (landing c) = Some (map (fun i => re (nth i w czero)) idx) /\
        (if length idx <? nroots
         then Ok (map (fun i => re (nth i w czero)) idx)
         else broadcast sub (map (fun i => re (nth i w czero)) idx)
                        (zeros nroots)) = Ok de /\
        de_converged tol de = Ok (converged_by_deltas c)).
Proof.
  split.
  - intros notify st c Hf Ec.
    destruct (dgeev_cycle_solve _ _ _ _ _ _ _ _ _ _ Ec)
      as (st1 & w & v & de & Eb & Eh & Ee & _ & _ & Ed & Et).
    exists w, v, de. split; [exact Eh|]. split; [exact Ee|]. split; [|exact Et].
    unfold Dgeev.begin_cycle in Eb. rewrite Hf in Eb.
    apply bind_ok in Eb as (qs & _ & Eb). apply Ok_inj in Eb. subst st1.
    revert Ed. unfold Dgeev.deltas. cbn [Dgeev.e bind].
    unfold zeros at 1. rewrite repeat_length, Nat.eqb_refl. cbn [negb].
    intros Ed; exact Ed.
  - intros notify st c Hf Ec.
    destruct (eig_cycle_solve _ _ _ _ _ _ _ _ _ Ec)
      as (st1 & w & vc & idx & de & Eb & Eh & Ep & Ee & _ & _ & Ed & Et).
    exists w, vc, idx, de. split; [exact Eh|]. split; [exact Ep|].
    split; [exact Ee|]. split; [|exact Et].
    unfold Eig.begin_cycle in Eb. rewrite Hf in Eb.
    apply bind_ok in Eb as (qs & _ & Eb). apply Ok_inj in Eb. subst st1.
    revert Ed. unfold Eig.deltas. cbn [Eig.e bind].
    unfold zeros at 1. rewrite repeat_length, Nat.eqb_refl. cbn [negb].
    intros Ed; exact Ed.
Qed.

End CycleSolve.

(** * The basis from one cycle to the next *)



Section SubspaceRestart.
Context {F : Type} `{Scalar F}.
Local Abbreviation vec := (list F).
Local Abbreviation matrix := (list (list F)).
Local Abbreviation complex := (F * F)%type.

Variable abop : list vec -> result (list vec * list vec).
Variable aop : list vec -> result (list vec).
Variable precond : vec -> F -> vec -> result vec.
Variable dot : vec -> vec -> result F.
Variable eigh : matrix -> matrix -> result (vec * matrix).
Variable eigs : matrix -> result (list complex * list (list complex)).
Variable pick : list complex -> list (list complex) -> nat -> result (list nat).




End SubspaceRestart.

(** * The value returned *)

(** Lines 248-251 and 410-413, with the eigenvalue that [nroots == 1]
    returns. *)
Lemma return_value_of {F : Type} (nroots : nat) (ev : list F)
      (x0 : list (list F)) (r : retval F) :
  return_value nroots (Some ev) x0 = Ok r ->
  (nroots = 1 -> exists e1 x1, r = RetOne e1 x1 /\ nth_error ev 0 = Some e1) /\
  (nroots <> 1 -> r = RetMany ev x0).
Proof.
  unfold return_value. destruct (nroots =? 1) eqn:En.
  - apply Nat.eqb_eq in En. intros E.
    apply bind_ok in E as (e1 & E1 & E). apply bind_ok in E as (x1 & _ & E).
    apply Ok_inj in E. subst r. apply getitem_ok in E1 as [E1 _].
    split; [eauto|congruence].
  - apply Nat.eqb_neq in En. intros E. apply Ok_inj in E.
    split; [congruence|auto].
Qed.

Section ReturnedValue.
Context {F : Type} `{Scalar F}.
Local Abbreviation vec := (list F).
Local Abbreviation matrix := (list (list F)).
Local Abbreviation complex := (F * F)%type.

Variable abop : list vec -> result (list vec * list vec).
Variable abop1 : vec -> result (vec * vec).
Variable aop : list vec -> result (list vec).
Variable precond : vec -> F -> vec -> result vec.
Variable dot : vec -> vec -> result F.
Variable eigh : matrix -> matrix -> result (vec * matrix).
Variable eigs : matrix -> result (list complex * list (list complex)).

(** C1, as the code has it.  A call that returns went through a last
    solve of the dense solver, on the matrices that the final state
    keeps.  [dgeev] returns the first [nroots] eigenvalues [w] of that
    solve, as many as there are: at least one and at most [nroots], in the
    order of [w], hence ascending when [w] is.  [eig] returns the real
    parts of the eigenvalues at the positions that [pick] returned, in
    the order of [pick], at least one; with the default [pickeig] they are
    at most [nroots], and ascending when [<=] is a total preorder on the
    real parts of the eigenvalues of that solve whose imaginary part is
    zero.  For [nroots == 1] the value is the first of these eigenvalues
    with one vector, otherwise the sequence of them with as many
    vectors. *)
Theorem return_shape_by_nroots
        (x0 : guess F) (type : Z) (tol : F) (max_cycle : Z) (max_space : nat)
        (lindep : F) (max_memory : Z)
        (dcallback : option (Dgeev.locals -> result unit))
        (ecallback : option (Eig.locals -> result unit))
        (nroots : nat) (lessio left : bool) :
  (forall r,
      Dgeev.dgeev abop abop1 precond dot eigh x0 type tol max_cycle max_space
                  lindep max_memory dcallback nroots lessio = Ok r ->
      exists o why st w v,
        Dgeev.run abop precond dot eigh x0 type tol max_cycle max_space
                  lindep max_memory dcallback nroots lessio = Ok o /\
        final o = Ok (why, st) /\
        eigh (leading (Dgeev.space st) (Dgeev.heff st))
             (leading (Dgeev.space st) (Dgeev.seff st)) = Ok (w, v) /\
        let es := firstn nroots w in
        0 < length es <= nroots /\
        (ascending w -> ascending es) /\
        (nroots = 1 ->
         exists e1 x1, r = RetOne e1 x1 /\ nth_error es 0 = Some e1) /\
        (nroots <> 1 ->
         exists xs, r = RetMany es xs /\ length xs = length es)) /\
  (forall pick r,
      Eig.eig aop precond dot pick eigs x0 tol max_cycle max_space
              lindep max_memory ecallback nroots lessio left = Ok r ->
      exists o why st w vc idx,
        Eig.run aop precond dot pick eigs x0 tol max_cycle max_space
                lindep max_memory ecallback nroots lessio left = Ok o /\
        final o = Ok (why, st) /\
        eigs (leading (Eig.space st) (Eig.heff st)) = Ok (w, vc) /\
        pick w vc nroots = Ok idx /\
        let es := map (fun i => re (nth i w czero)) idx in
        0 < length es /\
        (nroots = 1 ->
         exists e1 x1, r = RetOne e1 x1 /\ nth_error es 0 = Some e1) /\
        (nroots <> 1 ->
         exists xs, r = RetMany es xs /\ length xs = length es) /\
        (pick = pick_default ->
         length es <= nroots /\
         forall D : F -> Prop,
           (forall a b, D a -> D b -> leb a b = true \/ leb b a = true) ->
           (forall a b c, D a -> D b -> D c ->
                          leb a b = true -> leb b c = true -> leb a c = true) ->
           Forall D (map re (filter (fun z => eqb (im z) zero) w)) ->
           ascending es)).
Proof.
  split.
  - intros r. unfold Dgeev.dgeev.
    destruct (Dgeev.run _ _ _ _ _ _ _ _ _ _ _ _ _ _) as [o|ex] eqn:Erun;
      cbn [bind]; [|discriminate].
    destruct (final o) as [[why st]|ex] eqn:Efin; cbn [bind]; [|discriminate].
    intros Ef. exists o, why, st.
    assert ((why = CyclesDone /\ Dgeev.e st = None) \/
            exists w v,
              eigh (leading (Dgeev.space st) (Dgeev.heff st))
                   (leading (Dgeev.space st) (Dgeev.seff st)) = Ok (w, v) /\
              Dgeev.e st = Some (firstn nroots w) /\
              length (Dgeev.x0 st) = length (firstn nroots w) /\
              firstn nroots w <> []) as HP.
    { revert Erun Efin. unfold Dgeev.run. repeat peel1. cbv zeta.
      intros Erun; apply Ok_inj in Erun; subst o. intros Efin.
      match type of Efin with
      | final (for_range ?body _ _ _) = Ok _ =>
          apply (@final_landing _ body
                   (fun st => exists w v,
                        eigh (leading (Dgeev.space st) (Dgeev.heff st))
                             (leading (Dgeev.space st) (Dgeev.seff st))
                        = Ok (w, v) /\
                        Dgeev.e st = Some (firstn nroots w) /\
                        length (Dgeev.x0 st) = length (firstn nroots w) /\
                        firstn nroots w <> [])) in Efin
      end.
      - destruct Efin as [(-> & -> & _)|HP]; [left; auto|right; exact HP].
      - intros i s c Ec. cbv beta.
        destruct (dgeev_cycle_solve _ _ _ _ _ _ _ _ _ _ _ _ _ _ Ec)
          as (_ & w & v & _ & _ & Eh & Ee & Hl & Hn & _).
        exists w, v. auto. }
    destruct HP as [[_ He]|(w & v & Eh & Ee & Hl & Hn)].
    + exfalso. revert Ef. unfold Dgeev.finish. rewrite He. peel1.
      discriminate.
    + exists w, v. split; [reflexivity|]. split; [exact Efin|].
      split; [exact Eh|]. cbv zeta.
      split; [split; [destruct (firstn nroots w); [congruence|cbn; lia]
                     |apply firstn_le_length]|].
      split; [apply (ascending_firstn abop1 precond dot)|].
      revert Ef. unfold Dgeev.finish. rewrite Ee.
      destruct (if (type =? 3)%Z then _ else _) as [xs|ex] eqn:Ex;
        cbn [bind]; [|discriminate].
      assert (length xs = length (firstn nroots w)) as Lx.
      { destruct (type =? 3)%Z; [|apply Ok_inj in Ex; subst xs; exact Hl].
        revert Ex.
        apply (@foldM_invariant _ _
                 (fun x : list vec => length x = length (firstn nroots w)));
          [|exact Hl].
        intros s k s' Hs. repeat peel1. intros E'; apply Ok_inj in E'; subst s'.
        rewrite set_nth_length. exact Hs. }
      intros Er. apply return_value_of in Er as [R1 Rn].
      split; [exact R1|]. intros Hn1. exists xs. split; [apply Rn, Hn1|exact Lx].
  - intros pick r. unfold Eig.eig.
    destruct (Eig.run _ _ _ _ _ _ _ _ _ _ _ _ _ _ _) as [o|ex] eqn:Erun;
      cbn [bind]; [|discriminate].
    destruct (final o) as [[why st]|ex] eqn:Efin; cbn [bind]; [|discriminate].
    intros Ef. exists o, why, st.
    assert ((why = CyclesDone /\ Eig.e st = None) \/
            exists w vc idx,
              eigs (leading (Eig.space st) (Eig.heff st)) = Ok (w, vc) /\
              pick w vc nroots = Ok idx /\
              Eig.e st = Some (map (fun i => re (nth i w czero)) idx) /\
              length (Eig.x0 st) = length idx /\ idx <> []) as HP.
    { revert Erun Efin. unfold Eig.run. destruct left; [discriminate|].
      repeat peel1. cbv zeta.
      intros Erun; apply Ok_inj in Erun; subst o. intros Efin.
      match type of Efin with
      | final (for_range ?body _ _ _) = Ok _ =>
          apply (@final_landing _ body
                   (fun st => exists w vc idx,
                        eigs (leading (Eig.space st) (Eig.heff st))
                        = Ok (w, vc) /\
                        pick w vc nroots = Ok idx /\
                        Eig.e st
                        = Some (map (fun i => re (nth i w czero)) idx) /\
                        length (Eig.x0 st) = length idx /\ idx <> [])) in Efin
      end.
      - destruct Efin as [(-> & -> & _)|HP]; [left; auto|right; exact HP].
      - intros i s c Ec. cbv beta.
        destruct (eig_cycle_solve _ _ _ _ _ _ _ _ _ _ _ _ _ _ Ec)
          as (st1 & w & vc & idx & de & _ & Eh & Ep & Ee & Hl & Hn & _).
        exists w, vc, idx. auto. }
    destruct HP as [[_ He]|(w & vc & idx & Eh & Ep & Ee & Hl & Hn)].
    + exfalso. revert Ef. unfold Eig.finish. rewrite He. discriminate.
    + exists w, vc, idx. split; [reflexivity|]. split; [exact Efin|].
      split; [exact Eh|]. split; [exact Ep|]. cbv zeta.
      rewrite length_map.
      split; [destruct idx; [congruence|cbn; lia]|].
      revert Ef. unfold Eig.finish. rewrite Ee.
      intros Er. apply return_value_of in Er as [R1 Rn].
      split; [exact R1|].
      split; [intros Hn1; exists (Eig.x0 st); split; [apply Rn, Hn1|exact Hl]|].
      intros ->. unfold pick_default in Ep. apply Ok_inj in Ep. subst idx.
      split; [destruct (pickeig_positions w vc nroots) as (_ & _ & ->);
              apply Nat.le_min_l|].
      intros D Ht Htr HD.
      apply (pickeig_selection Ht Htr w vc nroots HD).
Qed.

End ReturnedValue.

(** * The theorems above at concrete inputs *)

Module FltCases.
Import Floats Flt.

(** The matrix [[1,1,0],[1,2,1],[0,1,3]] and the identity of order 3. *)
Local Abbreviation tri3 := ([[1; 1; 0]; [1; 2; 1]; [0; 1; 3]]%float).
Local Abbreviation eye3 := ([[1; 0; 0]; [0; 1; 0]; [0; 0; 1]]%float).

(** C4 fails as stated on binary64.  For the guesses [(1,1)] and
    [(2^33, 2^33)], both nonzero, the projection of the second on the
    first leaves a residual of rounding errors whose norm exceeds 1e-7; it
    is kept and normalized, and [qr] returns the same vector twice: the
    two vectors returned are not orthogonal.  For the single guess
    [(2^600, 2^600)] the norm overflows and [qr] returns [(0,0)], whose
    norm is not 1. *)
Lemma qr_returns_parallel_vectors :
  let q := vdiv [1; 1]%float (norm [1; 1]%float) in
  qr [[1; 1]; [8589934592; 8589934592]]%float = Ok [q; q] /\
  ltb (dotsum q q) c1em7 = false /\
  ltb 0.5%float (dotsum q q) = true /\
  eqb (norm q) 1%float = false /\
  qr [[0x1p+600; 0x1p+600]]%float = Ok [[0; 0]%float] /\
  norm [0; 0]%float = 0%float.
Proof. cbv zeta. repeat split; vm_compute; reflexivity. Qed.


(** C7 at concrete inputs: [dgeev] with an operator that maps the guess
    [(1,0)] to images of dimension 3, and [eig] with an operator that
    raises. *)
Lemma mismatch_witness :
  (exists o,
      Dgeev.run (dense_abop tall32 tall32) (diag_precond [1; 1]%float) npdot
                eigh_diagonal (OneVector [1; 0]%float) 1%Z tol_default 50%Z 12
                lindep_default 2000%Z None 1 false = Ok o /\
      raised_in_first_cycle o ValueError) /\
  (exists o,
      Eig.run (fun _ => Raise (Raised 5)) (diag_precond [1; 1]%float) npdot
              pick_default eigs_diagonal (OneVector [1; 0]%float) tol_default
              50%Z 12 lindep_default 2000%Z None 1 false false = Ok o /\
      raised_in_first_cycle o (Raised 5)).
Proof.
  split.
  - destruct (@mismatch_raises_inside_first_cycle
                float scalar (dense_abop tall32 tall32) (dense_aop tall32)
                (diag_precond [1; 1]%float) eigh_diagonal eigs_diagonal
                pick_default 2 (OneVector [1; 0]%float) 1%Z tol_default 50%Z 12
                lindep_default 2000%Z None None 1 false)
      as (qs & Eq & _ & _ & (o & Erun & _ & Himg) & _).
    + discriminate.
    + repeat constructor.
    + lia.
    + lia.
    + exists o. split; [exact Erun|].
      destruct (Himg (map (matvec tall32) qs) (map (matvec tall32) qs) eq_refl)
        as [_ Hv].
      apply Hv.
      * apply length_map.
      * apply length_map.
      * apply Forall_map, Forall_forall. intros x _. apply FltWitnesses.matvec_tall_length.
      * apply Forall_map, Forall_forall. intros x _. apply FltWitnesses.matvec_tall_length.
      * left; reflexivity.
  - destruct (@mismatch_raises_inside_first_cycle
                float scalar (dense_abop tall32 tall32)
                (fun _ => Raise (Raised 5))
                (diag_precond [1; 1]%float) eigh_diagonal eigs_diagonal
                pick_default 2 (OneVector [1; 0]%float) 1%Z tol_default 50%Z 12
                lindep_default 2000%Z None None 1 false)
      as (qs & _ & _ & _ & _ & (o & Erun & Hraise & _)).
    + discriminate.
    + repeat constructor.
    + lia.
    + lia.
    + exists o. split; [exact Erun|]. apply Hraise. reflexivity.
Defined.

(** C1 at concrete inputs: [A = diag(1,2)], [B = I], the guesses [(1,0)]
    and [(0,1)] and [nroots = 2]. *)
Lemma return_shape_witness :
  (exists es xs,
      Dgeev.dgeev (dense_abop diag12 eye2) (dense_abop1 diag12 eye2)
                  (diag_precond [1; 2]%float) npdot FltSmall.eigh
                  (Vectors [[1; 0]; [0; 1]]%float) 1%Z tol_default 50%Z 12
                  lindep_default 2000%Z None 2 false = Ok (RetMany es xs) /\
      length xs = length es /\ length es = 2 /\ ascending es) /\
  (exists es xs,
      Eig.eig (dense_aop diag12) (diag_precond [1; 2]%float) npdot
              pick_default eigs_diagonal (Vectors [[1; 0]; [0; 1]]%float)
              tol_default 50%Z 12 lindep_default 2000%Z None 2 false false
      = Ok (RetMany es xs) /\
      length xs = length es /\ length es = 2 /\ ascending es).
Proof.
  split.
  - destruct (proj1 (return_shape_by_nroots
                       (dense_abop diag12 eye2) (dense_abop1 diag12 eye2)
                       (dense_aop diag12) (diag_precond [1; 2]%float) npdot
                       FltSmall.eigh eigs_diagonal
                       (Vectors [[1; 0]; [0; 1]]%float) 1%Z tol_default 50%Z 12
                       lindep_default 2000%Z None None 2 false false)
                    (RetMany [1; 2]%float [[1; 0]; [0; 1]]%float))
      as (o & why & st & w & v & Erun & Efin & Eh & _ & Hasc & _ & Hmany).
    + vm_compute. reflexivity.
    + vm_compute in Erun. apply Ok_inj in Erun. subst o.
      vm_compute in Efin. apply Ok_inj in Efin. injection Efin as <- <-.
      vm_compute in Eh. apply Ok_inj in Eh. injection Eh as <- <-.
      destruct Hmany as (xs & Er & Lx); [discriminate|].
      exists [1; 2]%float, xs. split; [vm_compute; rewrite Er; reflexivity|].
      split; [exact Lx|]. split; [reflexivity|].
      apply Hasc. repeat constructor; vm_compute; reflexivity.
  - destruct (proj2 (return_shape_by_nroots
                       (dense_abop diag12 eye2) (dense_abop1 diag12 eye2)
                       (dense_aop diag12) (diag_precond [1; 2]%float) npdot
                       FltSmall.eigh eigs_diagonal
                       (Vectors [[1; 0]; [0; 1]]%float) 1%Z tol_default 50%Z 12
                       lindep_default 2000%Z None None 2 false false)
                    pick_default
                    (RetMany [1; 2]%float [[1; 0]; [0; 1]]%float))
      as (o & why & st & w & vc & idx & Erun & Efin & Eh & Ep & _ & _ & Hmany
          & Hdef).
    + vm_compute. reflexivity.
    + vm_compute in Erun. apply Ok_inj in Erun. subst o.
      vm_compute in Efin. apply Ok_inj in Efin. injection Efin as <- <-.
      vm_compute in Eh. apply Ok_inj in Eh. injection Eh as <- <-.
      vm_compute in Ep. apply Ok_inj in Ep. subst idx.
      destruct Hmany as (xs & Er & Lx); [discriminate|].
      destruct (Hdef eq_refl) as [_ Hasc].
      exists [1; 2]%float, xs. split; [vm_compute; rewrite Er; reflexivity|].
      split; [exact Lx|]. split; [reflexivity|].
      apply (Hasc (fun a => In a [1; 2]%float)).
      * intros a b [<-|[<-|[]]] [<-|[<-|[]]]; vm_compute; auto.
      * intros a b c [<-|[<-|[]]] [<-|[<-|[]]] [<-|[<-|[]]];
          vm_compute; intros; congruence.
      * vm_compute. repeat (apply Forall_cons; [auto 6|]). apply Forall_nil.
Defined.


(** X9 at concrete inputs: the exchange of two coordinates, the guesses
    [(3,4)] and [(1,0)] and [nroots = 2]; the loop ends by the residuals,
    one of which is not zero. *)
Lemma residual_exit_witness :
  exists o st ev,
    Dgeev.run exchange_abop (diag_precond [0; 0]%float) npdot FltSmall.eigh
              (Vectors [[3; 4]; [1; 0]]%float) 1%Z tol_default 50%Z 12
              lindep_default 2000%Z None 2 false = Ok o /\
    final o = Ok (ConvergedRes, st) /\
    Dgeev.e st = Some ev /\ length ev = 2 /\
    length (Dgeev.x0 st) = length ev /\
    Forall (fun d => ltb d (mul (sqrt tol_default) c1em2) = true)
           (dgeev_residual_norms (@rev float) (fun x => x) 1%Z ev
                                 (Dgeev.x0 st)).
Proof.
  destruct (Dgeev.run exchange_abop (diag_precond [0; 0]%float) npdot
                      FltSmall.eigh (Vectors [[3; 4]; [1; 0]]%float) 1%Z
                      tol_default 50%Z 12 lindep_default 2000%Z None 2 false)
    as [o|ex] eqn:Erun; [|vm_compute in Erun; discriminate].
  destruct (final o) as [[why st]|ex] eqn:Efin.
  2:{ vm_compute in Erun. apply Ok_inj in Erun. subst o.
      vm_compute in Efin. discriminate. }
  assert (why = ConvergedRes) as ->.
  { vm_compute in Erun. apply Ok_inj in Erun. subst o.
    vm_compute in Efin. apply Ok_inj in Efin. injection Efin as <- _.
    reflexivity. }
  destruct (proj1 (@residual_exit_bounds_residuals
                     float scalar exchange_abop exchange_aop
                     (diag_precond [0; 0]%float) npdot FltSmall.eigh
                     eigs_diagonal pick_default 2 (@rev float) (fun x => x)
                     FltWitnesses.exchange_exact
                     (Vectors [[3; 4]; [1; 0]]%float) 1%Z tol_default 50%Z 12
                     lindep_default 2000%Z None None 2 false false
                     ltac:(repeat constructor))
                  o st Erun Efin) as (ev & Ee & Lx & Hres).
  cbv zeta in Hres.
  vm_compute in Erun. apply Ok_inj in Erun. subst o.
  vm_compute in Efin. apply Ok_inj in Efin. injection Efin as <-.
  cbn [Dgeev.e] in Ee. injection Ee as <-.
  eexists _, _, _. split; [reflexivity|]. split; [reflexivity|].
  split; [reflexivity|]. split; [reflexivity|]. split; [exact Lx|].
  apply Hres.
  intros a b Ha Hb. vm_compute in Ha, Hb.
  destruct Ha as [<-|[<-|[]]]; destruct Hb as [<-|[<-|[]]];
    vm_compute; split; intros; congruence.
Defined.

End FltCases.
